(** * safari-cookie-json: the binary-cookies decoder and its JSON output

    A shallow embedding of [safari-cookie-json.c].  The mapped file is a list
    of bytes; a pointer into it is its offset from the start of the mapping
    (so the C parameter [data] is offset 0, and pointer arithmetic is integer
    arithmetic, as on an LP64 target where [size_t] is 64 bits wide).  Code
    that reads memory, writes to a stream or returns from
    [printCookiesFromMmap] is a program tree ([prog]); [run] executes a tree on
    a buffer and records what was written to standard output, what was written
    to standard error, and every offset that was read.  A read outside the
    buffer is undefined behaviour in C; here it stops the run with [Fault]. *)

From Stdlib Require Import ZArith List String Ascii Lia Bool DecimalString.
From Stdlib.Strings Require Import Byte.
Import ListNotations.
Local Open Scope Z_scope.

(** ** Exit codes (lines 11-22) *)

Inductive exit_code : Type :=
| EXIT_CODE_OK
| EXIT_CODE_BAD_INVOCATION
| EXIT_CODE_BAD_OPEN
| EXIT_CODE_BAD_CLOSE
| EXIT_CODE_BAD_STAT
| EXIT_CODE_BAD_MMAP
| EXIT_CODE_BAD_MUNMAP
| EXIT_CODE_BAD_EOF
| EXIT_CODE_BAD_MAGIC
| EXIT_CODE_BAD_PARSE.

(** The value the C enumeration gives each constant. *)
Definition exit_value (c : exit_code) : Z :=
  match c with
  | EXIT_CODE_OK => 0
  | EXIT_CODE_BAD_INVOCATION => 1
  | EXIT_CODE_BAD_OPEN => 2
  | EXIT_CODE_BAD_CLOSE => 3
  | EXIT_CODE_BAD_STAT => 4
  | EXIT_CODE_BAD_MMAP => 5
  | EXIT_CODE_BAD_MUNMAP => 6
  | EXIT_CODE_BAD_EOF => 7
  | EXIT_CODE_BAD_MAGIC => 8
  | EXIT_CODE_BAD_PARSE => 9
  end.

(** ** Bytes, text and machine integers *)

(** A byte as the [uint8_t] the code converts it to. *)
Definition u8 (b : byte) : Z := Z.of_N (Byte.to_N b).

(** The bytes of a string literal (without the terminating NUL). *)
Definition bytes (s : string) : list byte := list_byte_of_string s.

(** A literal that ends in a newline. *)
Definition line (s : string) : list byte := bytes s ++ [x0a].

Definition wrap32 (z : Z) : Z := z mod 2 ^ 32.
Definition wrap64 (z : Z) : Z := z mod 2 ^ 64.

(** Conversion of a [uint32_t] (or of an out-of-range sum) to [int]. *)
Definition to_int (z : Z) : Z :=
  let u := wrap32 z in if u <? 2 ^ 31 then u else u - 2 ^ 32.

(** ** The two streams and the read log *)

Record world : Type := mkWorld {
  stdout : list byte;
  stderr : list byte;
  reads : list Z
}.

Definition world0 : world := mkWorld [] [] [].

Definition put_out (s : list byte) (w : world) : world :=
  mkWorld (stdout w ++ s) (stderr w) (reads w).
Definition put_err (s : list byte) (w : world) : world :=
  mkWorld (stdout w) (stderr w ++ s) (reads w).
Definition log_read (off : Z) (w : world) : world :=
  mkWorld (stdout w) (stderr w) (reads w ++ [off]).

Inductive outcome (A : Type) : Type :=
| Done (a : A) (w : world)            (* the code ran on and produced [a] *)
| Exited (c : exit_code) (w : world)  (* [return c] from printCookiesFromMmap *)
| Fault (off : Z) (w : world).        (* a read at [off], outside the buffer *)
Arguments Done {A} a w.
Arguments Exited {A} c w.
Arguments Fault {A} off w.

Definition world_of {A : Type} (r : outcome A) : world :=
  match r with Done _ w | Exited _ w | Fault _ w => w end.

Definition is_fault {A : Type} (r : outcome A) : bool :=
  match r with Fault _ _ => true | _ => false end.

(** ** Program trees *)

Inductive prog (A : Type) : Type :=
| Ret (a : A)
| Return (c : exit_code)
| Load (p : Z) (k : byte -> prog A)
| Out (s : list byte) (k : prog A)
| Err (s : list byte) (k : prog A)
| ForCString (value : Z) (body : byte -> prog unit) (k : prog A).
Arguments Ret {A} a.
Arguments Return {A} c.
Arguments Load {A} p k.
Arguments Out {A} s k.
Arguments Err {A} s k.
Arguments ForCString {A} value body k.

Fixpoint bind {A B : Type} (m : prog A) (f : A -> prog B) : prog B :=
  match m with
  | Ret a => f a
  | Return c => Return c
  | Load p k => Load p (fun b => bind (k b) f)
  | Out s k => Out s (bind k f)
  | Err s k => Err s (bind k f)
  | ForCString value body k => ForCString value body (bind k f)
  end.

Notation "x <- m ;; k" := (bind m (fun x => k))
  (at level 61, m at next level, right associativity).
Notation "' pat <- m ;; k" := (bind m (fun x => match x with pat => k end))
  (at level 61, pat pattern, m at next level, right associativity).
Notation "m ;;; k" := (bind m (fun _ => k))
  (at level 61, right associativity).

(** Dereference of a pointer [p] into the mapped file. *)
Definition load (p : Z) : prog byte := Load p (fun b => Ret b).
(** [putchar] and [printf] without conversions. *)
Definition putchar (c : byte) : prog unit := Out [c] (Ret tt).
Definition printf (s : list byte) : prog unit := Out s (Ret tt).
(** [fprintf(stderr, ...)], the text already formatted. *)
Definition fprintf_stderr (s : list byte) : prog unit := Err s (Ret tt).

(** ** Running a program on a buffer *)

Definition peek (mem : list byte) (off : Z) : option byte :=
  if off <? 0 then None else nth_error mem (Z.to_nat off).

(** The memory from [off] to the end of the buffer. *)
Definition suffix (mem : list byte) (off : Z) : list byte :=
  if off <? 0 then [] else skipn (Z.to_nat off) mem.

(** The loop [for (cursor = value; *cursor; ++cursor)] with [body] applied to
    each byte, followed by [k]; [rest] is the memory from [cursor] on. *)
Fixpoint scan {A : Type} (body : byte -> world -> outcome unit) (k : world -> outcome A)
    (rest : list byte) (cursor : Z) (w : world) : outcome A :=
  match rest with
  | [] => Fault cursor (log_read cursor w)
  | b :: rest' =>
      if u8 b =? 0 then k (log_read cursor w)
      else match body b (log_read cursor w) with
           | Done _ w' => scan body k rest' (cursor + 1) w'
           | Exited c w' => Exited c w'
           | Fault o w' => Fault o w'
           end
  end.

Fixpoint run (mem : list byte) {A : Type} (p : prog A) (w : world) {struct p} : outcome A :=
  match p with
  | Ret a => Done a w
  | Return c => Exited c w
  | Load off k =>
      match peek mem off with
      | Some b => run mem (k b) (log_read off w)
      | None => Fault off (log_read off w)
      end
  | Out s k => run mem k (put_out s w)
  | Err s k => run mem k (put_err s w)
  | ForCString value body k =>
      scan (fun b => run mem (body b)) (run mem k) (suffix mem value) value w
  end.

(** The number of bytes of the buffer: the [length] that [printCookiesFromFd]
    passes, since it maps the whole file. *)
Definition file_length (mem : list byte) : Z := Z.of_nat (List.length mem).

(** ** printf conversions used by the program

    [printf] belongs to the C library, not to this program; the three
    conversions the program uses are written out from the C standard. *)

(** [%d] *)
Definition printf_d (value : Z) : list byte :=
  bytes (NilZero.string_of_int (Z.to_int value)).

Definition hex_digit (d : Z) : byte :=
  nth (Z.to_nat d)
      [x30; x31; x32; x33; x34; x35; x36; x37; x38; x39; x41; x42; x43; x44; x45; x46]
      x30.

(** [%04X] of a value below 16^4 (the program passes a [uint8_t]). *)
Definition printf_04X (value : Z) : list byte :=
  [hex_digit (value / 4096 mod 16); hex_digit (value / 256 mod 16);
   hex_digit (value / 16 mod 16); hex_digit (value mod 16)].

(** A [double] is kept as its 64 bits, which is all [readDouble] produces. *)
Definition double_sign (raw : Z) : bool := Z.testbit raw 63.
Definition double_exponent (raw : Z) : Z := Z.land (Z.shiftr raw 52) 2047.
Definition double_fraction (raw : Z) : Z := Z.land raw (2 ^ 52 - 1).

(** The magnitude of a finite double as a fraction [num / den]. *)
Definition double_magnitude (raw : Z) : Z * Z :=
  let e := double_exponent raw in
  let f := double_fraction raw in
  let m := if e =? 0 then f else f + 2 ^ 52 in
  let x := (if e =? 0 then 1 else e) - 1075 in
  if 0 <=? x then (m * 2 ^ x, 1) else (m, 2 ^ (- x)).

(** [10^x <= num / den] *)
Definition pow10_le (x num den : Z) : bool :=
  if 0 <=? x then 10 ^ x * den <=? num else den <=? num * 10 ^ (- x).

(** The largest decimal exponent [x <= start] with [10^x <= num / den]. *)
Fixpoint decimal_exponent (fuel : nat) (x num den : Z) : Z :=
  match fuel with
  | O => x
  | S fuel' => if pow10_le x num den then x else decimal_exponent fuel' (x - 1) num den
  end.

(** [num / den * 10^s] rounded to the nearest integer, ties to even. *)
Definition scaled_round (s num den : Z) : Z :=
  let n := if 0 <=? s then num * 10 ^ s else num in
  let d := if 0 <=? s then den else den * 10 ^ (- s) in
  let q := n / d in
  let r := n mod d in
  if (d <? 2 * r) || ((d =? 2 * r) && Z.odd q) then q + 1 else q.

Definition digit_byte (d : Z) : byte := hex_digit (d mod 10).

(** The [n] decimal digits of [v], most significant first. *)
Fixpoint digits_of (n : nat) (v : Z) (acc : list byte) : list byte :=
  match n with
  | O => acc
  | S n' => digits_of n' (v / 10) (digit_byte v :: acc)
  end.

Fixpoint strip_zeros_rev (l : list byte) : list byte :=
  match l with
  | x30 :: l' => strip_zeros_rev l'
  | _ => l
  end.

(** Trailing zeros are removed from the fraction, and the point with them when
    nothing is left (the conversion has no [#] flag). *)
Definition fraction_text (frac : list byte) : list byte :=
  match rev (strip_zeros_rev (rev frac)) with
  | [] => []
  | l => x2e :: l
  end.

Definition exponent_text (x : Z) : list byte :=
  let a := Z.abs x in
  (if x <? 0 then x2d else x2b) ::
  (if a <? 10 then x30 :: printf_d a else printf_d a).

(** [%.17lg] of a finite non-zero magnitude. *)
Definition printf_17g_finite (num den : Z) : list byte :=
  let x0 := decimal_exponent 640 309 num den in
  let d0 := scaled_round (16 - x0) num den in
  let x := if d0 =? 10 ^ 17 then x0 + 1 else x0 in
  let d := if d0 =? 10 ^ 17 then 10 ^ 16 else d0 in
  let ds := digits_of 17 d [] in
  if (-4 <=? x) && (x <? 17) then
    if 0 <=? x then
      firstn (Z.to_nat (x + 1)) ds ++ fraction_text (skipn (Z.to_nat (x + 1)) ds)
    else
      x30 :: fraction_text (repeat x30 (Z.to_nat (- x - 1)) ++ ds)
  else
    firstn 1 ds ++ fraction_text (skipn 1 ds) ++ x65 :: exponent_text x.

(** [%.17lg]; a NaN is printed without a sign, as the BSD C library does. *)
Definition printf_17lg (raw : Z) : list byte :=
  let sign := if double_sign raw then [x2d] else [] in
  if double_exponent raw =? 2047 then
    if double_fraction raw =? 0 then sign ++ bytes "inf" else bytes "nan"
  else if (double_exponent raw =? 0) && (double_fraction raw =? 0) then
    sign ++ [x30]
  else
    let '(num, den) := double_magnitude raw in sign ++ printf_17g_finite num den.

(** ** Constants and sizes (lines 24-27) *)

Definition BINARY_COOKIE_MAGIC : list byte := bytes "cook".
Definition COOKIE_PAGE_TAG : list byte := [x00; x00; x01; x00].
Definition COOKIE_PAGE_HEADER_END : list byte := [x00; x00; x00; x00].
Definition BINARY_COOKIE_FOOTER : list byte := [x07; x17; x20; x05].

(** [sizeof(uint32_t)] is 4, [sizeof(uint64_t)] is 8, [CHAR_BIT] is 8 and each
    of the four constants above has size 4; the numerals stand for them below.
    The pointer [data] is offset 0, so [data + length] is [length]. *)

(** [memcmp(s1, s2, sizeof s2)] against one of the constants: zero when the
    bytes agree, otherwise the difference of the first pair that differs.  All
    the bytes compared are read. *)
Fixpoint memcmp (s1 : Z) (s2 : list byte) : prog Z :=
  match s2 with
  | [] => Ret 0
  | c :: s2' =>
      b <- load s1 ;;
      rest <- memcmp (s1 + 1) s2' ;;
      Ret (if u8 b =? u8 c then rest else u8 b - u8 c)
  end.

(** ** Integer readers (lines 29-63); each returns the value and the advanced
    pointer *)

Fixpoint read32Hi_loop (n : nat) (i : Z) (p : Z) (result : Z) : prog Z :=
  match n with
  | O => Ret result
  | S n' =>
      let result := wrap32 (Z.shiftl result 8) in
      b <- load (p + i) ;;
      read32Hi_loop n' (i + 1) p (wrap32 (result + u8 b))
  end.

Definition read32Hi (p : Z) : prog (Z * Z) :=
  result <- read32Hi_loop 4%nat 0 p 0 ;;
  Ret (result, p + 4).

Fixpoint read32Lo_loop (n : nat) (i : Z) (p : Z) (result : Z) : prog Z :=
  match n with
  | O => Ret result
  | S n' =>
      b <- load (p + i) ;;
      read32Lo_loop n' (i + 1) p (wrap32 (result + wrap32 (Z.shiftl (u8 b) (i * 8))))
  end.

Definition read32Lo (p : Z) : prog (Z * Z) :=
  result <- read32Lo_loop 4%nat 0 p 0 ;;
  Ret (result, p + 4).

Fixpoint read64Lo_loop (n : nat) (i : Z) (p : Z) (result : Z) : prog Z :=
  match n with
  | O => Ret result
  | S n' =>
      b <- load (p + i) ;;
      read64Lo_loop n' (i + 1) p (wrap64 (result + wrap64 (Z.shiftl (u8 b) (i * 8))))
  end.

Definition read64Lo (p : Z) : prog (Z * Z) :=
  result <- read64Lo_loop 8%nat 0 p 0 ;;
  Ret (result, p + 8).

(** The bits are reinterpreted as a [double], which is kept as its bits. *)
Definition readDouble (p : Z) : prog (Z * Z) := read64Lo p.

(** ** JSON emitters (lines 65-178) *)

Definition emitJsonBeginArray : prog unit := putchar x5b.
Definition emitJsonBeginObject : prog unit := putchar x7b.
Definition emitJsonEndArray : prog unit := putchar x5d.
Definition emitJsonEndObject : prog unit := putchar x7d.
Definition emitJsonNameSeparator : prog unit := putchar x3a.
Definition emitJsonValueSeparator : prog unit := putchar x2c.
Definition emitJsonValueFalse : prog unit := printf (bytes "false").
Definition emitJsonValueNull : prog unit := printf (bytes "null").
Definition emitJsonValueTrue : prog unit := printf (bytes "true").

Definition emitJsonNumberInt (value : Z) : prog unit := printf (printf_d value).
Definition emitJsonNumberDouble (value : Z) : prog unit := printf (printf_17lg value).

Definition emitJsonCharEscapedPretty (value : byte) : prog unit :=
  putchar x5c ;;; putchar value.

Definition emitJsonCharEscapedUgly (value : Z) : prog unit :=
  printf (bytes "\u" ++ printf_04X value).

(** The [switch] in the loop of [emitJsonString]. *)
Definition emitJsonStringChar (b : byte) : prog unit :=
  match b with
  | x22 => emitJsonCharEscapedPretty x22
  | x5c => emitJsonCharEscapedPretty x5c
  | x08 => emitJsonCharEscapedPretty x62
  | x0c => emitJsonCharEscapedPretty x66
  | x0a => emitJsonCharEscapedPretty x6e
  | x0d => emitJsonCharEscapedPretty x72
  | x09 => emitJsonCharEscapedPretty x74
  | _ => if u8 b <? 32 then emitJsonCharEscapedUgly (u8 b) else putchar b
  end.

(** A [const char *] is either a string literal of the program or a pointer
    into the mapped file. *)
Inductive pointer : Type :=
| Literal (s : string)
| Mapped (p : Z).

(** The loop of [emitJsonString] over a literal, which the compiler
    terminates with a NUL. *)
Fixpoint forLiteral (body : byte -> prog unit) (s : list byte) : prog unit :=
  match s with
  | [] => Ret tt
  | b :: s' => if u8 b =? 0 then Ret tt else body b ;;; forLiteral body s'
  end.

Definition emitJsonString (value : pointer) : prog unit :=
  putchar x22 ;;;
  match value with
  | Literal s => forLiteral emitJsonStringChar (bytes s)
  | Mapped p => ForCString p emitJsonStringChar (Ret tt)
  end ;;;
  putchar x22.

Definition emitJsonNamedValueInt (name : string) (value : Z) : prog unit :=
  emitJsonString (Literal name) ;;;
  emitJsonNameSeparator ;;;
  emitJsonNumberInt value.

Definition emitJsonSeparatedNamedValueInt (name : string) (value : Z) : prog unit :=
  emitJsonValueSeparator ;;;
  emitJsonNamedValueInt name value.

Definition emitJsonSeparatedNamedValueDouble (name : string) (value : Z) : prog unit :=
  emitJsonValueSeparator ;;;
  emitJsonString (Literal name) ;;;
  emitJsonNameSeparator ;;;
  emitJsonNumberDouble value.

Definition emitJsonOptionalSeparatedNamedValueString
    (present : Z) (name : string) (value : Z) : prog unit :=
  if negb (present =? 0) then
    emitJsonValueSeparator ;;;
    emitJsonString (Literal name) ;;;
    emitJsonNameSeparator ;;;
    emitJsonString (Mapped value)
  else Ret tt.

(** ** printCookiesFromMmap (lines 180-342)

    The function is one nest of loops and conditionals; its blocks are named
    here so that statements can refer to them: the object of an accepted
    cookie (lines 283-295), the checks on a record (248-296), the reading of
    its header (235-246), the body of the cookie loop (227-297), the checksum
    loop (303-306), the body of the page loop (203-308), the header of the
    file (181-201) and its trailer (310-339). *)

(** The text of the two diagnostics that name a cookie or a page. *)
Definition cookie_diagnostic (cookieIdx pageIdx : Z) (what : string) : list byte :=
  bytes "Cookie " ++ printf_d cookieIdx ++ bytes " in Page " ++ printf_d pageIdx ++ line what.

Definition page_diagnostic (before : string) (pageIdx : Z) (what : string) : list byte :=
  bytes before ++ printf_d pageIdx ++ line what.

(** The twelve local variables read from the record header (lines 235-246). *)
Record cookieHeader : Type := mkCookieHeader {
  cookieSize : Z;
  version : Z;
  flags : Z;
  hasPort : Z;
  domain : Z;
  name : Z;
  path : Z;
  value : Z;
  comment : Z;
  commentUrl : Z;
  expiry : Z;
  creation : Z
}.

(** Lines 283-295. *)
Definition emitCookieObject (cookieBase : Z) (h : cookieHeader) : prog unit :=
  emitJsonBeginObject ;;;
  emitJsonNamedValueInt "version" (to_int (version h)) ;;;
  emitJsonSeparatedNamedValueInt "flags" (to_int (flags h)) ;;;
  emitJsonOptionalSeparatedNamedValueString (to_int (domain h)) "domain"
    (cookieBase + domain h) ;;;
  emitJsonOptionalSeparatedNamedValueString (to_int (name h)) "name" (cookieBase + name h) ;;;
  emitJsonOptionalSeparatedNamedValueString (to_int (path h)) "path" (cookieBase + path h) ;;;
  emitJsonOptionalSeparatedNamedValueString (to_int (value h)) "value"
    (cookieBase + value h) ;;;
  emitJsonOptionalSeparatedNamedValueString (to_int (comment h)) "comment"
    (cookieBase + comment h) ;;;
  emitJsonOptionalSeparatedNamedValueString (to_int (commentUrl h)) "commentUrl"
    (cookieBase + commentUrl h) ;;;
  emitJsonSeparatedNamedValueDouble "expiry" (expiry h) ;;;
  emitJsonSeparatedNamedValueDouble "creation" (creation h) ;;;
  emitJsonEndObject.

(** Lines 248-296: the checks on the record whose header has been read, and
    its emission.  The result is the new value of [first]. *)
Definition checkCookie (pageEnd pageIdx cookieIdx cookieBase : Z) (h : cookieHeader)
    (first : bool) : prog bool :=
  let cookieEnd := cookieBase + cookieSize h in
  if pageEnd <? cookieEnd then
    fprintf_stderr (cookie_diagnostic cookieIdx pageIdx " has end past end of page") ;;;
    Return EXIT_CODE_BAD_PARSE
  else
    last <- load (cookieEnd - 1) ;;
    if negb (0 =? u8 last) then
      fprintf_stderr
        (cookie_diagnostic cookieIdx pageIdx " does not end with null terminated string") ;;;
      Return EXIT_CODE_BAD_PARSE
    else if cookieEnd <? cookieBase + domain h then
      fprintf_stderr (cookie_diagnostic cookieIdx pageIdx " domain out of range") ;;;
      Return EXIT_CODE_BAD_PARSE
    else if cookieEnd <? cookieBase + name h then
      fprintf_stderr (cookie_diagnostic cookieIdx pageIdx " name out of range") ;;;
      Return EXIT_CODE_BAD_PARSE
    else if cookieEnd <? cookieBase + path h then
      fprintf_stderr (cookie_diagnostic cookieIdx pageIdx " path out of range") ;;;
      Return EXIT_CODE_BAD_PARSE
    else if cookieEnd <? cookieBase + value h then
      fprintf_stderr (cookie_diagnostic cookieIdx pageIdx " value out of range") ;;;
      Return EXIT_CODE_BAD_PARSE
    else if cookieEnd <? cookieBase + comment h then
      fprintf_stderr (cookie_diagnostic cookieIdx pageIdx " comment out of range") ;;;
      Return EXIT_CODE_BAD_PARSE
    else if cookieEnd <? cookieBase + commentUrl h then
      fprintf_stderr (cookie_diagnostic cookieIdx pageIdx " commentUrl out of range") ;;;
      Return EXIT_CODE_BAD_PARSE
    else
      (if first then Ret tt else emitJsonValueSeparator) ;;;
      emitCookieObject cookieBase h ;;;
      Ret false.

(** Lines 235-246. *)
Definition readCookieHeader (cookieCursor : Z) : prog cookieHeader :=
  '(cookieSize, cookieCursor) <- read32Lo cookieCursor ;;
  '(version, cookieCursor) <- read32Lo cookieCursor ;;
  '(flags, cookieCursor) <- read32Lo cookieCursor ;;
  '(hasPort, cookieCursor) <- read32Lo cookieCursor ;;
  '(domain, cookieCursor) <- read32Lo cookieCursor ;;
  '(name, cookieCursor) <- read32Lo cookieCursor ;;
  '(path, cookieCursor) <- read32Lo cookieCursor ;;
  '(value, cookieCursor) <- read32Lo cookieCursor ;;
  '(comment, cookieCursor) <- read32Lo cookieCursor ;;
  '(commentUrl, cookieCursor) <- read32Lo cookieCursor ;;
  '(expiry, cookieCursor) <- readDouble cookieCursor ;;
  '(creation, cookieCursor) <- readDouble cookieCursor ;;
  Ret (mkCookieHeader cookieSize version flags hasPort domain name path value comment
         commentUrl expiry creation).

(** Lines 227-297: one cookie.  The state of the loop is the cursor in the
    offset table and the flag [first]. *)
Definition processCookie (length pageBase pageEnd pageIdx cookieIdx : Z)
    (cookieOffsetBase : Z) (first : bool) : prog (Z * bool) :=
  '(offset, cookieOffsetBase) <- read32Lo cookieOffsetBase ;;
  let cookieBase := pageBase + offset in
  let cookieCursor := cookieBase in
  if length <? cookieCursor + 10 * 4 + 2 * 8 then
    fprintf_stderr (cookie_diagnostic cookieIdx pageIdx " too short for cookie header") ;;;
    Return EXIT_CODE_BAD_PARSE
  else
    h <- readCookieHeader cookieCursor ;;
    first <- checkCookie pageEnd pageIdx cookieIdx cookieBase h first ;;
    Ret (cookieOffsetBase, first).

(** Line 226: [cookieIdx] is an [int] compared with the unsigned
    [cookieCount], so the body runs [cookieCount] times; [n] counts the
    iterations that remain. *)
Fixpoint cookieLoop (length pageBase pageEnd pageIdx : Z) (n : nat) (cookieIdx : Z)
    (cookieOffsetBase : Z) (first : bool) : prog (Z * bool) :=
  match n with
  | O => Ret (cookieOffsetBase, first)
  | S n' =>
      '(cookieOffsetBase, first) <-
        processCookie length pageBase pageEnd pageIdx cookieIdx cookieOffsetBase first ;;
      cookieLoop length pageBase pageEnd pageIdx n' (to_int (cookieIdx + 1))
        cookieOffsetBase first
  end.

(** Lines 303-306.  The cursor advances by 4 while it is below [pageEnd];
    [fuel] bounds the iterations and [pageEnd - pageCursor] is always enough
    (lemma [checksumLoop_fuel]). *)
Fixpoint checksumLoop (fuel : nat) (pageCursor pageEnd checkSum : Z) : prog Z :=
  match fuel with
  | O => Ret checkSum
  | S fuel' =>
      if pageCursor <? pageEnd then
        b <- load pageCursor ;;
        checksumLoop fuel' (pageCursor + 4) pageEnd (wrap32 (checkSum + u8 b))
      else Ret checkSum
  end.

(** The variables that live across iterations of the page loop. *)
Record pageState : Type := mkPageState {
  first : bool;
  checkSum : Z;
  pageSizeBase : Z;
  pageBase : Z
}.

(** Lines 203-308: one page. *)
Definition processPage (length pageIdx : Z) (st : pageState) : prog pageState :=
  '(pageSize, pageSizeBase) <- read32Hi (pageSizeBase st) ;;
  let pageBase := pageBase st in
  let pageEnd := pageBase + pageSize in
  if length <? pageEnd then
    fprintf_stderr (page_diagnostic "File too short, incomplete page " pageIdx "") ;;;
    Return EXIT_CODE_BAD_EOF
  else if pageSize <? 4 + 4 then
    fprintf_stderr
      (page_diagnostic "Page " pageIdx " too short for page tag and cookie count") ;;;
    Return EXIT_CODE_BAD_PARSE
  else
    c <- memcmp pageBase COOKIE_PAGE_TAG ;;
    if negb (c =? 0) then
      fprintf_stderr (line "Bad page tag - is this a cookie file?") ;;;
      Return EXIT_CODE_BAD_MAGIC
    else
      let cookieOffsetBase := pageBase + 4 in
      '(cookieCount, cookieOffsetBase) <- read32Lo cookieOffsetBase ;;
      let cookiePageHeaderEnd := cookieOffsetBase + cookieCount * 4 in
      if pageEnd <? cookiePageHeaderEnd + 4 then
        fprintf_stderr (page_diagnostic "Page " pageIdx " too short for cookie offsets") ;;;
        Return EXIT_CODE_BAD_PARSE
      else
        c <- memcmp cookiePageHeaderEnd COOKIE_PAGE_HEADER_END ;;
        if negb (c =? 0) then
          fprintf_stderr (line "Bad page header end - is this a cookie file?") ;;;
          Return EXIT_CODE_BAD_MAGIC
        else
          '(_, first) <-
            cookieLoop length pageBase pageEnd pageIdx (Z.to_nat cookieCount) 0
              cookieOffsetBase (first st) ;;
          checkSum <-
            checksumLoop (Z.to_nat (pageEnd - pageBase)) pageBase pageEnd (checkSum st) ;;
          Ret (mkPageState first checkSum pageSizeBase pageEnd).

(** Line 202: as for the cookie loop, the body runs [pageCount] times. *)
Fixpoint pageLoop (length : Z) (n : nat) (pageIdx : Z) (st : pageState) : prog pageState :=
  match n with
  | O => Ret st
  | S n' =>
      st <- processPage length pageIdx st ;;
      pageLoop length n' (to_int (pageIdx + 1)) st
  end.

(** Lines 181-201: the checks on the file header and the opening of the JSON
    document. *)
Definition fileHeader (length : Z) : prog (Z * pageState) :=
  if length <? 4 + 4 then
    fprintf_stderr (line "File too short, when checking magic and page count") ;;;
    Return EXIT_CODE_BAD_EOF
  else
    c <- memcmp 0 BINARY_COOKIE_MAGIC ;;
    if negb (c =? 0) then
      fprintf_stderr (line "Bad magic - is this a cookie file?") ;;;
      Return EXIT_CODE_BAD_MAGIC
    else
      let checkSum := 0 in
      let pageSizeBase := 0 + 4 in
      '(pageCount, pageSizeBase) <- read32Hi pageSizeBase ;;
      let pageBase := pageSizeBase + pageCount * 4 in
      if length <? pageBase then
        fprintf_stderr (line "File too short, when checking page sizes in header") ;;;
        Return EXIT_CODE_BAD_EOF
      else
        let first := true in
        emitJsonBeginObject ;;;
        emitJsonString (Literal "cookies") ;;;
        emitJsonNameSeparator ;;;
        emitJsonBeginArray ;;;
        Ret (pageCount, mkPageState first checkSum pageSizeBase pageBase).

(** Lines 310-339. *)
Definition fileTrailer (length : Z) (pageBase checkSum : Z) : prog Empty_set :=
  if length <? pageBase + 4 + 4 + 4 then
    fprintf_stderr (line "File too short, for checksum, footer, and plist size") ;;;
    Return EXIT_CODE_BAD_EOF
  else
    '(savedCheckSum, pageBase) <- read32Hi pageBase ;;
    if negb (savedCheckSum =? checkSum) then
      fprintf_stderr (line "Bad file checksum") ;;;
      Return EXIT_CODE_BAD_PARSE
    else
      c <- memcmp pageBase BINARY_COOKIE_FOOTER ;;
      if negb (c =? 0) then
        fprintf_stderr (line "Bad file footer - is this a cookie file?") ;;;
        Return EXIT_CODE_BAD_MAGIC
      else
        let pageBase := pageBase + 4 in
        '(plistSize, pageBase) <- read32Hi pageBase ;;
        if negb (length =? pageBase + plistSize) then
          fprintf_stderr (line "File length and plist data length mismatch") ;;;
          Return EXIT_CODE_BAD_PARSE
        else
          emitJsonEndArray ;;;
          emitJsonEndObject ;;;
          Return EXIT_CODE_OK.

Definition printCookiesFromMmap (length : Z) : prog Empty_set :=
  '(pageCount, st) <- fileHeader length ;;
  st <- pageLoop length (Z.to_nat pageCount) 0 st ;;
  fileTrailer length (pageBase st) (checkSum st).

(** The call of [printCookiesFromFd] (line 358) on a mapped file of these
    bytes, with nothing written or read yet. *)
Definition decode (mem : list byte) : outcome Empty_set :=
  run mem (printCookiesFromMmap (file_length mem)) world0.

(** ** Building example files *)

Definition byte_of_Z (z : Z) : byte :=
  match Byte.of_N (Z.to_N (z mod 256)) with
  | Some b => b
  | None => x00
  end.

Definition be32 (z : Z) : list byte :=
  [byte_of_Z (z / 16777216); byte_of_Z (z / 65536); byte_of_Z (z / 256); byte_of_Z z].

Definition le32 (z : Z) : list byte := rev (be32 z).

Definition le64 (z : Z) : list byte := le32 z ++ le32 (z / 4294967296).

(** A NUL-terminated string. *)
Definition cstr (s : string) : list byte := bytes s ++ [x00].

(** A cookie record: the twelve header fields (both dates zero), then the
    bytes that follow the header. *)
Definition record (cookieSize version flags hasPort domain name path value comment
    commentUrl : Z) (strings : list byte) : list byte :=
  le32 cookieSize ++ le32 version ++ le32 flags ++ le32 hasPort ++
  le32 domain ++ le32 name ++ le32 path ++ le32 value ++ le32 comment ++ le32 commentUrl ++
  le64 0 ++ le64 0 ++ strings.

(** A page with one cookie, placed right after the page header. *)
Definition page1 (cookie : list byte) : list byte :=
  COOKIE_PAGE_TAG ++ le32 1 ++ le32 16 ++ COOKIE_PAGE_HEADER_END ++ cookie.

(** The file header and the pages, without trailer. *)
Definition file_pages (pages : list (list byte)) : list byte :=
  BINARY_COOKIE_MAGIC ++ be32 (Z.of_nat (List.length pages)) ++
  flat_map (fun pg => be32 (Z.of_nat (List.length pg))) pages ++ List.concat pages.

Definition file_of (pages : list (list byte)) (checksum : Z) (plist : list byte) : list byte :=
  file_pages pages ++ be32 checksum ++ BINARY_COOKIE_FOOTER ++
  be32 (Z.of_nat (List.length plist)) ++ plist.

(** The scenario file: one page, one cookie; the record is the 56-byte header
    followed by the strings [x.com], [a] and [b]. *)
Definition scenario_cookie : list byte :=
  record 66 1 0 0 56 62 0 64 0 0 (cstr "x.com" ++ cstr "a" ++ cstr "b").

Definition scenario_file : list byte := file_of [page1 scenario_cookie] 593 [].

Definition quoted (s : string) : list byte := x22 :: bytes s ++ [x22].

Definition scenario_text : list byte :=
  bytes "{" ++ quoted "cookies" ++ bytes ":[{" ++
  quoted "version" ++ bytes ":1," ++ quoted "flags" ++ bytes ":0," ++
  quoted "domain" ++ bytes ":" ++ quoted "x.com" ++ bytes "," ++
  quoted "name" ++ bytes ":" ++ quoted "a" ++ bytes "," ++
  quoted "value" ++ bytes ":" ++ quoted "b" ++ bytes "," ++
  quoted "expiry" ++ bytes ":0," ++ quoted "creation" ++ bytes ":0}]}".

(** The scenario with the domain offset equal to the record size, so that the
    domain is scanned from the end of the record; the buffer ends with the
    page. *)
Definition overrun_cookie : list byte :=
  record 66 1 0 0 66 62 0 64 0 0 (cstr "x.com" ++ cstr "a" ++ cstr "b").

Definition overrun_file : list byte := file_pages [page1 overrun_cookie].

(** The same page in a complete file: the scan of the domain starts on the
    first byte of the saved checksum. *)
Definition overrun_file_complete : list byte := file_of [page1 overrun_cookie] 603 [].

(** A record of declared size 13: it ends inside its own header, and its
    domain is the bytes of the version field. *)
Definition short_record_file : list byte :=
  file_of [page1 (record 13 65 0 0 4 0 0 0 0 0 [])] 99 [].

(** A record of declared size 0. *)
Definition empty_record_file : list byte :=
  file_of [page1 (record 0 1 0 0 0 0 0 0 0 0 [])] 18 [].

(** A page of 17 bytes whose cookie starts on its last byte: the 56 bytes of
    the header run through the trailer and the property list. *)
Definition straddling_file : list byte :=
  file_of [COOKIE_PAGE_TAG ++ le32 1 ++ le32 16 ++ COOKIE_PAGE_HEADER_END ++ [x00]] 17
    (repeat x00 43).

(** One complete page whose cookie starts 8 bytes before the end of the page,
    which is the end of the buffer. *)
Definition short_header_file : list byte := file_pages [page1 (le32 0 ++ le32 1)].

(** The scenario with a wrong saved checksum, and with one byte after the
    property list. *)
Definition bad_checksum_file : list byte := file_of [page1 scenario_cookie] 0 [].
Definition bad_plist_file : list byte := scenario_file ++ [x00].

(** Two pages.  The cookie of the first page starts 18 bytes before the end of
    the page, so its name offset is read from the last two bytes of the tag
    of the second page and the first two of its cookie count. *)
Definition overlap_page0 : list byte :=
  COOKIE_PAGE_TAG ++ le32 1 ++ le32 16 ++ COOKIE_PAGE_HEADER_END ++
  le32 18 ++ le32 1 ++ le32 0 ++ le32 0 ++ [x00; x00].

Definition overlap_page1 (tag : list byte) : list byte :=
  tag ++ le32 0 ++ COOKIE_PAGE_HEADER_END ++ repeat x00 26.

Definition overlap_file : list byte :=
  file_of [overlap_page0; overlap_page1 COOKIE_PAGE_TAG] 36 [].

(** [overlap_file] with the last byte of the tag of the second page changed. *)
Definition overlap_file_flipped : list byte :=
  file_of [overlap_page0; overlap_page1 [x00; x00; x01; xff]] 36 [].

(** ** Auxiliary notions for the statements *)

(** Sequencing of outcomes. *)
Definition andThen {A B : Type} (r : outcome A) (f : A -> world -> outcome B) : outcome B :=
  match r with
  | Done a w => f a w
  | Exited c w => Exited c w
  | Fault o w => Fault o w
  end.

(** [w'] is [w] with more written and more read. *)
Record extends (w w' : world) : Prop := mkExtends {
  ext_stdout : exists s, stdout w' = stdout w ++ s;
  ext_stderr : exists s, stderr w' = stderr w ++ s;
  ext_reads : exists l, reads w' = reads w ++ l
}.

(** Two buffers hold the same bytes at the offsets of [l]. *)
Definition agree_on (mem mem' : list byte) (l : list Z) : Prop :=
  forall off, In off l -> peek mem' off = peek mem off.

(** The byte at an offset, as a number; 0 outside the buffer. *)
Definition byteAt (mem : list byte) (off : Z) : Z :=
  match peek mem off with
  | Some b => u8 b
  | None => 0
  end.

(** The big-endian and the little-endian 32-bit values at [p]. *)
Definition get32Hi (mem : list byte) (p : Z) : Z :=
  byteAt mem p * 2 ^ 24 + byteAt mem (p + 1) * 2 ^ 16 + byteAt mem (p + 2) * 2 ^ 8 +
  byteAt mem (p + 3).

Definition get32Lo (mem : list byte) (p : Z) : Z :=
  byteAt mem p + byteAt mem (p + 1) * 2 ^ 8 + byteAt mem (p + 2) * 2 ^ 16 +
  byteAt mem (p + 3) * 2 ^ 24.

(** The world after the reads of the offsets of [l], in order. *)
Definition log_reads (l : list Z) (w : world) : world :=
  mkWorld (stdout w) (stderr w) (reads w ++ l).

(** The [n] bytes from [p] on lie inside the buffer. *)
Definition in_bounds (mem : list byte) (p n : Z) : Prop :=
  0 <= p /\ p + n <= file_length mem.

(** In a tidy program every write to standard error is followed at once by
    the return of a failure code, and a failure code is returned in no other
    way; [ok] says whether the program may return [EXIT_CODE_OK]. *)
Fixpoint tidy (ok : bool) {A : Type} (p : prog A) : Prop :=
  match p with
  | Ret _ => True
  | Return c => c = EXIT_CODE_OK /\ ok = true
  | Load _ k => forall b, tidy ok (k b)
  | Out _ k => tidy ok k
  | Err s k => s <> [] /\ exists c, k = Return c /\ c <> EXIT_CODE_OK
  | ForCString _ body k => (forall b, tidy ok (body b)) /\ tidy ok k
  end.

(** What a tidy program can have done to standard error. *)
Definition stderr_effect (ok : bool) {A : Type} (w : world) (r : outcome A) : Prop :=
  match r with
  | Done _ w' | Fault _ w' => stderr w' = stderr w
  | Exited c w' =>
      (c = EXIT_CODE_OK /\ ok = true /\ stderr w' = stderr w) \/
      (c <> EXIT_CODE_OK /\ exists s, s <> [] /\ stderr w' = stderr w ++ s)
  end.

(** The offsets [p], [p + 1], ..., [p + n - 1]. *)
Fixpoint span (p : Z) (n : nat) : list Z :=
  match n with
  | O => []
  | S n' => p :: span (p + 1) n'
  end.

(** The result of [memcmp] of the buffer at [s1] with the constant [s2]. *)
Fixpoint memcmp_value (mem : list byte) (s1 : Z) (s2 : list byte) : Z :=
  match s2 with
  | [] => 0
  | c :: s2' =>
      if byteAt mem s1 =? u8 c then memcmp_value mem (s1 + 1) s2'
      else byteAt mem s1 - u8 c
  end.

Definition get64Lo (mem : list byte) (p : Z) : Z :=
  get32Lo mem p + get32Lo mem (p + 4) * 2 ^ 32.

(** The header of the record at [cookieBase], field by field. *)
Definition headerAt (mem : list byte) (cookieBase : Z) : cookieHeader :=
  mkCookieHeader
    (get32Lo mem cookieBase) (get32Lo mem (cookieBase + 4)) (get32Lo mem (cookieBase + 8))
    (get32Lo mem (cookieBase + 12)) (get32Lo mem (cookieBase + 16))
    (get32Lo mem (cookieBase + 20)) (get32Lo mem (cookieBase + 24))
    (get32Lo mem (cookieBase + 28)) (get32Lo mem (cookieBase + 32))
    (get32Lo mem (cookieBase + 36)) (get64Lo mem (cookieBase + 40))
    (get64Lo mem (cookieBase + 48)).

(** Programs that only write to standard output: their result and their
    text. *)
Fixpoint out_only {A : Type} (p : prog A) : option A :=
  match p with
  | Ret a => Some a
  | Out _ k => out_only k
  | _ => None
  end.

Fixpoint out_text {A : Type} (p : prog A) : list byte :=
  match p with
  | Out s k => s ++ out_text k
  | _ => []
  end.

(** The text that opens the document (lines 198-201). *)
Definition opening : list byte := bytes "{" ++ quoted "cookies" ++ bytes ":[".

(** The text that closes it (lines 333-334). *)
Definition closing : list byte := bytes "]}".

(** ** The layout of a file, read off the buffer

    After the magic comes the page count, then one big-endian size per page,
    then the pages in order, then the saved checksum, the footer and the size
    of the property list. *)

Definition pageCountOf (mem : list byte) : Z := get32Hi mem 4.

Definition pageSizeOf (mem : list byte) (i : nat) : Z := get32Hi mem (8 + 4 * Z.of_nat i).

Fixpoint pageStart (mem : list byte) (i : nat) : Z :=
  match i with
  | O => 8 + pageCountOf mem * 4
  | S j => pageStart mem j + pageSizeOf mem j
  end.

Definition pagesEnd (mem : list byte) : Z := pageStart mem (Z.to_nat (pageCountOf mem)).

Definition footerOffset (mem : list byte) : Z := pagesEnd mem + 4.

(** The checksum as the specification words it: over every page, the bytes
    at offsets 0, 4, 8, ... of the page, each as an unsigned 8-bit value,
    summed modulo 2^32. *)
Fixpoint laneSum (mem : list byte) (p : Z) (n : nat) : Z :=
  match n with
  | O => 0
  | S n' => byteAt mem p + laneSum mem (p + 4) n'
  end.

(** The number of offsets 0, 4, 8, ... below [size]. *)
Definition lanesOf (size : Z) : nat := Z.to_nat ((size + 3) / 4).

Fixpoint pagesSum (mem : list byte) (i : nat) : Z :=
  match i with
  | O => 0
  | S j => pagesSum mem j + laneSum mem (pageStart mem j) (lanesOf (pageSizeOf mem j))
  end.

Definition fileChecksum (mem : list byte) : Z :=
  pagesSum mem (Z.to_nat (pageCountOf mem)) mod 2 ^ 32.

Definition savedChecksum (mem : list byte) : Z := get32Hi mem (pagesEnd mem).

(** The offsets the checksum loop reads. *)
Fixpoint laneOffsets (p : Z) (n : nat) : list Z :=
  match n with
  | O => []
  | S n' => p :: laneOffsets (p + 4) n'
  end.

(** The state of the page loop before page [i]. *)
Definition at_page (mem : list byte) (i : nat) (st : pageState) : Prop :=
  pageSizeBase st = 8 + 4 * Z.of_nat i /\
  pageBase st = pageStart mem i /\
  checkSum st = wrap32 (pagesSum mem i).

(** The three checks of the file header (lines 181-194) all pass. *)
Definition header_ok (mem : list byte) : bool :=
  negb (file_length mem <? 8) &&
  (memcmp_value mem 0 BINARY_COOKIE_MAGIC =? 0) &&
  negb (file_length mem <? 8 + pageCountOf mem * 4).

(** The state in which the page loop is entered. *)
Definition state0 (mem : list byte) : pageState :=
  mkPageState true 0 8 (8 + pageCountOf mem * 4).

(** The world in which the page loop is entered. *)
Definition world1 : world := put_out opening (log_reads (span 0 8) world0).

(** The run of the first [n] iterations of the page loop, after the header. *)
Definition pagesRun (mem : list byte) (n : nat) : outcome pageState :=
  run mem (pageLoop (file_length mem) n 0 (state0 mem)) world1.

(** ** The text of a cookie object *)

(** The bytes of the NUL-terminated string that starts [rest]; there is none
    when no NUL follows. *)
Fixpoint cstring_of (rest : list byte) : option (list byte) :=
  match rest with
  | [] => None
  | b :: rest' => if u8 b =? 0 then Some [] else option_map (cons b) (cstring_of rest')
  end.

Definition cstringAt (mem : list byte) (p : Z) : option (list byte) :=
  cstring_of (suffix mem p).

(** What [emitJsonString] writes for one byte, and for a string. *)
Definition json_char (b : byte) : list byte := out_text (emitJsonStringChar b).

Definition json_string (s : list byte) : list byte := x22 :: flat_map json_char s ++ [x22].

(** What [emitJsonString] writes for a literal. *)
Fixpoint literal_text (l : list byte) : list byte :=
  match l with
  | [] => []
  | b :: l' => if u8 b =? 0 then [] else json_char b ++ literal_text l'
  end.

Definition json_name (s : string) : list byte := x22 :: literal_text (bytes s) ++ [x22].

(** The member of the cookie object for a string field: nothing at all when
    the offset is zero. *)
Definition field_text (mem : list byte) (cookieBase off : Z) (key : string) : list byte :=
  if off =? 0 then []
  else match cstringAt mem (cookieBase + off) with
       | Some s => bytes "," ++ quoted key ++ bytes ":" ++ json_string s
       | None => []
       end.

Definition cookie_text (mem : list byte) (cookieBase : Z) (h : cookieHeader) : list byte :=
  bytes "{" ++ quoted "version" ++ bytes ":" ++ printf_d (to_int (version h)) ++
  bytes "," ++ quoted "flags" ++ bytes ":" ++ printf_d (to_int (flags h)) ++
  field_text mem cookieBase (domain h) "domain" ++
  field_text mem cookieBase (name h) "name" ++
  field_text mem cookieBase (path h) "path" ++
  field_text mem cookieBase (value h) "value" ++
  field_text mem cookieBase (comment h) "comment" ++
  field_text mem cookieBase (commentUrl h) "commentUrl" ++
  bytes "," ++ quoted "expiry" ++ bytes ":" ++ printf_17lg (expiry h) ++
  bytes "," ++ quoted "creation" ++ bytes ":" ++ printf_17lg (creation h) ++
  bytes "}".

(** The six optional string fields of a record, with their keys. *)
Definition string_fields (h : cookieHeader) : list (string * Z) :=
  [("domain"%string, domain h); ("name"%string, name h); ("path"%string, path h);
   ("value"%string, value h); ("comment"%string, comment h);
   ("commentUrl"%string, commentUrl h)].

(** ** Decoding a truncated file *)

(** The ways the decoding of a truncated file ends: with the code of a short
    file, or with the failure of the check of line 230 (the header of a cookie
    does not fit in what is left of the buffer); a read outside the buffer is
    left open here. *)
Definition truncated_failure {A : Type} (r : outcome A) : Prop :=
  match r with
  | Done _ _ => False
  | Fault _ _ => True
  | Exited c w =>
      c = EXIT_CODE_BAD_EOF \/
      (c = EXIT_CODE_BAD_PARSE /\
       exists cookieIdx pageIdx,
         stderr w = cookie_diagnostic cookieIdx pageIdx " too short for cookie header")
  end.

(** ** Changing one byte of a file *)

(** The buffer with the byte at offset [p] replaced. *)
Definition set_byte (mem : list byte) (p : Z) (b : byte) : list byte :=
  firstn (Z.to_nat p) mem ++ b :: skipn (S (Z.to_nat p)) mem.

(** [mem'] is [mem] but for the byte at offset [p]. *)
Definition same_except (mem mem' : list byte) (p : Z) : Prop :=
  file_length mem' = file_length mem /\
  forall off, off <> p -> peek mem' off = peek mem off.

(** The four kinds of 4-byte magic values of a file. *)
Inductive site : Type :=
| FileMagic
| PageTag (i : nat)
| PageHeaderEnd (i : nat)
| FileFooter.

Definition site_offset (mem : list byte) (s : site) : Z :=
  match s with
  | FileMagic => 0
  | PageTag i => pageStart mem i
  | PageHeaderEnd i => pageStart mem i + 8 + get32Lo mem (pageStart mem i + 4) * 4
  | FileFooter => pagesEnd mem + 4
  end.

Definition site_valid (mem : list byte) (s : site) : Prop :=
  match s with
  | PageTag i | PageHeaderEnd i => (i < Z.to_nat (pageCountOf mem))%nat
  | FileMagic | FileFooter => True
  end.

(** The offsets read before the page, or the trailer, that holds the magic
    value is examined: those read by the header and by the pages before. *)
Definition reads_before (mem : list byte) (s : site) : list Z :=
  match s with
  | FileMagic => []
  | PageTag i | PageHeaderEnd i => reads (world_of (pagesRun mem i))
  | FileFooter => reads (world_of (pagesRun mem (Z.to_nat (pageCountOf mem))))
  end.

(** The value of [pageIdx] after [a] more iterations. *)
Fixpoint nextIdx (a : nat) (pageIdx : Z) : Z :=
  match a with
  | O => pageIdx
  | S a' => nextIdx a' (to_int (pageIdx + 1))
  end.

(** * Further notions: the text of strings, the cookies of a file, the callers *)

(** ** Reading a JSON string back

    The comment in [emitJsonString] cites RFC 8259, section 7.  What follows
    reads the inside of a JSON string as that section defines it, for the
    escapes the program writes: the two-character escapes and [\u] followed by
    four hexadecimal digits of a code below 256 (a byte).  A control
    character or a quotation mark that is not escaped is refused. *)

Definition hex_value (c : byte) : option Z :=
  let v := u8 c in
  if (48 <=? v) && (v <=? 57) then Some (v - 48)
  else if (65 <=? v) && (v <=? 70) then Some (v - 55)
  else if (97 <=? v) && (v <=? 102) then Some (v - 87)
  else None.

Definition hex4_value (h1 h2 h3 h4 : byte) : option Z :=
  match hex_value h1, hex_value h2, hex_value h3, hex_value h4 with
  | Some a, Some b, Some c, Some d => Some (((a * 16 + b) * 16 + c) * 16 + d)
  | _, _, _, _ => None
  end.

(** The character that follows the reverse solidus of a two-character
    escape. *)
Definition escaped_char (c : byte) : option byte :=
  let v := u8 c in
  if v =? 34 then Some x22
  else if v =? 92 then Some x5c
  else if v =? 47 then Some x2f
  else if v =? 98 then Some x08
  else if v =? 102 then Some x0c
  else if v =? 110 then Some x0a
  else if v =? 114 then Some x0d
  else if v =? 116 then Some x09
  else None.

Fixpoint json_unescape (l : list byte) : option (list byte) :=
  match l with
  | [] => Some []
  | b :: r =>
      if u8 b =? 92 then
        match r with
        | [] => None
        | c :: r1 =>
            if u8 c =? 117 then
              match r1 with
              | h1 :: h2 :: h3 :: h4 :: r2 =>
                  match hex4_value h1 h2 h3 h4 with
                  | Some v =>
                      if v <? 256 then option_map (cons (byte_of_Z v)) (json_unescape r2)
                      else None
                  | None => None
                  end
              | _ => None
              end
            else
              match escaped_char c with
              | Some d => option_map (cons d) (json_unescape r1)
              | None => None
              end
        end
      else if (u8 b <? 32) || (u8 b =? 34) then None
      else option_map (cons b) (json_unescape r)
  end.

(** A byte that [emitJsonString] writes as it is. *)
Definition plain_byte (b : byte) : Prop := 32 <= u8 b /\ u8 b <> 34 /\ u8 b <> 92.

(** ** The cookies of a file, read off the buffer *)

(** The record offsets of a page are little-endian and relative to the page;
    [n] of them are taken from [cookieOffsetBase] on. *)
Fixpoint cookieBasesFrom (mem : list byte) (pageBase cookieOffsetBase : Z) (n : nat) : list Z :=
  match n with
  | O => []
  | S n' =>
      (pageBase + get32Lo mem cookieOffsetBase) ::
      cookieBasesFrom mem pageBase (cookieOffsetBase + 4) n'
  end.

Definition cookieCountOf (mem : list byte) (i : nat) : Z := get32Lo mem (pageStart mem i + 4).

(** The starts of the records of page [i], in the order of its table. *)
Definition pageCookies (mem : list byte) (i : nat) : list Z :=
  cookieBasesFrom mem (pageStart mem i) (pageStart mem i + 8) (Z.to_nat (cookieCountOf mem i)).

(** The starts of the records of the pages before page [i]. *)
Fixpoint cookiesBefore (mem : list byte) (i : nat) : list Z :=
  match i with
  | O => []
  | S j => cookiesBefore mem j ++ pageCookies mem j
  end.

Definition cookiesOf (mem : list byte) : list Z :=
  cookiesBefore mem (Z.to_nat (pageCountOf mem)).

(** The object of the record at [cookieBase]. *)
Definition object_at (mem : list byte) (cookieBase : Z) : list byte :=
  cookie_text mem cookieBase (headerAt mem cookieBase).

(** Objects with a comma before each but the very first; [first] says that
    none has been written yet. *)
Fixpoint objects_text (first : bool) (l : list (list byte)) : list byte :=
  match l with
  | [] => []
  | t :: l' => (if first then [] else bytes ",") ++ t ++ objects_text false l'
  end.

(** The document of a file: one object per record, pages in order and
    records in the order of the table of their page. *)
Definition document (mem : list byte) : list byte :=
  opening ++ objects_text true (map (object_at mem) (cookiesOf mem)) ++ closing.

Definition is_nil {A : Type} (l : list A) : bool :=
  match l with [] => true | _ => false end.

(** ** What the decoder requires of a file *)

(** The checks of lines 230 and 248-281 on the record at [cookieBase] of a
    page that ends at [pageEnd]. *)
Definition record_ok (mem : list byte) (pageEnd cookieBase : Z) : Prop :=
  let h := headerAt mem cookieBase in
  cookieBase + 56 <= file_length mem /\
  cookieBase + cookieSize h <= pageEnd /\
  (exists z, peek mem (cookieBase + cookieSize h - 1) = Some z /\ u8 z = 0) /\
  forall key off, In (key, off) (string_fields h) -> off <= cookieSize h.

(** The checks of lines 206-225 on page [i], and those on its records. *)
Definition page_ok (mem : list byte) (i : nat) : Prop :=
  let pb := pageStart mem i in
  let headerEnd := pb + 8 + cookieCountOf mem i * 4 in
  8 <= pageSizeOf mem i /\
  pageStart mem (S i) <= file_length mem /\
  memcmp_value mem pb COOKIE_PAGE_TAG = 0 /\
  headerEnd + 4 <= pageStart mem (S i) /\
  memcmp_value mem headerEnd COOKIE_PAGE_HEADER_END = 0 /\
  Forall (record_ok mem (pageStart mem (S i))) (pageCookies mem i).

(** Every string field that is present ends with a NUL inside the buffer. *)
Definition strings_end (mem : list byte) (cookieBase : Z) : Prop :=
  forall key off,
    In (key, off) (string_fields (headerAt mem cookieBase)) -> off <> 0 ->
    exists s, cstringAt mem (cookieBase + off) = Some s.

Definition well_formed (mem : list byte) : Prop :=
  header_ok mem = true /\
  (forall i, (i < Z.to_nat (pageCountOf mem))%nat -> page_ok mem i) /\
  Forall (strings_end mem) (cookiesOf mem) /\
  savedChecksum mem = fileChecksum mem /\
  memcmp_value mem (footerOffset mem) BINARY_COOKIE_FOOTER = 0 /\
  file_length mem = pagesEnd mem + 12 + get32Hi mem (pagesEnd mem + 8).

(** No string field that is present starts at the very end of its record
    (line 259 and its likes let an offset equal to the size through). *)
Definition strict_offsets (mem : list byte) (cookieBase : Z) : Prop :=
  forall key off,
    In (key, off) (string_fields (headerAt mem cookieBase)) -> off <> 0 ->
    off <> cookieSize (headerAt mem cookieBase).

(** The emission of the object of a record completes once the record has
    passed its checks. *)
Definition emits_checked (mem : list byte) (pageEnd cookieBase : Z) : Prop :=
  record_ok mem pageEnd cookieBase ->
  forall w, exists w', run mem (emitCookieObject cookieBase (headerAt mem cookieBase)) w = Done tt w'.

(** A block that neither reads outside the buffer nor returns
    [EXIT_CODE_OK], and that fails only when [P] does not hold. *)
Definition settles {A : Type} (P : Prop) (r : outcome A) : Prop :=
  match r with
  | Done _ _ => True
  | Exited c _ => c <> EXIT_CODE_OK /\ ~ P
  | Fault _ _ => False
  end.

(** ** The callers: printCookiesFromFd and main (lines 344-393)

    The system calls belong to the operating system, not to this program;
    what each of them answers in a run is given by a [system].  A call that
    fails leaves an error number, of which [perror] prints the message. *)

Inductive sysresult (A : Type) : Type :=
| Succeeds (a : A)
| Fails (message : list byte).
Arguments Succeeds {A} a.
Arguments Fails {A} message.

Record system : Type := mkSystem {
  sys_open : list byte -> sysresult unit;   (* open(filename, O_RDONLY) *)
  sys_fstat : sysresult Z;                  (* fstat(fd, ...): st_size *)
  sys_mmap : Z -> sysresult (list byte);    (* mmap(0, length, ...): the bytes mapped *)
  sys_munmap : sysresult unit;              (* munmap(data, length) *)
  sys_close : sysresult unit                (* close(fd) *)
}.

(** [perror(s)] *)
Definition perror (s : string) (message : list byte) (w : world) : world :=
  put_err (bytes s ++ bytes ": " ++ message ++ [x0a]) w.

(** [exitCode ? exitCode : other] *)
Definition or_else (exitCode other : exit_code) : exit_code :=
  if exit_value exitCode =? 0 then other else exitCode.

(** Lines 344-366. *)
Definition printCookiesFromFd (sys : system) (w : world) : outcome Empty_set :=
  match sys_fstat sys with
  | Fails m => Exited EXIT_CODE_BAD_STAT (perror "Cannot stat file" m w)
  | Succeeds length =>
      match sys_mmap sys length with
      | Fails m => Exited EXIT_CODE_BAD_MMAP (perror "Cannot mmap file" m w)
      | Succeeds data =>
          match run data (printCookiesFromMmap length) w with
          | Done e _ => match e with end
          | Fault o w' => Fault o w'
          | Exited exitCode w' =>
              match sys_munmap sys with
              | Fails m =>
                  Exited (or_else exitCode EXIT_CODE_BAD_MUNMAP)
                    (perror "Cannot munmap file" m w')
              | Succeeds _ => Exited exitCode w'
              end
          end
      end
  end.

(** The three lines written for a wrong invocation (lines 370-375); [argv0]
    is the string at [*argv]. *)
Definition usage (argv0 : list byte) : list byte :=
  bytes "Usage: " ++ argv0 ++ line " FILENAME" ++
  line "  For example," ++
  bytes "  " ++ argv0 ++ bytes " " ++ [x22] ++ bytes "${HOME}" ++ [x22] ++
  line "/Library/Containers/com.apple.Safari/Data/Library/Cookies/Cookies.binarycookies".

(** Lines 368-393.  [argv] is [argv0 :: args], so [argc] is one more than
    the number of [args]: the program is started with its name in [argv[0]]. *)
Definition main (sys : system) (argv0 : list byte) (args : list (list byte)) :
    outcome Empty_set :=
  match args with
  | [filename] =>
      match sys_open sys filename with
      | Fails m => Exited EXIT_CODE_BAD_OPEN (perror "Cannot open file" m world0)
      | Succeeds _ =>
          match printCookiesFromFd sys world0 with
          | Done e _ => match e with end
          | Fault o w => Fault o w
          | Exited exitCode w =>
              match sys_close sys with
              | Fails m =>
                  Exited (or_else exitCode EXIT_CODE_BAD_CLOSE)
                    (perror "Cannot close file" m w)
              | Succeeds _ => Exited exitCode w
              end
          end
      end
  | _ => Exited EXIT_CODE_BAD_INVOCATION (put_err (usage argv0) world0)
  end.

(** A system on which [filename] can be opened and holds [data], and on
    which unmapping and closing succeed. *)
Definition serves (sys : system) (filename data : list byte) : Prop :=
  sys_open sys filename = Succeeds tt /\
  sys_fstat sys = Succeeds (file_length data) /\
  sys_mmap sys (file_length data) = Succeeds data.

Definition releases (sys : system) : Prop :=
  sys_munmap sys = Succeeds tt /\ sys_close sys = Succeeds tt.

(** A system with one file. *)
Definition one_file (filename data : list byte) (munmap_ok close_ok : bool) : system :=
  mkSystem
    (fun f => if list_eq_dec Byte.byte_eq_dec f filename then Succeeds tt
              else Fails (bytes "No such file or directory"))
    (Succeeds (file_length data))
    (fun _ => Succeeds data)
    (if munmap_ok then Succeeds tt else Fails (bytes "Invalid argument"))
    (if close_ok then Succeeds tt else Fails (bytes "Input/output error")).

(** ** The codes a program can return *)

(** Every [return] of the program gives a code in [P]. *)
Fixpoint returns (P : exit_code -> Prop) {A : Type} (p : prog A) : Prop :=
  match p with
  | Ret _ => True
  | Return c => P c
  | Load _ k => forall b, returns P (k b)
  | Out _ k => returns P k
  | Err _ k => returns P k
  | ForCString _ body k => (forall b, returns P (body b)) /\ returns P k
  end.

(** No code at all: the program has no [return]. *)
Definition no_code (c : exit_code) : Prop := False.

(** The codes of a failure of the decoder. *)
Definition decoder_failure (c : exit_code) : Prop :=
  c = EXIT_CODE_BAD_EOF \/ c = EXIT_CODE_BAD_MAGIC \/ c = EXIT_CODE_BAD_PARSE.

Definition decoder_code (c : exit_code) : Prop := c = EXIT_CODE_OK \/ decoder_failure c.

(** The decoder was called on the mapped bytes and returned [c]. *)
Definition decoder_returned (sys : system) (c : exit_code) : Prop :=
  exists length data w,
    sys_fstat sys = Succeeds length /\ sys_mmap sys length = Succeeds data /\
    run data (printCookiesFromMmap length) world0 = Exited c w.

(** What has happened when [main] returns [c]. *)
Definition exit_cause (sys : system) (args : list (list byte)) (c : exit_code) : Prop :=
  match c with
  | EXIT_CODE_BAD_INVOCATION => forall filename, args <> [filename]
  | EXIT_CODE_BAD_OPEN => exists filename m, args = [filename] /\ sys_open sys filename = Fails m
  | EXIT_CODE_BAD_STAT => exists m, sys_fstat sys = Fails m
  | EXIT_CODE_BAD_MMAP =>
      exists length m, sys_fstat sys = Succeeds length /\ sys_mmap sys length = Fails m
  | EXIT_CODE_BAD_MUNMAP =>
      decoder_returned sys EXIT_CODE_OK /\ exists m, sys_munmap sys = Fails m
  | EXIT_CODE_BAD_CLOSE =>
      decoder_returned sys EXIT_CODE_OK /\ sys_munmap sys = Succeeds tt /\
      exists m, sys_close sys = Fails m
  | EXIT_CODE_OK =>
      decoder_returned sys EXIT_CODE_OK /\ sys_munmap sys = Succeeds tt /\
      sys_close sys = Succeeds tt
  | EXIT_CODE_BAD_EOF | EXIT_CODE_BAD_MAGIC | EXIT_CODE_BAD_PARSE => decoder_returned sys c
  end.

(** ** The offsets a run reads *)

(** The read log [r'] extends [r] by offsets below [hi] only. *)
Definition below (hi : Z) (r r' : list Z) : Prop :=
  exists l, r' = r ++ l /\ forall off, In off l -> off < hi.

(** A record that is at least as long as its header and in which no string
    starts at the very end. *)
Definition tight_record (mem : list byte) (cookieBase : Z) : Prop :=
  56 <= cookieSize (headerAt mem cookieBase) /\ strict_offsets mem cookieBase.

(** The scenario file up to a property list of three bytes. *)
Definition scenario_before_plist : list byte :=
  file_pages [page1 scenario_cookie] ++ be32 593 ++ BINARY_COOKIE_FOOTER ++ be32 3.

(** ** Failing in a record *)

(** The run ends in the checks of a record, with the diagnostic of that
    record, or in a read outside the buffer. *)
Definition record_failure {A : Type} (r : outcome A) : Prop :=
  match r with
  | Done _ _ => False
  | Exited c w =>
      c = EXIT_CODE_BAD_PARSE /\
      exists cookieIdx pageIdx what, stderr w = cookie_diagnostic cookieIdx pageIdx what
  | Fault _ _ => True
  end.

(** The run completes with [a] and a silent standard error, or fails in a
    record. *)
Definition done_or_record_failure {A : Type} (a : A) (r : outcome A) : Prop :=
  (exists w, r = Done a w /\ stderr w = []) \/ record_failure r.

(** * The search for the decimal exponent

    [printf_17g_finite] looks for the decimal exponent downwards from 309 with
    640 units of fuel; every finite non-zero double is at least 10^-324, so
    the search ends on an exponent that fits. *)

Lemma decimal_exponent_found fuel : forall x x0 num den,
  x - Z.of_nat fuel <= x0 <= x ->
  pow10_le x0 num den = true ->
  pow10_le (decimal_exponent fuel x num den) num den = true.
Proof.
  induction fuel as [|fuel IH]; intros x x0 num den Hx H0; cbn [decimal_exponent].
  - replace x with x0 by lia. exact H0.
  - destruct (pow10_le x num den) eqn:E; [exact E|].
    apply (IH (x - 1) x0); [|exact H0].
    destruct (Z.eq_dec x0 x) as [->|]; [congruence|lia].
Qed.

Lemma double_exponent_range raw : 0 <= double_exponent raw < 2048.
Proof.
  unfold double_exponent. change 2047 with (Z.ones 11).
  rewrite Z.land_ones by lia. apply Z.mod_pos_bound. lia.
Qed.

Lemma double_fraction_range raw : 0 <= double_fraction raw < 2 ^ 52.
Proof.
  unfold double_fraction. change (2 ^ 52 - 1) with (Z.ones 52).
  rewrite Z.land_ones by lia. apply Z.mod_pos_bound. lia.
Qed.

Lemma decimal_exponent_fuel raw :
  double_exponent raw <> 0 \/ double_fraction raw <> 0 ->
  pow10_le (decimal_exponent 640 309 (fst (double_magnitude raw)) (snd (double_magnitude raw)))
    (fst (double_magnitude raw)) (snd (double_magnitude raw)) = true.
Proof.
  intros Hnz. apply (decimal_exponent_found 640 309 (-324)); [lia|].
  pose proof (double_exponent_range raw) as He.
  pose proof (double_fraction_range raw) as Hf.
  unfold double_magnitude, pow10_le. cbn [Z.leb Z.compare Z.opp].
  set (e := double_exponent raw) in *. set (f := double_fraction raw) in *.
  set (m := if e =? 0 then f else f + 2 ^ 52).
  set (x := (if e =? 0 then 1 else e) - 1075).
  assert (Hm : 1 <= m).
  { unfold m. destruct (Z.eqb_spec e 0); [destruct Hnz; [contradiction|lia]|lia]. }
  assert (Hx : -1074 <= x <= 972).
  { unfold x. destruct (Z.eqb_spec e 0); lia. }
  assert (Hbig : 2 ^ 1074 <= 10 ^ 324) by (vm_compute; discriminate).
  destruct (Z.leb_spec 0 x) as [Hpos|Hneg]; cbn [fst snd]; apply Z.leb_le.
  - assert (1 <= 2 ^ x) by (apply (Z.pow_le_mono_r 2 0 x); lia).
    assert (0 < 10 ^ 324) by (apply Z.pow_pos_nonneg; lia). nia.
  - assert (2 ^ (- x) <= 2 ^ 1074) by (apply Z.pow_le_mono_r; lia).
    assert (0 < 10 ^ 324) by (apply Z.pow_pos_nonneg; lia). nia.
Qed.

(** * Properties of [run] *)


Lemma scan_andThen {A B : Type} (body : byte -> world -> outcome unit)
    (k : world -> outcome A) (f : A -> world -> outcome B) rest cursor w :
  scan body (fun w' => andThen (k w') f) rest cursor w =
  andThen (scan body k rest cursor w) f.
Proof.
  revert cursor w; induction rest as [|b rest IH]; intros cursor w; simpl.
  - reflexivity.
  - destruct (u8 b =? 0); [reflexivity|].
    destruct (body b (log_read cursor w)); simpl; auto.
Qed.

Lemma scan_ext {A : Type} (body body' : byte -> world -> outcome unit)
    (k k' : world -> outcome A) rest cursor w :
  (forall b w', body b w' = body' b w') -> (forall w', k w' = k' w') ->
  scan body k rest cursor w = scan body' k' rest cursor w.
Proof.
  intros Hb Hk; revert cursor w; induction rest as [|b rest IH]; intros cursor w; simpl.
  - reflexivity.
  - rewrite Hk, Hb. destruct (u8 b =? 0); [reflexivity|].
    destruct (body' b (log_read cursor w)); auto.
Qed.

Lemma run_bind mem {A B : Type} (m : prog A) (f : A -> prog B) w :
  run mem (bind m f) w = andThen (run mem m w) (fun a => run mem (f a)).
Proof.
  revert B f w.
  induction m as [A a|A c|A off k IH|A s k IH|A s k IH|A value body IHb k IH]; intros B f w; simpl.
  - reflexivity.
  - reflexivity.
  - destruct (peek mem off); [apply IH|reflexivity].
  - apply IH.
  - apply IH.
  - rewrite <- scan_andThen. apply scan_ext; [reflexivity|]. intros w'; apply IH.
Qed.

(** ** The streams and the read log only grow *)


Lemma extends_refl w : extends w w.
Proof. split; exists []; symmetry; apply app_nil_r. Qed.

Lemma extends_trans w1 w2 w3 : extends w1 w2 -> extends w2 w3 -> extends w1 w3.
Proof.
  intros [[a Ha] [b Hb] [c Hc]] [[a' Ha'] [b' Hb'] [c' Hc']].
  split; [exists (a ++ a')|exists (b ++ b')|exists (c ++ c')];
    rewrite app_assoc; congruence.
Qed.

Lemma extends_put_out s w : extends w (put_out s w).
Proof. split; simpl; [exists s|exists []|exists []]; auto using app_nil_r. Qed.

Lemma extends_put_err s w : extends w (put_err s w).
Proof. split; simpl; [exists []|exists s|exists []]; auto using app_nil_r. Qed.

Lemma extends_log_read off w : extends w (log_read off w).
Proof. split; simpl; [exists []|exists []|exists [off]]; auto using app_nil_r. Qed.

Lemma scan_extends {A : Type} (body : byte -> world -> outcome unit) (k : world -> outcome A) :
  (forall b w, extends w (world_of (body b w))) ->
  (forall w, extends w (world_of (k w))) ->
  forall rest cursor w, extends w (world_of (scan body k rest cursor w)).
Proof.
  intros Hb Hk; induction rest as [|b rest IH]; intros cursor w; simpl.
  - apply extends_log_read.
  - destruct (u8 b =? 0).
    + eapply extends_trans; [apply extends_log_read|apply Hk].
    + specialize (Hb b (log_read cursor w)).
      destruct (body b (log_read cursor w)) as [[] w'|c w'|o w']; simpl in *.
      * eapply extends_trans; [apply extends_log_read|].
        eapply extends_trans; [apply Hb|apply IH].
      * eapply extends_trans; [apply extends_log_read|apply Hb].
      * eapply extends_trans; [apply extends_log_read|apply Hb].
Qed.

Lemma run_extends mem {A : Type} (p : prog A) w : extends w (world_of (run mem p w)).
Proof.
  revert w.
  induction p as [A a|A c|A off k IH|A s k IH|A s k IH|A value body IHb k IH]; intros w; simpl.
  - apply extends_refl.
  - apply extends_refl.
  - destruct (peek mem off).
    + eapply extends_trans; [apply extends_log_read|apply IH].
    + apply extends_log_read.
  - eapply extends_trans; [apply extends_put_out|apply IH].
  - eapply extends_trans; [apply extends_put_err|apply IH].
  - apply scan_extends; auto.
Qed.

Lemma extends_reads_In w w' off : extends w w' -> In off (reads w) -> In off (reads w').
Proof. intros [_ _ [l Hl]] H. rewrite Hl. apply in_or_app; auto. Qed.

(** ** A run depends on the buffer only through the bytes it reads *)


Lemma suffix_cons mem off :
  suffix mem off = match peek mem off with
                   | Some b => b :: suffix mem (off + 1)
                   | None => []
                   end.
Proof.
  unfold suffix, peek. destruct (Z.ltb_spec off 0) as [Hneg|Hpos].
  - reflexivity.
  - destruct (Z.ltb_spec (off + 1) 0); [lia|].
    replace (Z.to_nat (off + 1)) with (S (Z.to_nat off)) by lia.
    generalize (Z.to_nat off) as n. clear. revert mem.
    induction mem as [|x mem IH]; intros [|n]; simpl; auto.
Qed.

Lemma scan_agree {A : Type} mem mem' (body body' : byte -> world -> outcome unit)
    (k k' : world -> outcome A) :
  (forall b w, agree_on mem mem' (reads (world_of (body b w))) -> body' b w = body b w) ->
  (forall w, agree_on mem mem' (reads (world_of (k w))) -> k' w = k w) ->
  (forall b w, extends w (world_of (body b w))) ->
  (forall w, extends w (world_of (k w))) ->
  forall rest cursor w,
    rest = suffix mem cursor ->
    agree_on mem mem' (reads (world_of (scan body k rest cursor w))) ->
    scan body' k' (suffix mem' cursor) cursor w = scan body k rest cursor w.
Proof.
  intros Hb Hk Eb Ek. induction rest as [|b rest IH]; intros cursor w Hrest Hag.
  - simpl in *. rewrite suffix_cons in Hrest.
    rewrite suffix_cons, (Hag cursor).
    + destruct (peek mem cursor); [discriminate|reflexivity].
    + apply in_or_app; right; left; reflexivity.
  - rewrite suffix_cons in Hrest.
    assert (Hin : In cursor (reads (world_of (scan body k (b :: rest) cursor w)))).
    { eapply extends_reads_In.
      - simpl. destruct (u8 b =? 0); [apply Ek|].
        pose proof (Eb b (log_read cursor w)) as E1.
        destruct (body b (log_read cursor w)) as [[] w'|c w'|o w']; simpl in *;
          [eapply extends_trans; [apply E1|apply scan_extends; auto]|apply E1|apply E1].
      - simpl. apply in_or_app; right; left; reflexivity. }
    rewrite suffix_cons, (Hag cursor Hin).
    destruct (peek mem cursor) as [b0|]; [|discriminate].
    injection Hrest as Hb0 Hrest; subst b0. simpl in *.
    destruct (u8 b =? 0).
    + apply Hk, Hag.
    + assert (Hbody : body' b (log_read cursor w) = body b (log_read cursor w)).
      { apply Hb. intros off Hoff. apply Hag.
        destruct (body b (log_read cursor w)) as [[] w'|c w'|o w']; simpl in *; auto.
        eapply extends_reads_In; [apply scan_extends; auto|exact Hoff]. }
      rewrite Hbody.
      destruct (body b (log_read cursor w)) as [[] w'|c w'|o w']; auto.
Qed.

Lemma run_agree mem mem' {A : Type} (p : prog A) w :
  agree_on mem mem' (reads (world_of (run mem p w))) ->
  run mem' p w = run mem p w.
Proof.
  revert w.
  induction p as [A a|A c|A off k IH|A s k IH|A s k IH|A value body IHb k IH];
    intros w Hag; simpl in *; auto.
  - assert (Hin : In off (reads (world_of
        match peek mem off with
        | Some b => run mem (k b) (log_read off w)
        | None => Fault off (log_read off w)
        end))).
    { destruct (peek mem off).
      - eapply extends_reads_In; [apply run_extends|].
        simpl. apply in_or_app; right; left; reflexivity.
      - simpl. apply in_or_app; right; left; reflexivity. }
    rewrite (Hag off Hin). destruct (peek mem off); auto.
  - apply (scan_agree mem mem'); auto; intros; apply run_extends.
Qed.

(** ** A run on a prefix of the buffer agrees with the run on the buffer until
    it reads past the prefix *)

Lemma peek_app_Some mem tl off b : peek mem off = Some b -> peek (mem ++ tl) off = Some b.
Proof.
  unfold peek. destruct (off <? 0); [discriminate|]. intros H.
  rewrite nth_error_app1; [exact H|]. apply nth_error_Some. congruence.
Qed.

Lemma scan_prefix {A : Type} mem tl (body body' : byte -> world -> outcome unit)
    (k k' : world -> outcome A) :
  (forall b w, body' b w = body b w \/ is_fault (body' b w) = true) ->
  (forall w, k' w = k w \/ is_fault (k' w) = true) ->
  forall rest cursor w,
    rest = suffix mem cursor ->
    scan body' k' rest cursor w = scan body k (suffix (mem ++ tl) cursor) cursor w \/
    is_fault (scan body' k' rest cursor w) = true.
Proof.
  intros Hb Hk. induction rest as [|b rest IH]; intros cursor w Hrest.
  - right; reflexivity.
  - rewrite suffix_cons in Hrest. rewrite (suffix_cons (mem ++ tl)).
    destruct (peek mem cursor) as [b0|] eqn:E; [|discriminate].
    injection Hrest as Hb0 Hrest; subst b0.
    rewrite (peek_app_Some _ tl _ _ E). simpl.
    destruct (u8 b =? 0); [apply Hk|].
    destruct (Hb b (log_read cursor w)) as [Heq|Hf].
    + rewrite Heq. destruct (body b (log_read cursor w)) as [[] w'|c w'|o w']; auto.
    + destruct (body' b (log_read cursor w)); try discriminate. right; reflexivity.
Qed.

Lemma run_prefix mem tl {A : Type} (p : prog A) w :
  run mem p w = run (mem ++ tl) p w \/ is_fault (run mem p w) = true.
Proof.
  revert w.
  induction p as [A a|A c|A off k IH|A s k IH|A s k IH|A value body IHb k IH];
    intros w; simpl; auto.
  - destruct (peek mem off) as [b|] eqn:E.
    + rewrite (peek_app_Some _ tl _ _ E). apply IH.
    + right; reflexivity.
  - apply scan_prefix; auto.
Qed.

(** ** Reading the buffer without running anything *)






Lemma u8_range b : 0 <= u8 b < 256.
Proof.
  unfold u8. pose proof (Byte.to_N_bounded b). lia.
Qed.

Lemma byteAt_range mem off : 0 <= byteAt mem off < 256.
Proof. unfold byteAt. destruct (peek mem off); [apply u8_range|lia]. Qed.

Lemma get32Hi_range mem p : 0 <= get32Hi mem p < 2 ^ 32.
Proof.
  unfold get32Hi.
  pose proof (byteAt_range mem p). pose proof (byteAt_range mem (p + 1)).
  pose proof (byteAt_range mem (p + 2)). pose proof (byteAt_range mem (p + 3)). lia.
Qed.

Lemma get32Lo_range mem p : 0 <= get32Lo mem p < 2 ^ 32.
Proof.
  unfold get32Lo.
  pose proof (byteAt_range mem p). pose proof (byteAt_range mem (p + 1)).
  pose proof (byteAt_range mem (p + 2)). pose proof (byteAt_range mem (p + 3)). lia.
Qed.

Lemma peek_Some_bounds mem off b : peek mem off = Some b -> 0 <= off < file_length mem.
Proof.
  unfold peek, file_length. destruct (Z.ltb_spec off 0) as [|Hpos]; [discriminate|].
  intros Hnth.
  assert (Z.to_nat off < List.length mem)%nat by (apply nth_error_Some; congruence).
  lia.
Qed.

Lemma peek_None_bounds mem off : peek mem off = None -> off < 0 \/ file_length mem <= off.
Proof.
  unfold peek, file_length. destruct (Z.ltb_spec off 0) as [|Hpos]; [auto|].
  intros Hnth. apply nth_error_None in Hnth. lia.
Qed.

Lemma peek_in_bounds mem off :
  0 <= off < file_length mem -> exists b, peek mem off = Some b.
Proof.
  intros H. destruct (peek mem off) as [b|] eqn:E; [eauto|].
  apply peek_None_bounds in E. lia.
Qed.

Lemma peek_byteAt mem off b : peek mem off = Some b -> u8 b = byteAt mem off.
Proof. unfold byteAt. intros ->. reflexivity. Qed.

Lemma world_eta w : mkWorld (stdout w) (stderr w) (reads w) = w.
Proof. destruct w; reflexivity. Qed.

Lemma log_read_log_reads off l w : log_reads l (log_read off w) = log_reads (off :: l) w.
Proof. unfold log_reads, log_read. simpl. rewrite <- app_assoc. reflexivity. Qed.

Lemma log_reads_nil w : log_reads [] w = w.
Proof. unfold log_reads. rewrite app_nil_r. apply world_eta. Qed.

Lemma log_read_as_reads off w : log_read off w = log_reads [off] w.
Proof. reflexivity. Qed.

Lemma log_reads_app l1 l2 w : log_reads l2 (log_reads l1 w) = log_reads (l1 ++ l2) w.
Proof. unfold log_reads. simpl. rewrite app_assoc. reflexivity. Qed.

Ltac norm_log := rewrite ?log_read_as_reads, ?log_reads_app; simpl app.

(** Each reader returns the value at the pointer and the pointer advanced by
    the size of the value, or faults. *)
Lemma run_read32Hi mem p w :
  run mem (read32Hi p) w =
  match peek mem p, peek mem (p + 1), peek mem (p + 2), peek mem (p + 3) with
  | Some _, Some _, Some _, Some _ =>
      Done (get32Hi mem p, p + 4) (log_reads [p; p + 1; p + 2; p + 3] w)
  | Some _, Some _, Some _, None => Fault (p + 3) (log_reads [p; p + 1; p + 2; p + 3] w)
  | Some _, Some _, None, _ => Fault (p + 2) (log_reads [p; p + 1; p + 2] w)
  | Some _, None, _, _ => Fault (p + 1) (log_reads [p; p + 1] w)
  | None, _, _, _ => Fault p (log_reads [p] w)
  end.
Proof.
  unfold read32Hi, get32Hi, byteAt.
  cbn [run bind read32Hi_loop load].
  replace (p + 0) with p by lia. replace (p + (0 + 1)) with (p + 1) by lia.
  replace (p + (0 + 1 + 1)) with (p + 2) by lia.
  replace (p + (0 + 1 + 1 + 1)) with (p + 3) by lia.
  norm_log.
  destruct (peek mem p) as [b0|]; [|reflexivity].
  destruct (peek mem (p + 1)) as [b1|]; [|reflexivity].
  destruct (peek mem (p + 2)) as [b2|]; [|reflexivity].
  destruct (peek mem (p + 3)) as [b3|]; [|reflexivity].
  f_equal. f_equal.
  pose proof (u8_range b0). pose proof (u8_range b1).
  pose proof (u8_range b2). pose proof (u8_range b3).
  unfold wrap32. rewrite !Z.shiftl_mul_pow2 by lia.
  change (0 * 2 ^ 8) with 0. rewrite (Z.mod_small 0) by lia. rewrite Z.add_0_l.
  rewrite (Z.mod_small (u8 b0)) by lia.
  rewrite (Z.mod_small (u8 b0 * 2 ^ 8)) by lia.
  rewrite (Z.mod_small (u8 b0 * 2 ^ 8 + u8 b1)) by lia.
  rewrite (Z.mod_small ((u8 b0 * 2 ^ 8 + u8 b1) * 2 ^ 8)) by lia.
  rewrite (Z.mod_small ((u8 b0 * 2 ^ 8 + u8 b1) * 2 ^ 8 + u8 b2)) by lia.
  rewrite (Z.mod_small (((u8 b0 * 2 ^ 8 + u8 b1) * 2 ^ 8 + u8 b2) * 2 ^ 8)) by lia.
  rewrite Z.mod_small by lia. lia.
Qed.

Lemma run_read32Lo mem p w :
  run mem (read32Lo p) w =
  match peek mem p, peek mem (p + 1), peek mem (p + 2), peek mem (p + 3) with
  | Some _, Some _, Some _, Some _ =>
      Done (get32Lo mem p, p + 4) (log_reads [p; p + 1; p + 2; p + 3] w)
  | Some _, Some _, Some _, None => Fault (p + 3) (log_reads [p; p + 1; p + 2; p + 3] w)
  | Some _, Some _, None, _ => Fault (p + 2) (log_reads [p; p + 1; p + 2] w)
  | Some _, None, _, _ => Fault (p + 1) (log_reads [p; p + 1] w)
  | None, _, _, _ => Fault p (log_reads [p] w)
  end.
Proof.
  unfold read32Lo, get32Lo, byteAt.
  cbn [run bind read32Lo_loop load].
  replace (p + 0) with p by lia. replace (p + (0 + 1)) with (p + 1) by lia.
  replace (p + (0 + 1 + 1)) with (p + 2) by lia.
  replace (p + (0 + 1 + 1 + 1)) with (p + 3) by lia.
  norm_log.
  destruct (peek mem p) as [b0|]; [|reflexivity].
  destruct (peek mem (p + 1)) as [b1|]; [|reflexivity].
  destruct (peek mem (p + 2)) as [b2|]; [|reflexivity].
  destruct (peek mem (p + 3)) as [b3|]; [|reflexivity].
  f_equal. f_equal.
  pose proof (u8_range b0). pose proof (u8_range b1).
  pose proof (u8_range b2). pose proof (u8_range b3).
  unfold wrap32. rewrite !Z.shiftl_mul_pow2 by lia.
  change (0 * 8) with 0. change ((0 + 1) * 8) with 8.
  change ((0 + 1 + 1) * 8) with 16. change ((0 + 1 + 1 + 1) * 8) with 24.
  rewrite Z.pow_0_r, Z.mul_1_r.
  rewrite (Z.mod_small (u8 b0)) by lia. rewrite Z.add_0_l.
  rewrite (Z.mod_small (u8 b0)) by lia.
  rewrite (Z.mod_small (u8 b1 * 2 ^ 8)) by lia.
  rewrite (Z.mod_small (u8 b0 + u8 b1 * 2 ^ 8)) by lia.
  rewrite (Z.mod_small (u8 b2 * 2 ^ 16)) by lia.
  rewrite (Z.mod_small (u8 b0 + u8 b1 * 2 ^ 8 + u8 b2 * 2 ^ 16)) by lia.
  rewrite (Z.mod_small (u8 b3 * 2 ^ 24)) by lia.
  rewrite Z.mod_small by lia. reflexivity.
Qed.

Ltac peeks_in_bounds mem p :=
  repeat match goal with
  | |- context [peek mem ?q] =>
      let b := fresh "b" in let E := fresh "E" in
      destruct (peek_in_bounds mem q) as [b E]; [lia|rewrite E]
  end.

Lemma read32Hi_ok mem p w :
  in_bounds mem p 4 ->
  run mem (read32Hi p) w = Done (get32Hi mem p, p + 4) (log_reads [p; p + 1; p + 2; p + 3] w).
Proof.
  intros [H0 H1]. rewrite run_read32Hi. unfold get32Hi, byteAt.
  destruct (peek_in_bounds mem p) as [b0 E0]; [lia|].
  destruct (peek_in_bounds mem (p + 1)) as [b1 E1]; [lia|].
  destruct (peek_in_bounds mem (p + 2)) as [b2 E2]; [lia|].
  destruct (peek_in_bounds mem (p + 3)) as [b3 E3]; [lia|].
  rewrite E0, E1, E2, E3. reflexivity.
Qed.

Lemma read32Lo_ok mem p w :
  in_bounds mem p 4 ->
  run mem (read32Lo p) w = Done (get32Lo mem p, p + 4) (log_reads [p; p + 1; p + 2; p + 3] w).
Proof.
  intros [H0 H1]. rewrite run_read32Lo. unfold get32Lo, byteAt.
  destruct (peek_in_bounds mem p) as [b0 E0]; [lia|].
  destruct (peek_in_bounds mem (p + 1)) as [b1 E1]; [lia|].
  destruct (peek_in_bounds mem (p + 2)) as [b2 E2]; [lia|].
  destruct (peek_in_bounds mem (p + 3)) as [b3 E3]; [lia|].
  rewrite E0, E1, E2, E3. reflexivity.
Qed.

Lemma read32Hi_Done mem p w a w' :
  run mem (read32Hi p) w = Done a w' ->
  in_bounds mem p 4 /\ a = (get32Hi mem p, p + 4) /\
  w' = log_reads [p; p + 1; p + 2; p + 3] w.
Proof.
  rewrite run_read32Hi.
  destruct (peek mem p) eqn:E0; [|discriminate].
  destruct (peek mem (p + 1)) eqn:E1; [|discriminate].
  destruct (peek mem (p + 2)) eqn:E2; [|discriminate].
  destruct (peek mem (p + 3)) eqn:E3; [|discriminate].
  intros H; injection H as <- <-.
  apply peek_Some_bounds in E0, E3. unfold in_bounds. repeat split; lia.
Qed.

Lemma read32Lo_Done mem p w a w' :
  run mem (read32Lo p) w = Done a w' ->
  in_bounds mem p 4 /\ a = (get32Lo mem p, p + 4) /\
  w' = log_reads [p; p + 1; p + 2; p + 3] w.
Proof.
  rewrite run_read32Lo.
  destruct (peek mem p) eqn:E0; [|discriminate].
  destruct (peek mem (p + 1)) eqn:E1; [|discriminate].
  destruct (peek mem (p + 2)) eqn:E2; [|discriminate].
  destruct (peek mem (p + 3)) eqn:E3; [|discriminate].
  intros H; injection H as <- <-.
  apply peek_Some_bounds in E0, E3. unfold in_bounds. repeat split; lia.
Qed.

Lemma read32Hi_not_Exited mem p w c w' : run mem (read32Hi p) w <> Exited c w'.
Proof.
  rewrite run_read32Hi.
  destruct (peek mem p); [|discriminate]. destruct (peek mem (p + 1)); [|discriminate].
  destruct (peek mem (p + 2)); [|discriminate]. destruct (peek mem (p + 3)); discriminate.
Qed.

Lemma read32Lo_not_Exited mem p w c w' : run mem (read32Lo p) w <> Exited c w'.
Proof.
  rewrite run_read32Lo.
  destruct (peek mem p); [|discriminate]. destruct (peek mem (p + 1)); [|discriminate].
  destruct (peek mem (p + 2)); [|discriminate]. destruct (peek mem (p + 3)); discriminate.
Qed.

(** ** Diagnostics and exit codes *)

Lemma tidy_bind ok {A B : Type} (m : prog A) (f : A -> prog B) :
  tidy ok m -> (forall a, tidy ok (f a)) -> tidy ok (bind m f).
Proof.
  induction m as [A a|A c|A off k IH|A s k IH|A s k IH|A value body IHb k IH];
    intros Hm Hf; cbn [bind tidy] in *; auto.
  - destruct Hm as [Hs (c & -> & Hc)]. split; [exact Hs|]. exists c. split; [reflexivity|exact Hc].
  - destruct Hm as [Hb Hk]. split; auto.
Qed.

Lemma tidy_weaken {A : Type} (p : prog A) : tidy false p -> tidy true p.
Proof.
  induction p as [A a|A c|A off k IH|A s k IH|A s k IH|A value body IHb k IH];
    cbn [tidy]; auto.
  - intros [_ H]; discriminate.
  - intros [Hb Hk]. split; auto.
Qed.


Lemma scan_stderr ok {A : Type} (body : byte -> world -> outcome unit)
    (k : world -> outcome A) :
  (forall b w, stderr_effect ok w (body b w)) ->
  (forall w, stderr_effect ok w (k w)) ->
  forall rest cursor w, stderr_effect ok w (scan body k rest cursor w).
Proof.
  intros Hb Hk. induction rest as [|b rest IH]; intros cursor w; cbn [scan].
  - reflexivity.
  - destruct (u8 b =? 0).
    + apply (Hk (log_read cursor w)).
    + specialize (Hb b (log_read cursor w)).
      destruct (body b (log_read cursor w)) as [[] w'|c w'|o w']; cbn in Hb |- *; auto.
      specialize (IH (cursor + 1) w').
      destruct (scan body k rest (cursor + 1) w'); cbn in IH |- *; rewrite <- Hb; exact IH.
Qed.

Lemma tidy_run ok mem {A : Type} (p : prog A) w :
  tidy ok p -> stderr_effect ok w (run mem p w).
Proof.
  revert w.
  induction p as [A a|A c|A off k IH|A s k IH|A s k IH|A value body IHb k IH];
    intros w Hp; cbn [tidy run] in *.
  - reflexivity.
  - left. destruct Hp; auto.
  - destruct (peek mem off); [|reflexivity]. apply (IH b (log_read off w)), Hp.
  - apply (IH (put_out s w)), Hp.
  - destruct Hp as [Hs (c & -> & Hc)]. right. split; [exact Hc|]. exists s. split; auto.
  - destruct Hp as [Hb Hk]. apply scan_stderr; auto.
Qed.

Lemma app_nonempty_r {T : Type} (l1 l2 : list T) : l2 <> [] -> l1 ++ l2 <> [].
Proof. destruct l1; simpl; [auto|discriminate]. Qed.

Lemma line_nonempty s : line s <> [].
Proof. apply app_nonempty_r. discriminate. Qed.

Lemma cookie_diagnostic_nonempty c p s : cookie_diagnostic c p s <> [].
Proof. unfold cookie_diagnostic. do 4 apply app_nonempty_r. apply line_nonempty. Qed.

Lemma page_diagnostic_nonempty b p s : page_diagnostic b p s <> [].
Proof. unfold page_diagnostic. do 2 apply app_nonempty_r. apply line_nonempty. Qed.

Create HintDb tidy.
#[local] Hint Resolve line_nonempty cookie_diagnostic_nonempty page_diagnostic_nonempty : tidy.

Ltac tidy_fail :=
  cbn [bind fprintf_stderr tidy];
  split; [auto with tidy|eexists; split; [reflexivity|discriminate]].

Ltac tidy_step :=
  match goal with
  | |- tidy _ (bind (fprintf_stderr _) _) => tidy_fail
  | |- tidy _ (bind _ _) => apply tidy_bind; [|intros]
  | |- tidy _ (match ?x with pair _ _ => _ end) => destruct x
  | |- tidy _ (if ?c then _ else _) => destruct c
  | |- tidy _ (Ret _) => exact I
  | |- tidy _ _ => solve [auto with tidy]
  end.

Ltac tidy_tac := repeat tidy_step.

Lemma tidy_load ok p : tidy ok (load p).
Proof. intros b; exact I. Qed.

Lemma tidy_putchar ok c : tidy ok (putchar c).
Proof. exact I. Qed.

Lemma tidy_printf ok s : tidy ok (printf s).
Proof. exact I. Qed.
#[local] Hint Resolve tidy_load tidy_putchar tidy_printf : tidy.

Lemma tidy_memcmp ok s2 : forall s1, tidy ok (memcmp s1 s2).
Proof. induction s2 as [|c s2 IH]; intros s1; cbn [memcmp]; tidy_tac. Qed.
#[local] Hint Resolve tidy_memcmp : tidy.

Lemma tidy_read32Hi ok p : tidy ok (read32Hi p).
Proof. unfold read32Hi. cbn [read32Hi_loop]. tidy_tac. Qed.

Lemma tidy_read32Lo ok p : tidy ok (read32Lo p).
Proof. unfold read32Lo. cbn [read32Lo_loop]. tidy_tac. Qed.

Lemma tidy_read64Lo ok p : tidy ok (read64Lo p).
Proof. unfold read64Lo. cbn [read64Lo_loop]. tidy_tac. Qed.

Lemma tidy_readDouble ok p : tidy ok (readDouble p).
Proof. apply tidy_read64Lo. Qed.
#[local] Hint Resolve tidy_read32Hi tidy_read32Lo tidy_read64Lo tidy_readDouble : tidy.

Lemma tidy_emitJsonStringChar ok b : tidy ok (emitJsonStringChar b).
Proof.
  unfold emitJsonStringChar, emitJsonCharEscapedPretty, emitJsonCharEscapedUgly.
  destruct b; tidy_tac.
Qed.
#[local] Hint Resolve tidy_emitJsonStringChar : tidy.

Lemma tidy_forLiteral ok s : tidy ok (forLiteral emitJsonStringChar s).
Proof. induction s as [|b s IH]; cbn [forLiteral]; tidy_tac. Qed.
#[local] Hint Resolve tidy_forLiteral : tidy.

Lemma tidy_emitJsonString ok value : tidy ok (emitJsonString value).
Proof.
  unfold emitJsonString. tidy_tac. destruct value; tidy_tac.
  cbn [tidy]. split; [auto with tidy|exact I].
Qed.
#[local] Hint Resolve tidy_emitJsonString : tidy.

Lemma tidy_emitJsonOptional ok present name value :
  tidy ok (emitJsonOptionalSeparatedNamedValueString present name value).
Proof.
  unfold emitJsonOptionalSeparatedNamedValueString, emitJsonValueSeparator,
    emitJsonNameSeparator. tidy_tac.
Qed.
#[local] Hint Resolve tidy_emitJsonOptional : tidy.

Lemma tidy_emitCookieObject ok cookieBase h : tidy ok (emitCookieObject cookieBase h).
Proof.
  unfold emitCookieObject, emitJsonNamedValueInt, emitJsonSeparatedNamedValueInt,
    emitJsonSeparatedNamedValueDouble, emitJsonNamedValueInt, emitJsonBeginObject,
    emitJsonEndObject, emitJsonValueSeparator, emitJsonNameSeparator, emitJsonNumberInt,
    emitJsonNumberDouble.
  tidy_tac.
Qed.
#[local] Hint Resolve tidy_emitCookieObject : tidy.

Lemma tidy_checkCookie ok pageEnd pageIdx cookieIdx cookieBase h first :
  tidy ok (checkCookie pageEnd pageIdx cookieIdx cookieBase h first).
Proof. unfold checkCookie, emitJsonValueSeparator. tidy_tac. Qed.

Lemma tidy_readCookieHeader ok cookieCursor : tidy ok (readCookieHeader cookieCursor).
Proof. unfold readCookieHeader. tidy_tac. Qed.
#[local] Hint Resolve tidy_checkCookie tidy_readCookieHeader : tidy.

Lemma tidy_processCookie ok length pageBase pageEnd pageIdx cookieIdx cookieOffsetBase first :
  tidy ok (processCookie length pageBase pageEnd pageIdx cookieIdx cookieOffsetBase first).
Proof. unfold processCookie. tidy_tac. Qed.
#[local] Hint Resolve tidy_processCookie : tidy.

Lemma tidy_cookieLoop ok length pageBase pageEnd pageIdx n :
  forall cookieIdx cookieOffsetBase first,
    tidy ok (cookieLoop length pageBase pageEnd pageIdx n cookieIdx cookieOffsetBase first).
Proof. induction n as [|n IH]; intros; cbn [cookieLoop]; tidy_tac. Qed.
#[local] Hint Resolve tidy_cookieLoop : tidy.

Lemma tidy_checksumLoop ok fuel :
  forall pageCursor pageEnd checkSum, tidy ok (checksumLoop fuel pageCursor pageEnd checkSum).
Proof. induction fuel as [|n IH]; intros; cbn [checksumLoop]; tidy_tac. Qed.
#[local] Hint Resolve tidy_checksumLoop : tidy.

Lemma tidy_processPage ok length pageIdx st : tidy ok (processPage length pageIdx st).
Proof. unfold processPage. tidy_tac. Qed.
#[local] Hint Resolve tidy_processPage : tidy.

Lemma tidy_pageLoop ok length n : forall pageIdx st, tidy ok (pageLoop length n pageIdx st).
Proof. induction n as [|n IH]; intros; cbn [pageLoop]; tidy_tac. Qed.
#[local] Hint Resolve tidy_pageLoop : tidy.

Lemma tidy_fileHeader ok length : tidy ok (fileHeader length).
Proof.
  unfold fileHeader, emitJsonBeginObject, emitJsonNameSeparator, emitJsonBeginArray.
  tidy_tac.
Qed.
#[local] Hint Resolve tidy_fileHeader : tidy.

Lemma tidy_fileTrailer length pageBase checkSum :
  tidy true (fileTrailer length pageBase checkSum).
Proof.
  unfold fileTrailer, emitJsonEndArray, emitJsonEndObject. tidy_tac.
  cbn [bind putchar tidy]. auto.
Qed.

Lemma tidy_printCookiesFromMmap length : tidy true (printCookiesFromMmap length).
Proof.
  unfold printCookiesFromMmap. tidy_tac. apply tidy_fileTrailer.
Qed.

(** ** The remaining readers *)

Lemma tidy_false_not_OK mem {A : Type} (p : prog A) w w' :
  tidy false p -> run mem p w <> Exited EXIT_CODE_OK w'.
Proof.
  intros Hp E. pose proof (tidy_run false mem p w Hp) as H. rewrite E in H.
  cbn in H. destruct H as [(_ & H & _)|(H & _)]; [discriminate|contradiction].
Qed.

Lemma run_memcmp mem s2 : forall s1 w,
  in_bounds mem s1 (Z.of_nat (List.length s2)) ->
  run mem (memcmp s1 s2) w =
  Done (memcmp_value mem s1 s2) (log_reads (span s1 (List.length s2)) w).
Proof.
  induction s2 as [|c s2 IH]; intros s1 w [H0 H1].
  - cbn. rewrite log_reads_nil. reflexivity.
  - cbn [memcmp memcmp_value List.length span]. cbn [List.length] in H1.
    rewrite run_bind. cbn [run load].
    destruct (peek_in_bounds mem s1) as [b E]; [lia|]. rewrite E. cbn [andThen].
    rewrite run_bind, IH by (split; lia). cbn [andThen run].
    norm_log. rewrite (peek_byteAt _ _ _ E). reflexivity.
Qed.

Lemma memcmp_Done mem s2 : forall s1 w c w',
  run mem (memcmp s1 s2) w = Done c w' ->
  (s2 <> [] -> in_bounds mem s1 (Z.of_nat (List.length s2))) /\
  c = memcmp_value mem s1 s2 /\ w' = log_reads (span s1 (List.length s2)) w.
Proof.
  induction s2 as [|c0 s2 IH]; intros s1 w c w' H.
  - cbn in H. injection H as <- <-. rewrite log_reads_nil.
    split; [intros Hn; congruence|split; reflexivity].
  - cbn [memcmp] in H. rewrite run_bind in H. cbn [run load] in H.
    destruct (peek mem s1) as [b|] eqn:E; [|discriminate]. cbn [andThen] in H.
    rewrite run_bind in H.
    destruct (run mem (memcmp (s1 + 1) s2) (log_read s1 w)) as [r w1| |] eqn:E1;
      try discriminate.
    cbn [andThen run] in H. injection H as <- <-.
    apply IH in E1. destruct E1 as (Hb & -> & ->).
    pose proof (peek_Some_bounds _ _ _ E) as Hs1.
    split; [|split].
    + intros _. cbn [List.length]. destruct s2 as [|c1 s2].
      * split; cbn; lia.
      * destruct Hb as [? ?]; [discriminate|]. cbn [List.length] in *. split; lia.
    + cbn [memcmp_value]. rewrite (peek_byteAt _ _ _ E). reflexivity.
    + cbn [List.length span]. norm_log. reflexivity.
Qed.

Lemma wrap64_small x : 0 <= x < 2 ^ 64 -> wrap64 x = x.
Proof. intros H. apply Z.mod_small, H. Qed.

Lemma run_read64Lo mem p w :
  in_bounds mem p 8 ->
  run mem (read64Lo p) w = Done (get64Lo mem p, p + 8) (log_reads (span p 8) w).
Proof.
  intros [H0 H1]. unfold read64Lo, get64Lo, get32Lo, byteAt.
  cbn [run bind read64Lo_loop load span].
  replace (p + 0) with p by lia. replace (p + (0 + 1)) with (p + 1) by lia.
  replace (p + (0 + 1 + 1)) with (p + 2) by lia.
  replace (p + (0 + 1 + 1 + 1)) with (p + 3) by lia.
  replace (p + (0 + 1 + 1 + 1 + 1)) with (p + 4) by lia.
  replace (p + (0 + 1 + 1 + 1 + 1 + 1)) with (p + 5) by lia.
  replace (p + (0 + 1 + 1 + 1 + 1 + 1 + 1)) with (p + 6) by lia.
  replace (p + (0 + 1 + 1 + 1 + 1 + 1 + 1 + 1)) with (p + 7) by lia.
  replace (p + 4 + 1) with (p + 5) by lia. replace (p + 4 + 2) with (p + 6) by lia.
  replace (p + 4 + 3) with (p + 7) by lia.
  replace (p + 1 + 1) with (p + 2) by lia. replace (p + 2 + 1) with (p + 3) by lia.
  replace (p + 3 + 1) with (p + 4) by lia. replace (p + 5 + 1) with (p + 6) by lia.
  replace (p + 6 + 1) with (p + 7) by lia.
  destruct (peek_in_bounds mem p) as [b0 E0]; [lia|].
  destruct (peek_in_bounds mem (p + 1)) as [b1 E1]; [lia|].
  destruct (peek_in_bounds mem (p + 2)) as [b2 E2]; [lia|].
  destruct (peek_in_bounds mem (p + 3)) as [b3 E3]; [lia|].
  destruct (peek_in_bounds mem (p + 4)) as [b4 E4]; [lia|].
  destruct (peek_in_bounds mem (p + 5)) as [b5 E5]; [lia|].
  destruct (peek_in_bounds mem (p + 6)) as [b6 E6]; [lia|].
  destruct (peek_in_bounds mem (p + 7)) as [b7 E7]; [lia|].
  rewrite E0, E1, E2, E3, E4, E5, E6, E7.
  norm_log. f_equal; [f_equal|unfold log_reads; repeat (f_equal; try lia)].
  pose proof (u8_range b0). pose proof (u8_range b1). pose proof (u8_range b2).
  pose proof (u8_range b3). pose proof (u8_range b4). pose proof (u8_range b5).
  pose proof (u8_range b6). pose proof (u8_range b7).
  rewrite !Z.shiftl_mul_pow2 by lia.
  change (0 * 8) with 0. change ((0 + 1) * 8) with 8. change ((0 + 1 + 1) * 8) with 16.
  change ((0 + 1 + 1 + 1) * 8) with 24. change ((0 + 1 + 1 + 1 + 1) * 8) with 32.
  change ((0 + 1 + 1 + 1 + 1 + 1) * 8) with 40.
  change ((0 + 1 + 1 + 1 + 1 + 1 + 1) * 8) with 48.
  change ((0 + 1 + 1 + 1 + 1 + 1 + 1 + 1) * 8) with 56.
  repeat match goal with
         | |- context [wrap64 ?x] => rewrite (wrap64_small x) by lia
         end.
  lia.
Qed.

Lemma read64Lo_Done mem p w a w' :
  run mem (read64Lo p) w = Done a w' ->
  in_bounds mem p 8 /\ a = (get64Lo mem p, p + 8) /\ w' = log_reads (span p 8) w.
Proof.
  intros H.
  assert (Hb : in_bounds mem p 8).
  { unfold read64Lo in H. cbn [run bind read64Lo_loop load] in H.
    destruct (peek mem (p + 0)) eqn:E0; [|discriminate].
    destruct (peek mem (p + (0 + 1))); [|discriminate].
    destruct (peek mem (p + (0 + 1 + 1))); [|discriminate].
    destruct (peek mem (p + (0 + 1 + 1 + 1))); [|discriminate].
    destruct (peek mem (p + (0 + 1 + 1 + 1 + 1))); [|discriminate].
    destruct (peek mem (p + (0 + 1 + 1 + 1 + 1 + 1))); [|discriminate].
    destruct (peek mem (p + (0 + 1 + 1 + 1 + 1 + 1 + 1))); [|discriminate].
    destruct (peek mem (p + (0 + 1 + 1 + 1 + 1 + 1 + 1 + 1))) eqn:E7; [|discriminate].
    apply peek_Some_bounds in E0, E7. split; lia. }
  rewrite run_read64Lo in H by exact Hb. injection H as <- <-. auto.
Qed.

Lemma span_app p n m : span p (n + m) = span p n ++ span (p + Z.of_nat n) m.
Proof.
  revert p; induction n as [|n IH]; intros p.
  - cbn. f_equal. lia.
  - cbn [Nat.add span app]. rewrite IH. f_equal. f_equal. f_equal. lia.
Qed.

Lemma span4 p : [p; p + 1; p + 2; p + 3] = span p 4.
Proof. cbn. repeat (f_equal; try lia). Qed.

Lemma In_span off p n : In off (span p n) <-> p <= off < p + Z.of_nat n.
Proof.
  revert p; induction n as [|n IH]; intros p; cbn [span In].
  - lia.
  - rewrite IH. lia.
Qed.

Lemma in_bounds_sub mem p n q m :
  in_bounds mem p n -> p <= q -> q + m <= p + n -> in_bounds mem q m.
Proof. unfold in_bounds. lia. Qed.

Lemma run_readCookieHeader mem cb w :
  in_bounds mem cb 56 ->
  run mem (readCookieHeader cb) w = Done (headerAt mem cb) (log_reads (span cb 56) w).
Proof.
  intros Hb. unfold readCookieHeader, readDouble.
  repeat (rewrite run_bind;
          first [rewrite read32Lo_ok by (eapply in_bounds_sub; [exact Hb|lia|lia])
                |rewrite run_read64Lo by (eapply in_bounds_sub; [exact Hb|lia|lia])];
          cbn [andThen]).
  cbn [run]. rewrite !span4, !log_reads_app.
  unfold headerAt. f_equal.
  - repeat (f_equal; try lia).
  - f_equal.
    change 56%nat with (4 + (4 + (4 + (4 + (4 + (4 + (4 + (4 + (4 + (4 + (8 + 8)))))))))))%nat.
    rewrite !span_app. repeat (f_equal; try lia).
Qed.

Lemma readCookieHeader_Done mem cb w h w' :
  run mem (readCookieHeader cb) w = Done h w' ->
  in_bounds mem cb 56 /\ h = headerAt mem cb /\ w' = log_reads (span cb 56) w.
Proof.
  intros H.
  assert (Hb : in_bounds mem cb 56).
  { unfold readCookieHeader, readDouble in H.
    rewrite run_bind in H.
    destruct (run mem (read32Lo cb) w) as [a0 w0| |] eqn:E0; try discriminate.
    apply read32Lo_Done in E0. destruct E0 as (B0 & -> & ->). cbn [andThen] in H.
    do 9 (rewrite run_bind in H;
          match type of H with
          | andThen (run mem (read32Lo ?q) ?w1) _ = _ =>
              let E := fresh "E" in
              destruct (run mem (read32Lo q) w1) as [? ?| |] eqn:E; try discriminate;
              apply read32Lo_Done in E; destruct E as (_ & -> & ->); cbn [andThen] in H
          end).
    rewrite run_bind in H.
    match type of H with
    | andThen (run mem (read64Lo ?q) ?w1) _ = _ =>
        destruct (run mem (read64Lo q) w1) as [? ?| |] eqn:E1; try discriminate;
        apply read64Lo_Done in E1; destruct E1 as (_ & -> & ->); cbn [andThen] in H
    end.
    rewrite run_bind in H.
    match type of H with
    | andThen (run mem (read64Lo ?q) ?w1) _ = _ =>
        destruct (run mem (read64Lo q) w1) as [? ?| |] eqn:E2; try discriminate;
        apply read64Lo_Done in E2; destruct E2 as (B2 & -> & ->)
    end.
    destruct B0 as [? ?], B2 as [? ?]. split; lia. }
  rewrite run_readCookieHeader in H by exact Hb.
  split; [exact Hb|]. split; congruence.
Qed.

(** ** Output-only programs *)

Lemma put_out_nil w : put_out [] w = w.
Proof. unfold put_out. rewrite app_nil_r. apply world_eta. Qed.

Lemma put_out_app s1 s2 w : put_out s2 (put_out s1 w) = put_out (s1 ++ s2) w.
Proof. unfold put_out. cbn. rewrite app_assoc. reflexivity. Qed.

Lemma run_out_only mem {A : Type} (p : prog A) a w :
  out_only p = Some a -> run mem p w = Done a (put_out (out_text p) w).
Proof.
  revert w.
  induction p as [A a0|A c|A off k IH|A s k IH|A s k IH|A value body IHb k IH];
    intros w H; cbn [out_only out_text run] in *; try discriminate.
  - injection H as ->. rewrite put_out_nil. reflexivity.
  - rewrite (IH _ _ H), put_out_app. reflexivity.
Qed.

(** ** The header and the trailer of the file, as equations *)

Lemma run_fileHeader mem w :
  run mem (fileHeader (file_length mem)) w =
  if file_length mem <? 8 then
    Exited EXIT_CODE_BAD_EOF
      (put_err (line "File too short, when checking magic and page count") w)
  else if negb (memcmp_value mem 0 BINARY_COOKIE_MAGIC =? 0) then
    Exited EXIT_CODE_BAD_MAGIC
      (put_err (line "Bad magic - is this a cookie file?") (log_reads (span 0 4) w))
  else
    let pageCount := get32Hi mem 4 in
    if file_length mem <? 8 + pageCount * 4 then
      Exited EXIT_CODE_BAD_EOF
        (put_err (line "File too short, when checking page sizes in header")
           (log_reads (span 0 8) w))
    else
      Done (pageCount, mkPageState true 0 8 (8 + pageCount * 4))
        (put_out opening (log_reads (span 0 8) w)).
Proof.
  unfold fileHeader. change (4 + 4) with 8.
  destruct (Z.ltb_spec (file_length mem) 8) as [Hlt|Hge]; [reflexivity|].
  rewrite run_bind, run_memcmp by (split; cbn; lia). cbn [andThen].
  change (List.length BINARY_COOKIE_MAGIC) with 4%nat.
  destruct (negb (memcmp_value mem 0 BINARY_COOKIE_MAGIC =? 0)); [reflexivity|].
  rewrite run_bind. change (0 + 4) with 4.
  rewrite read32Hi_ok by (split; lia). cbn [andThen].
  change (4 + 4) with 8. rewrite span4, log_reads_app.
  change (span 0 4 ++ span 4 4) with (span 0 8).
  cbv zeta.
  destruct (file_length mem <? 8 + get32Hi mem 4 * 4); [reflexivity|].
  erewrite run_out_only by reflexivity. reflexivity.
Qed.

Lemma run_fileTrailer mem pageBase checkSum w :
  0 <= pageBase ->
  run mem (fileTrailer (file_length mem) pageBase checkSum) w =
  if file_length mem <? pageBase + 12 then
    Exited EXIT_CODE_BAD_EOF
      (put_err (line "File too short, for checksum, footer, and plist size") w)
  else if negb (get32Hi mem pageBase =? checkSum) then
    Exited EXIT_CODE_BAD_PARSE
      (put_err (line "Bad file checksum") (log_reads (span pageBase 4) w))
  else if negb (memcmp_value mem (pageBase + 4) BINARY_COOKIE_FOOTER =? 0) then
    Exited EXIT_CODE_BAD_MAGIC
      (put_err (line "Bad file footer - is this a cookie file?")
         (log_reads (span pageBase 8) w))
  else if negb (file_length mem =? pageBase + 12 + get32Hi mem (pageBase + 8)) then
    Exited EXIT_CODE_BAD_PARSE
      (put_err (line "File length and plist data length mismatch")
         (log_reads (span pageBase 12) w))
  else
    Exited EXIT_CODE_OK (put_out closing (log_reads (span pageBase 12) w)).
Proof.
  intros Hpos. unfold fileTrailer.
  replace (pageBase + 4 + 4 + 4) with (pageBase + 12) by lia.
  destruct (Z.ltb_spec (file_length mem) (pageBase + 12)) as [Hlt|Hge]; [reflexivity|].
  rewrite run_bind, read32Hi_ok by (split; lia). cbn [andThen]. rewrite span4.
  destruct (negb (get32Hi mem pageBase =? checkSum)); [reflexivity|].
  rewrite run_bind, run_memcmp by (split; cbn; lia). cbn [andThen].
  change (List.length BINARY_COOKIE_FOOTER) with 4%nat. rewrite log_reads_app.
  replace (span pageBase 4 ++ span (pageBase + 4) 4) with (span pageBase 8)
    by (change 8%nat with (4 + 4)%nat; rewrite span_app; reflexivity).
  destruct (negb (memcmp_value mem (pageBase + 4) BINARY_COOKIE_FOOTER =? 0)); [reflexivity|].
  rewrite run_bind, read32Hi_ok by (split; lia). cbn [andThen]. rewrite span4, log_reads_app.
  replace (span pageBase 8 ++ span (pageBase + 4 + 4) 4) with (span pageBase 12)
    by (change 12%nat with (8 + 4)%nat; rewrite span_app; repeat (f_equal; try lia)).
  replace (pageBase + 4 + 4 + 4 + get32Hi mem (pageBase + 4 + 4))
    with (pageBase + 12 + get32Hi mem (pageBase + 8))
    by (replace (pageBase + 4 + 4) with (pageBase + 8) by lia; lia).
  destruct (negb (file_length mem =? pageBase + 12 + get32Hi mem (pageBase + 8)));
    [reflexivity|].
  unfold emitJsonEndArray, emitJsonEndObject. cbn [run bind putchar].
  rewrite put_out_app. reflexivity.
Qed.

(** ** One cookie and one page, as equations *)

Lemma run_processCookie mem pageBase pageEnd pageIdx cookieIdx cookieOffsetBase first w :
  in_bounds mem cookieOffsetBase 4 -> 0 <= pageBase ->
  run mem (processCookie (file_length mem) pageBase pageEnd pageIdx cookieIdx
             cookieOffsetBase first) w =
  let cookieBase := pageBase + get32Lo mem cookieOffsetBase in
  let w1 := log_reads (span cookieOffsetBase 4) w in
  if file_length mem <? cookieBase + 56 then
    Exited EXIT_CODE_BAD_PARSE
      (put_err (cookie_diagnostic cookieIdx pageIdx " too short for cookie header") w1)
  else
    andThen
      (run mem (checkCookie pageEnd pageIdx cookieIdx cookieBase (headerAt mem cookieBase)
                  first) (log_reads (span cookieBase 56) w1))
      (fun first' w' => Done (cookieOffsetBase + 4, first') w').
Proof.
  intros Hb Hpos. unfold processCookie.
  rewrite run_bind, read32Lo_ok by exact Hb. cbn [andThen]. rewrite span4.
  replace (pageBase + get32Lo mem cookieOffsetBase + 10 * 4 + 2 * 8)
    with (pageBase + get32Lo mem cookieOffsetBase + 56) by lia.
  cbv zeta.
  destruct (Z.ltb_spec (file_length mem) (pageBase + get32Lo mem cookieOffsetBase + 56))
    as [Hlt|Hge]; [reflexivity|].
  pose proof (get32Lo_range mem cookieOffsetBase).
  rewrite run_bind, run_readCookieHeader by (split; lia). cbn [andThen].
  rewrite run_bind. reflexivity.
Qed.

Lemma run_processPage mem pageIdx st w :
  in_bounds mem (pageSizeBase st) 4 -> 0 <= pageBase st ->
  run mem (processPage (file_length mem) pageIdx st) w =
  let pageSize := get32Hi mem (pageSizeBase st) in
  let pb := pageBase st in
  let pageEnd := pb + pageSize in
  let w1 := log_reads (span (pageSizeBase st) 4) w in
  if file_length mem <? pageEnd then
    Exited EXIT_CODE_BAD_EOF
      (put_err (page_diagnostic "File too short, incomplete page " pageIdx "") w1)
  else if pageSize <? 8 then
    Exited EXIT_CODE_BAD_PARSE
      (put_err (page_diagnostic "Page " pageIdx " too short for page tag and cookie count")
         w1)
  else if negb (memcmp_value mem pb COOKIE_PAGE_TAG =? 0) then
    Exited EXIT_CODE_BAD_MAGIC
      (put_err (line "Bad page tag - is this a cookie file?") (log_reads (span pb 4) w1))
  else
    let cookieCount := get32Lo mem (pb + 4) in
    let headerEnd := pb + 8 + cookieCount * 4 in
    if pageEnd <? headerEnd + 4 then
      Exited EXIT_CODE_BAD_PARSE
        (put_err (page_diagnostic "Page " pageIdx " too short for cookie offsets")
           (log_reads (span pb 8) w1))
    else if negb (memcmp_value mem headerEnd COOKIE_PAGE_HEADER_END =? 0) then
      Exited EXIT_CODE_BAD_MAGIC
        (put_err (line "Bad page header end - is this a cookie file?")
           (log_reads (span headerEnd 4) (log_reads (span pb 8) w1)))
    else
      andThen
        (run mem (cookieLoop (file_length mem) pb pageEnd pageIdx (Z.to_nat cookieCount) 0
                    (pb + 8) (first st))
           (log_reads (span headerEnd 4) (log_reads (span pb 8) w1)))
        (fun r w5 =>
           andThen
             (run mem (checksumLoop (Z.to_nat (pageEnd - pb)) pb pageEnd (checkSum st)) w5)
             (fun cs w6 =>
                Done (mkPageState (snd r) cs (pageSizeBase st + 4) pageEnd) w6)).
Proof.
  intros Hb Hpos. unfold processPage.
  rewrite run_bind, read32Hi_ok by exact Hb. cbn [andThen]. rewrite span4.
  cbv zeta. change (4 + 4) with 8.
  pose proof (get32Hi_range mem (pageSizeBase st)) as Hsz.
  destruct (Z.ltb_spec (file_length mem) (pageBase st + get32Hi mem (pageSizeBase st)))
    as [Hlt|Hge]; [reflexivity|].
  destruct (Z.ltb_spec (get32Hi mem (pageSizeBase st)) 8) as [Hlt8|Hge8]; [reflexivity|].
  rewrite run_bind, run_memcmp by (split; cbn; lia). cbn [andThen].
  change (List.length COOKIE_PAGE_TAG) with 4%nat.
  destruct (negb (memcmp_value mem (pageBase st) COOKIE_PAGE_TAG =? 0)); [reflexivity|].
  rewrite run_bind, read32Lo_ok by (split; lia). cbn [andThen]. rewrite span4, log_reads_app.
  replace (span (pageBase st) 4 ++ span (pageBase st + 4) 4) with (span (pageBase st) 8)
    by (change 8%nat with (4 + 4)%nat; rewrite span_app; reflexivity).
  replace (pageBase st + 4 + 4) with (pageBase st + 8) by lia.
  pose proof (get32Lo_range mem (pageBase st + 4)) as Hcc.
  destruct (Z.ltb_spec (pageBase st + get32Hi mem (pageSizeBase st))
              (pageBase st + 8 + get32Lo mem (pageBase st + 4) * 4 + 4)) as [Hlt2|Hge2];
    [reflexivity|].
  rewrite run_bind, run_memcmp by (split; cbn; lia). cbn [andThen].
  change (List.length COOKIE_PAGE_HEADER_END) with 4%nat.
  destruct (negb (memcmp_value mem (pageBase st + 8 + get32Lo mem (pageBase st + 4) * 4)
                    COOKIE_PAGE_HEADER_END =? 0)); [reflexivity|].
  rewrite run_bind.
  match goal with
  | |- andThen ?r _ = andThen ?r _ => destruct r as [[c f] w5| |]; cbn [andThen]; auto
  end.
  rewrite run_bind.
  match goal with
  | |- andThen ?r _ = andThen ?r _ => destruct r as [cs w6| |]; cbn [andThen snd run]; auto
  end.
Qed.

(** ** The checksum loop *)

Lemma lanesOf_nonpos d : d <= 0 -> lanesOf d = O.
Proof.
  intros H. unfold lanesOf.
  assert ((d + 3) / 4 < 1) by (apply Z.div_lt_upper_bound; lia). lia.
Qed.

Lemma lanesOf_pos d : 0 < d -> lanesOf d = S (lanesOf (d - 4)).
Proof.
  intros H. unfold lanesOf.
  replace (d + 3) with ((d - 4 + 3) + 1 * 4) by lia.
  rewrite Z.div_add by lia.
  assert (0 <= (d - 4 + 3) / 4) by (apply Z.div_pos; lia). lia.
Qed.

Lemma wrap32_range z : 0 <= wrap32 z < 2 ^ 32.
Proof. unfold wrap32. apply Z.mod_pos_bound. lia. Qed.

Lemma wrap32_small z : 0 <= z < 2 ^ 32 -> wrap32 z = z.
Proof. intros H. apply Z.mod_small, H. Qed.

Lemma wrap32_add_l a b : wrap32 (wrap32 a + b) = wrap32 (a + b).
Proof. unfold wrap32. apply Zplus_mod_idemp_l. Qed.

(** The loop of lines 303-306 never runs out of fuel: with at least
    [pageEnd - pageCursor] units it adds every lane of the page. *)
Lemma checksumLoop_fuel mem fuel : forall pageCursor pageEnd checkSum w,
  pageEnd - pageCursor <= Z.of_nat fuel ->
  0 <= pageCursor -> pageEnd <= file_length mem ->
  0 <= checkSum < 2 ^ 32 ->
  run mem (checksumLoop fuel pageCursor pageEnd checkSum) w =
  Done (wrap32 (checkSum + laneSum mem pageCursor (lanesOf (pageEnd - pageCursor))))
    (log_reads (laneOffsets pageCursor (lanesOf (pageEnd - pageCursor))) w).
Proof.
  induction fuel as [|fuel IH]; intros cur pend acc w Hfuel Hpos Hend Hacc.
  - cbn [checksumLoop run]. rewrite lanesOf_nonpos by lia. cbn [laneSum laneOffsets].
    rewrite log_reads_nil, Z.add_0_r, wrap32_small by exact Hacc. reflexivity.
  - cbn [checksumLoop]. destruct (Z.ltb_spec cur pend) as [Hlt|Hge].
    + rewrite run_bind. cbn [run load].
      destruct (peek_in_bounds mem cur) as [b E]; [lia|]. rewrite E. cbn [andThen].
      rewrite IH by (try apply wrap32_range; lia).
      rewrite (lanesOf_pos (pend - cur)) by lia. cbn [laneSum laneOffsets].
      replace (pend - cur - 4) with (pend - (cur + 4)) by lia.
      rewrite wrap32_add_l, (peek_byteAt _ _ _ E), Z.add_assoc.
      norm_log. reflexivity.
    + cbn [run]. rewrite lanesOf_nonpos by lia. cbn [laneSum laneOffsets].
      rewrite log_reads_nil, Z.add_0_r, wrap32_small by exact Hacc. reflexivity.
Qed.

(** ** What a completed page and a completed page loop establish *)

Lemma processPage_Done mem pageIdx st w st' w' :
  in_bounds mem (pageSizeBase st) 4 -> 0 <= pageBase st -> 0 <= checkSum st < 2 ^ 32 ->
  run mem (processPage (file_length mem) pageIdx st) w = Done st' w' ->
  let pageSize := get32Hi mem (pageSizeBase st) in
  let pb := pageBase st in
  let cookieCount := get32Lo mem (pb + 4) in
  let headerEnd := pb + 8 + cookieCount * 4 in
  8 <= pageSize /\ pb + pageSize <= file_length mem /\
  memcmp_value mem pb COOKIE_PAGE_TAG = 0 /\
  headerEnd + 4 <= pb + pageSize /\
  memcmp_value mem headerEnd COOKIE_PAGE_HEADER_END = 0 /\
  pageSizeBase st' = pageSizeBase st + 4 /\
  pageBase st' = pb + pageSize /\
  checkSum st' = wrap32 (checkSum st + laneSum mem pb (lanesOf pageSize)) /\
  exists r w5,
    run mem (cookieLoop (file_length mem) pb (pb + pageSize) pageIdx (Z.to_nat cookieCount) 0
               (pb + 8) (first st))
      (log_reads (span headerEnd 4)
         (log_reads (span pb 8) (log_reads (span (pageSizeBase st) 4) w))) = Done r w5 /\
    first st' = snd r /\
    w' = log_reads (laneOffsets pb (lanesOf pageSize)) w5.
Proof.
  intros Hb Hpos Hcs H. rewrite run_processPage in H by assumption. cbv zeta in *.
  destruct (Z.ltb_spec (file_length mem) (pageBase st + get32Hi mem (pageSizeBase st)))
    as [|Hend]; [discriminate|].
  destruct (Z.ltb_spec (get32Hi mem (pageSizeBase st)) 8) as [|Hsz]; [discriminate|].
  destruct (Z.eqb_spec (memcmp_value mem (pageBase st) COOKIE_PAGE_TAG) 0) as [Htag|];
    [|discriminate]. cbn [negb] in H.
  destruct (Z.ltb_spec (pageBase st + get32Hi mem (pageSizeBase st))
              (pageBase st + 8 + get32Lo mem (pageBase st + 4) * 4 + 4)) as [|Hhe];
    [discriminate|].
  destruct (Z.eqb_spec (memcmp_value mem (pageBase st + 8 + get32Lo mem (pageBase st + 4) * 4)
                          COOKIE_PAGE_HEADER_END) 0) as [Hterm|]; [|discriminate].
  cbn [negb] in H.
  match type of H with
  | andThen ?x _ = _ => destruct x as [r w5| |] eqn:Eloop; [|discriminate|discriminate]
  end.
  cbn [andThen] in H.
  rewrite checksumLoop_fuel in H by lia. cbn [andThen] in H.
  replace (pageBase st + get32Hi mem (pageSizeBase st) - pageBase st)
    with (get32Hi mem (pageSizeBase st)) in H by lia.
  injection H as <- <-. cbn [pageSizeBase pageBase checkSum first].
  repeat (split; [assumption || lia || reflexivity|]).
  exists r, w5. auto.
Qed.

Lemma pageCountOf_range mem : 0 <= pageCountOf mem < 2 ^ 32.
Proof. apply get32Hi_range. Qed.

Lemma pageSizeOf_range mem i : 0 <= pageSizeOf mem i < 2 ^ 32.
Proof. apply get32Hi_range. Qed.

Lemma pageStart_ge mem i : 8 + pageCountOf mem * 4 <= pageStart mem i.
Proof.
  induction i as [|i IH]; cbn [pageStart]; [lia|].
  pose proof (pageSizeOf_range mem i). lia.
Qed.

Lemma pageStart_mono mem i j : (i <= j)%nat -> pageStart mem i <= pageStart mem j.
Proof.
  induction 1 as [|j Hle IH]; [lia|]. cbn [pageStart].
  pose proof (pageSizeOf_range mem j). lia.
Qed.

Lemma at_page_step mem pageIdx i st w st' w' :
  (i < Z.to_nat (pageCountOf mem))%nat ->
  8 + pageCountOf mem * 4 <= file_length mem ->
  at_page mem i st ->
  run mem (processPage (file_length mem) pageIdx st) w = Done st' w' ->
  at_page mem (S i) st' /\ pageStart mem (S i) <= file_length mem /\
  8 <= pageSizeOf mem i.
Proof.
  intros Hi Hlen (Hpsb & Hpb & Hcs) H.
  pose proof (pageCountOf_range mem) as Hpc. pose proof (pageStart_ge mem i) as Hps.
  apply processPage_Done in H.
  - cbv zeta in H. destruct H as (Hsz & Hend & _ & _ & _ & H1 & H2 & H3 & _).
    rewrite Hpsb, Hpb in *. fold (pageSizeOf mem i) in *.
    unfold at_page. cbn [pageStart pagesSum]. rewrite H1, H2, H3, Hcs, wrap32_add_l.
    repeat split; try lia.
  - rewrite Hpsb. split; lia.
  - lia.
  - rewrite Hcs. apply wrap32_range.
Qed.

Lemma pageLoop_Done mem n : forall i pageIdx st w st' w',
  (i + n <= Z.to_nat (pageCountOf mem))%nat ->
  8 + pageCountOf mem * 4 <= file_length mem ->
  at_page mem i st -> pageStart mem i <= file_length mem ->
  run mem (pageLoop (file_length mem) n pageIdx st) w = Done st' w' ->
  at_page mem (i + n) st' /\ pageStart mem (i + n) <= file_length mem.
Proof.
  induction n as [|n IH]; intros i pageIdx st w st' w' Hin Hlen Hat Hps H.
  - cbn in H. injection H as <- <-. rewrite Nat.add_0_r. auto.
  - cbn [pageLoop] in H. rewrite run_bind in H.
    destruct (run mem (processPage (file_length mem) pageIdx st) w) as [st1 w1| |] eqn:E;
      try discriminate.
    cbn [andThen] in H.
    apply at_page_step with (i := i) in E; [|lia|assumption|assumption].
    destruct E as (Hat1 & Hps1 & _).
    replace (i + S n)%nat with (S i + n)%nat by lia.
    eapply IH; [| |exact Hat1|exact Hps1|exact H]; [lia|assumption].
Qed.

(** ** The whole decoding, taken apart *)

Lemma header_ok_run mem :
  header_ok mem = true ->
  run mem (fileHeader (file_length mem)) world0 = Done (pageCountOf mem, state0 mem) world1.
Proof.
  unfold header_ok. intros H. apply andb_prop in H. destruct H as [H H3].
  apply andb_prop in H. destruct H as [H1 H2].
  rewrite run_fileHeader. cbv zeta. fold (pageCountOf mem).
  apply negb_true_iff in H1, H3. rewrite H1, H2, H3. reflexivity.
Qed.

Lemma header_not_ok_run mem :
  header_ok mem = false ->
  exists c s l,
    run mem (fileHeader (file_length mem)) world0 = Exited c (put_err s (log_reads l world0)) /\
    c <> EXIT_CODE_OK /\ s <> [].
Proof.
  unfold header_ok. intros H. rewrite run_fileHeader. cbv zeta. fold (pageCountOf mem).
  destruct (file_length mem <? 8).
  - exists EXIT_CODE_BAD_EOF. eexists. exists []. rewrite log_reads_nil.
    split; [reflexivity|]. split; [discriminate|apply line_nonempty].
  - destruct (memcmp_value mem 0 BINARY_COOKIE_MAGIC =? 0); cbn [negb andb] in *.
    + destruct (file_length mem <? 8 + pageCountOf mem * 4); [|discriminate].
      exists EXIT_CODE_BAD_EOF. eexists. eexists.
      split; [reflexivity|]. split; [discriminate|apply line_nonempty].
    + exists EXIT_CODE_BAD_MAGIC. eexists. eexists.
      split; [reflexivity|]. split; [discriminate|apply line_nonempty].
Qed.

Lemma decode_header_ok mem :
  header_ok mem = true ->
  decode mem =
  andThen (pagesRun mem (Z.to_nat (pageCountOf mem)))
    (fun st => run mem (fileTrailer (file_length mem) (pageBase st) (checkSum st))).
Proof.
  intros H. unfold decode, printCookiesFromMmap.
  rewrite run_bind, (header_ok_run mem H). cbn [andThen]. rewrite run_bind. reflexivity.
Qed.

Lemma header_ok_bounds mem :
  header_ok mem = true -> 8 + pageCountOf mem * 4 <= file_length mem.
Proof.
  unfold header_ok. intros H. apply andb_prop in H. destruct H as [_ H].
  apply negb_true_iff in H. lia.
Qed.

Lemma at_page_state0 mem : at_page mem 0 (state0 mem).
Proof. repeat split. Qed.

Lemma pagesRun_Done mem n st w :
  header_ok mem = true -> (n <= Z.to_nat (pageCountOf mem))%nat ->
  pagesRun mem n = Done st w ->
  at_page mem n st /\ pageStart mem n <= file_length mem.
Proof.
  intros Hok Hn H. pose proof (header_ok_bounds mem Hok) as Hb.
  eapply (pageLoop_Done mem n 0); [lia|exact Hb|apply at_page_state0|cbn [pageStart]; lia|exact H].
Qed.

Lemma decode_header_not_ok mem :
  header_ok mem = false ->
  exists c s l,
    decode mem = Exited c (put_err s (log_reads l world0)) /\ c <> EXIT_CODE_OK /\ s <> [].
Proof.
  intros H. destruct (header_not_ok_run mem H) as (c & s & l & E & Hc & Hs).
  exists c, s, l. unfold decode, printCookiesFromMmap. rewrite run_bind, E. auto.
Qed.

(** A successful decoding passed the header, completed every page and passed
    the four checks of the trailer. *)
Lemma decode_OK mem w :
  decode mem = Exited EXIT_CODE_OK w ->
  header_ok mem = true /\
  exists st w1,
    pagesRun mem (Z.to_nat (pageCountOf mem)) = Done st w1 /\
    at_page mem (Z.to_nat (pageCountOf mem)) st /\
    pagesEnd mem + 12 <= file_length mem /\
    savedChecksum mem = checkSum st /\
    memcmp_value mem (pagesEnd mem + 4) BINARY_COOKIE_FOOTER = 0 /\
    file_length mem = pagesEnd mem + 12 + get32Hi mem (pagesEnd mem + 8) /\
    w = put_out closing (log_reads (span (pagesEnd mem) 12) w1).
Proof.
  intros H. destruct (header_ok mem) eqn:Hok.
  - split; [reflexivity|]. rewrite decode_header_ok in H by exact Hok.
    destruct (pagesRun mem (Z.to_nat (pageCountOf mem))) as [st w1|c w1|o w1] eqn:E.
    + cbn [andThen] in H. exists st, w1. split; [reflexivity|].
      destruct (pagesRun_Done mem _ st w1 Hok (le_n _) E) as [Hat Hend].
      split; [exact Hat|]. destruct Hat as (_ & Hpb & _). fold (pagesEnd mem) in Hpb.
      pose proof (pageStart_ge mem (Z.to_nat (pageCountOf mem))) as Hge.
      pose proof (pageCountOf_range mem). fold (pagesEnd mem) in Hge.
      rewrite Hpb, run_fileTrailer in H by lia.
      destruct (Z.ltb_spec (file_length mem) (pagesEnd mem + 12)); [discriminate|].
      destruct (Z.eqb_spec (get32Hi mem (pagesEnd mem)) (checkSum st)); [|discriminate].
      cbn [negb] in H.
      destruct (Z.eqb_spec (memcmp_value mem (pagesEnd mem + 4) BINARY_COOKIE_FOOTER) 0);
        [|discriminate]. cbn [negb] in H.
      destruct (Z.eqb_spec (file_length mem)
                  (pagesEnd mem + 12 + get32Hi mem (pagesEnd mem + 8))); [|discriminate].
      cbn [negb] in H. repeat (split; [assumption|]). congruence.
    + cbn [andThen] in H. injection H as -> ->. exfalso.
      unfold pagesRun in E. eapply tidy_false_not_OK; [|exact E]. apply tidy_pageLoop.
    + discriminate.
  - destruct (decode_header_not_ok mem Hok) as (c & s & l & E & Hc & _).
    rewrite E in H. injection H as -> _. contradiction.
Qed.

(** ** The emitters *)

Lemma out_only_emitJsonStringChar b : out_only (emitJsonStringChar b) = Some tt.
Proof. destruct b; reflexivity. Qed.

Lemma run_emitJsonStringChar mem b w :
  run mem (emitJsonStringChar b) w = Done tt (put_out (json_char b) w).
Proof. apply run_out_only, out_only_emitJsonStringChar. Qed.

Lemma run_forLiteral mem l : forall w,
  run mem (forLiteral emitJsonStringChar l) w = Done tt (put_out (literal_text l) w).
Proof.
  induction l as [|b l IH]; intros w; cbn [forLiteral literal_text].
  - cbn [run]. rewrite put_out_nil. reflexivity.
  - destruct (u8 b =? 0).
    + cbn [run]. rewrite put_out_nil. reflexivity.
    + rewrite run_bind, run_emitJsonStringChar. cbn [andThen].
      rewrite IH, put_out_app. reflexivity.
Qed.

Lemma run_emitJsonString_Literal mem s w :
  run mem (emitJsonString (Literal s)) w = Done tt (put_out (json_name s) w).
Proof.
  unfold emitJsonString, json_name. rewrite run_bind. cbn [run putchar andThen].
  rewrite run_bind, run_forLiteral. cbn [andThen run putchar].
  rewrite !put_out_app. reflexivity.
Qed.

(** The scan of [emitJsonString] over the buffer: when it completes, a NUL was
    found and the bytes before it were written, each in its JSON form. *)
Lemma scan_json mem {A : Type} (k : world -> outcome A) rest : forall cursor w a w',
  scan (fun b => run mem (emitJsonStringChar b)) k rest cursor w = Done a w' ->
  exists s w2,
    cstring_of rest = Some s /\ k w2 = Done a w' /\
    stdout w2 = stdout w ++ flat_map json_char s.
Proof.
  induction rest as [|b rest IH]; intros cursor w a w' H; cbn [scan cstring_of] in *.
  - discriminate.
  - destruct (u8 b =? 0).
    + exists [], (log_read cursor w). repeat split; [exact H|].
      cbn. rewrite app_nil_r. reflexivity.
    + rewrite run_emitJsonStringChar in H.
      apply IH in H. destruct H as (s & w2 & Hs & Hk & Hout).
      exists (b :: s), w2. rewrite Hs. repeat split; [exact Hk|].
      rewrite Hout. cbn [put_out log_read stdout flat_map]. rewrite app_assoc. reflexivity.
Qed.

Lemma emitJsonString_Mapped_Done mem p w w' :
  run mem (emitJsonString (Mapped p)) w = Done tt w' ->
  exists s, cstringAt mem p = Some s /\ stdout w' = stdout w ++ json_string s.
Proof.
  unfold emitJsonString. cbn [bind putchar run]. intros H.
  apply scan_json in H. destruct H as (s & w2 & Hs & Hk & Hout).
  exists s. split; [exact Hs|].
  cbn [run] in Hk. injection Hk as <-.
  cbn [put_out stdout] in *. rewrite Hout. unfold json_string.
  rewrite <- !app_assoc. reflexivity.
Qed.

Lemma to_int_zero off : 0 <= off < 2 ^ 32 -> (to_int off =? 0) = (off =? 0).
Proof.
  intros H. unfold to_int. rewrite wrap32_small by exact H.
  destruct (Z.ltb_spec off (2 ^ 31)); [reflexivity|].
  destruct (Z.eqb_spec (off - 2 ^ 32) 0), (Z.eqb_spec off 0); lia || reflexivity.
Qed.

Lemma emitJsonOptional_Done mem cookieBase off key w w' :
  0 <= off < 2 ^ 32 -> json_name key = quoted key ->
  run mem (emitJsonOptionalSeparatedNamedValueString (to_int off) key (cookieBase + off)) w =
    Done tt w' ->
  stdout w' = stdout w ++ field_text mem cookieBase off key /\
  (off <> 0 -> exists s, cstringAt mem (cookieBase + off) = Some s).
Proof.
  intros Hoff Hkey. unfold emitJsonOptionalSeparatedNamedValueString, field_text.
  rewrite to_int_zero by exact Hoff.
  destruct (Z.eqb_spec off 0) as [->|Hne]; cbn [negb].
  - cbn [run]. intros H. injection H as <-. rewrite app_nil_r. split; [reflexivity|lia].
  - unfold emitJsonValueSeparator, emitJsonNameSeparator.
    rewrite run_bind. cbn [run putchar andThen].
    rewrite run_bind, run_emitJsonString_Literal. cbn [andThen].
    rewrite run_bind. cbn [run putchar andThen]. intros H.
    apply emitJsonString_Mapped_Done in H. destruct H as (s & Hs & Hout).
    rewrite Hs. split; [|eauto].
    rewrite Hout, Hkey. cbn [put_out stdout]. rewrite <- !app_assoc. reflexivity.
Qed.

Lemma run_emitJsonNamedValueInt mem key v w :
  run mem (emitJsonNamedValueInt key v) w =
  Done tt (put_out (json_name key ++ bytes ":" ++ printf_d v) w).
Proof.
  unfold emitJsonNamedValueInt, emitJsonNameSeparator, emitJsonNumberInt.
  rewrite run_bind, run_emitJsonString_Literal. cbn [andThen].
  cbn [bind putchar printf run]. rewrite !put_out_app. reflexivity.
Qed.

Lemma run_emitJsonSeparatedNamedValueInt mem key v w :
  run mem (emitJsonSeparatedNamedValueInt key v) w =
  Done tt (put_out (bytes "," ++ json_name key ++ bytes ":" ++ printf_d v) w).
Proof.
  unfold emitJsonSeparatedNamedValueInt, emitJsonValueSeparator.
  rewrite run_bind. cbn [run putchar andThen].
  rewrite run_emitJsonNamedValueInt, put_out_app. reflexivity.
Qed.

Lemma run_emitJsonSeparatedNamedValueDouble mem key v w :
  run mem (emitJsonSeparatedNamedValueDouble key v) w =
  Done tt (put_out (bytes "," ++ json_name key ++ bytes ":" ++ printf_17lg v) w).
Proof.
  unfold emitJsonSeparatedNamedValueDouble, emitJsonValueSeparator, emitJsonNameSeparator,
    emitJsonNumberDouble.
  rewrite run_bind. cbn [run putchar andThen].
  rewrite run_bind, run_emitJsonString_Literal. cbn [andThen].
  cbn [bind putchar printf run]. rewrite !put_out_app.
  reflexivity.
Qed.

(** ** A buffer and its prefixes *)

Lemma file_length_app T tl : file_length (T ++ tl) = file_length T + file_length tl.
Proof. unfold file_length. rewrite length_app. lia. Qed.

Lemma file_length_nonneg mem : 0 <= file_length mem.
Proof. unfold file_length. lia. Qed.

Lemma peek_prefix T tl off : off < file_length T -> peek (T ++ tl) off = peek T off.
Proof.
  intros H. unfold peek. destruct (Z.ltb_spec off 0); [reflexivity|].
  apply nth_error_app1. unfold file_length in H. lia.
Qed.

Lemma byteAt_prefix T tl off : off < file_length T -> byteAt (T ++ tl) off = byteAt T off.
Proof. intros H. unfold byteAt. rewrite peek_prefix by exact H. reflexivity. Qed.

Lemma get32Hi_prefix T tl p : p + 4 <= file_length T -> get32Hi (T ++ tl) p = get32Hi T p.
Proof. intros H. unfold get32Hi. rewrite !byteAt_prefix by lia. reflexivity. Qed.

Lemma get32Lo_prefix T tl p : p + 4 <= file_length T -> get32Lo (T ++ tl) p = get32Lo T p.
Proof. intros H. unfold get32Lo. rewrite !byteAt_prefix by lia. reflexivity. Qed.

Lemma get64Lo_prefix T tl p : p + 8 <= file_length T -> get64Lo (T ++ tl) p = get64Lo T p.
Proof. intros H. unfold get64Lo. rewrite !get32Lo_prefix by lia. reflexivity. Qed.

Lemma headerAt_prefix T tl cb :
  cb + 56 <= file_length T -> headerAt (T ++ tl) cb = headerAt T cb.
Proof.
  intros H. unfold headerAt. rewrite !get32Lo_prefix, !get64Lo_prefix by lia. reflexivity.
Qed.

Lemma memcmp_value_prefix T tl s2 : forall s1,
  s1 + Z.of_nat (List.length s2) <= file_length T ->
  memcmp_value (T ++ tl) s1 s2 = memcmp_value T s1 s2.
Proof.
  induction s2 as [|c s2 IH]; intros s1 H; cbn [memcmp_value List.length] in *; [reflexivity|].
  rewrite byteAt_prefix, IH by lia. reflexivity.
Qed.

Lemma in_bounds_app T tl p n : in_bounds T p n -> in_bounds (T ++ tl) p n.
Proof.
  unfold in_bounds. rewrite file_length_app. pose proof (file_length_nonneg tl). lia.
Qed.

Lemma Done_stderr ok mem {A : Type} (p : prog A) w a w' :
  tidy ok p -> run mem p w = Done a w' -> stderr w' = stderr w.
Proof.
  intros Hp E. pose proof (tidy_run ok mem p w Hp) as H. rewrite E in H. exact H.
Qed.

Lemma truncated_failure_andThen {A B : Type} (r : outcome A) (f : A -> world -> outcome B) :
  truncated_failure r -> truncated_failure (andThen r f).
Proof. destruct r; cbn; auto. contradiction. Qed.

Lemma is_fault_truncated {A : Type} (r : outcome A) : is_fault r = true -> truncated_failure r.
Proof. destruct r; cbn; auto; discriminate. Qed.

(** ** The decoding of a prefix follows the decoding of the buffer *)

Lemma sim_processCookie T tl pageBase pageEnd pageIdx cookieIdx cookieOffsetBase first w r w' :
  in_bounds T cookieOffsetBase 4 -> 0 <= pageBase -> stderr w = [] ->
  run (T ++ tl)
    (processCookie (file_length (T ++ tl)) pageBase pageEnd pageIdx cookieIdx cookieOffsetBase
       first) w = Done r w' ->
  fst r = cookieOffsetBase + 4 /\
  (run T (processCookie (file_length T) pageBase pageEnd pageIdx cookieIdx cookieOffsetBase
            first) w = Done r w' \/
   truncated_failure
     (run T (processCookie (file_length T) pageBase pageEnd pageIdx cookieIdx cookieOffsetBase
               first) w)).
Proof.
  intros Hb Hpos Herr H.
  rewrite run_processCookie in H by (try apply in_bounds_app; assumption).
  rewrite run_processCookie by assumption. cbv zeta in *.
  destruct Hb as [Hb0 Hb1].
  rewrite get32Lo_prefix in H by exact Hb1.
  destruct (Z.ltb_spec (file_length (T ++ tl)) (pageBase + get32Lo T cookieOffsetBase + 56));
    [discriminate|].
  split.
  - destruct (run (T ++ tl) _ _) as [f1 w1| |]; try discriminate.
    cbn [andThen] in H. injection H as <- _. reflexivity.
  - destruct (Z.ltb_spec (file_length T) (pageBase + get32Lo T cookieOffsetBase + 56))
      as [Hshort|Hfit].
    + right. cbn [truncated_failure]. right. split; [reflexivity|].
      exists cookieIdx, pageIdx. cbn [put_err log_reads stderr]. rewrite Herr. reflexivity.
    + rewrite headerAt_prefix in H by exact Hfit.
      match goal with
      | |- andThen (run T ?p ?w0) _ = _ \/ _ => destruct (run_prefix T tl p w0) as [E|F]
      end.
      * rewrite E. left. exact H.
      * right. apply truncated_failure_andThen, is_fault_truncated, F.
Qed.

Lemma sim_cookieLoop T tl pageBase pageEnd pageIdx n :
  forall cookieIdx cookieOffsetBase first w r w',
    0 <= cookieOffsetBase -> cookieOffsetBase + 4 * Z.of_nat n <= file_length T ->
    0 <= pageBase -> stderr w = [] ->
    run (T ++ tl)
      (cookieLoop (file_length (T ++ tl)) pageBase pageEnd pageIdx n cookieIdx
         cookieOffsetBase first) w = Done r w' ->
    run T (cookieLoop (file_length T) pageBase pageEnd pageIdx n cookieIdx cookieOffsetBase
             first) w = Done r w' \/
    truncated_failure
      (run T (cookieLoop (file_length T) pageBase pageEnd pageIdx n cookieIdx
                cookieOffsetBase first) w).
Proof.
  induction n as [|n IH]; intros cookieIdx cob first w r w' Hc0 Hc1 Hpos Herr H.
  - left. exact H.
  - cbn [cookieLoop] in *. rewrite run_bind in *.
    destruct (run (T ++ tl) (processCookie _ _ _ _ _ _ _) w) as [[cob1 f1] w1| |] eqn:E;
      try discriminate.
    pose proof (Done_stderr false _ _ _ _ _ (tidy_processCookie _ _ _ _ _ _ _ _) E) as Herr1.
    apply sim_processCookie in E; [|split; lia|assumption|assumption].
    destruct E as [Hfst [E|E]].
    + rewrite E. cbn [andThen] in *. cbn [fst] in Hfst. subst cob1.
      apply IH with (r := r) (w' := w'); [lia|lia|assumption|congruence|exact H].
    + right. apply truncated_failure_andThen, E.
Qed.

Lemma sim_processPage T tl pageIdx st w st' w' :
  in_bounds T (pageSizeBase st) 4 -> 0 <= pageBase st -> stderr w = [] ->
  run (T ++ tl) (processPage (file_length (T ++ tl)) pageIdx st) w = Done st' w' ->
  run T (processPage (file_length T) pageIdx st) w = Done st' w' \/
  truncated_failure (run T (processPage (file_length T) pageIdx st) w).
Proof.
  intros Hb Hpos Herr H.
  rewrite run_processPage in H by (try apply in_bounds_app; assumption).
  rewrite run_processPage by assumption. cbv zeta in *.
  destruct Hb as [Hb0 Hb1].
  rewrite get32Hi_prefix in H by exact Hb1.
  pose proof (get32Hi_range T (pageSizeBase st)) as Hsz.
  destruct (Z.ltb_spec (file_length (T ++ tl)) (pageBase st + get32Hi T (pageSizeBase st)));
    [discriminate|].
  destruct (Z.ltb_spec (file_length T) (pageBase st + get32Hi T (pageSizeBase st)))
    as [Hshort|Hfit].
  { right. cbn [truncated_failure]. left. reflexivity. }
  destruct (Z.ltb_spec (get32Hi T (pageSizeBase st)) 8); [discriminate|].
  rewrite memcmp_value_prefix in H by (cbn; lia).
  destruct (negb (memcmp_value T (pageBase st) COOKIE_PAGE_TAG =? 0)); [discriminate|].
  rewrite get32Lo_prefix in H by lia.
  pose proof (get32Lo_range T (pageBase st + 4)) as Hcc.
  destruct (Z.ltb_spec (pageBase st + get32Hi T (pageSizeBase st))
              (pageBase st + 8 + get32Lo T (pageBase st + 4) * 4 + 4)); [discriminate|].
  rewrite memcmp_value_prefix in H by (cbn; lia).
  destruct (negb (memcmp_value T (pageBase st + 8 + get32Lo T (pageBase st + 4) * 4)
                    COOKIE_PAGE_HEADER_END =? 0)); [discriminate|].
  match type of H with
  | andThen ?x _ = _ => destruct x as [r w5| |] eqn:E; try discriminate
  end.
  cbn [andThen] in H.
  apply sim_cookieLoop in E; [|lia|lia|assumption|exact Herr].
  destruct E as [E|E].
  - rewrite E. cbn [andThen].
    match goal with
    | |- andThen (run T ?p ?w0) _ = _ \/ _ => destruct (run_prefix T tl p w0) as [E2|F]
    end.
    + rewrite E2. left. exact H.
    + right. apply truncated_failure_andThen, is_fault_truncated, F.
  - right. apply truncated_failure_andThen, E.
Qed.

Lemma sim_pageLoop T tl n : forall i pageIdx st w st' w',
  (i + n <= Z.to_nat (pageCountOf (T ++ tl)))%nat ->
  8 + pageCountOf (T ++ tl) * 4 <= file_length T ->
  at_page (T ++ tl) i st -> pageStart (T ++ tl) i <= file_length (T ++ tl) ->
  stderr w = [] ->
  run (T ++ tl) (pageLoop (file_length (T ++ tl)) n pageIdx st) w = Done st' w' ->
  run T (pageLoop (file_length T) n pageIdx st) w = Done st' w' \/
  truncated_failure (run T (pageLoop (file_length T) n pageIdx st) w).
Proof.
  induction n as [|n IH]; intros i pageIdx st w st' w' Hin Htab Hat Hps Herr H.
  - left. exact H.
  - cbn [pageLoop] in *. rewrite run_bind in *.
    destruct (run (T ++ tl) (processPage _ _ _) w) as [st1 w1| |] eqn:E; try discriminate.
    cbn [andThen] in H.
    pose proof (Done_stderr false _ _ _ _ _ (tidy_processPage _ _ _ _) E) as Herr1.
    pose proof (pageCountOf_range (T ++ tl)) as Hpc.
    pose proof (pageStart_ge (T ++ tl) i) as Hge.
    pose proof (file_length_nonneg tl) as Htl.
    assert (Hlen : 8 + pageCountOf (T ++ tl) * 4 <= file_length (T ++ tl))
      by (rewrite file_length_app; lia).
    assert (Hi : (i < Z.to_nat (pageCountOf (T ++ tl)))%nat) by lia.
    destruct (at_page_step _ _ i _ _ _ _ Hi Hlen Hat E) as (Hat1 & Hps1 & _).
    destruct Hat as (Hpsb & Hpb & Hcs).
    apply sim_processPage in E; [|rewrite Hpsb; split; lia|lia|exact Herr].
    destruct E as [E|E].
    + rewrite E. cbn [andThen].
      apply IH with (i := S i); [lia|assumption|assumption|assumption|congruence|exact H].
    + right. apply truncated_failure_andThen, E.
Qed.

(** ** A buffer with one byte changed *)

Lemma same_except_set_byte mem p b :
  0 <= p < file_length mem -> same_except mem (set_byte mem p b) p.
Proof.
  intros Hp. unfold same_except, set_byte, file_length in *. split.
  - rewrite length_app, length_firstn. cbn [List.length]. rewrite length_skipn. lia.
  - intros off Hoff. unfold peek. destruct (Z.ltb_spec off 0); [reflexivity|].
    assert (Hn : Z.to_nat off <> Z.to_nat p) by lia.
    assert (Hlen : List.length (firstn (Z.to_nat p) mem) = Z.to_nat p)
      by (rewrite length_firstn; lia).
    destruct (Nat.lt_ge_cases (Z.to_nat off) (Z.to_nat p)) as [Hlt|Hge].
    + rewrite nth_error_app1 by lia. rewrite nth_error_firstn.
      destruct (Nat.ltb_spec (Z.to_nat off) (Z.to_nat p)); [reflexivity|lia].
    + rewrite nth_error_app2 by lia. rewrite Hlen.
      destruct (Z.to_nat off - Z.to_nat p)%nat as [|d] eqn:Hd; [lia|].
      cbn [nth_error]. rewrite nth_error_skipn. f_equal. lia.
Qed.

Lemma peek_set_byte mem p b : 0 <= p < file_length mem -> peek (set_byte mem p b) p = Some b.
Proof.
  intros Hp. unfold set_byte, peek, file_length in *.
  destruct (Z.ltb_spec p 0); [lia|].
  rewrite nth_error_app2 by (rewrite length_firstn; lia).
  rewrite length_firstn. replace (Z.to_nat p - Nat.min (Z.to_nat p) (List.length mem))%nat
    with O by lia. reflexivity.
Qed.

Section OneByteChanged.

Variables (mem mem' : list byte) (p : Z).
Hypothesis Hsame : same_except mem mem' p.

Lemma changed_length : file_length mem' = file_length mem.
Proof. apply Hsame. Qed.

Lemma changed_byteAt off : off <> p -> byteAt mem' off = byteAt mem off.
Proof. intros H. unfold byteAt. destruct Hsame as [_ Hp]. rewrite Hp by exact H. reflexivity. Qed.

Lemma changed_get32Hi q : p < q \/ q + 4 <= p -> get32Hi mem' q = get32Hi mem q.
Proof. intros H. unfold get32Hi. rewrite !changed_byteAt by lia. reflexivity. Qed.

Lemma changed_get32Lo q : p < q \/ q + 4 <= p -> get32Lo mem' q = get32Lo mem q.
Proof. intros H. unfold get32Lo. rewrite !changed_byteAt by lia. reflexivity. Qed.

Lemma changed_memcmp_same s2 : forall s1,
  p < s1 \/ s1 + Z.of_nat (List.length s2) <= p ->
  memcmp_value mem' s1 s2 = memcmp_value mem s1 s2.
Proof.
  induction s2 as [|c s2 IH]; intros s1 H; cbn [memcmp_value List.length] in *; [reflexivity|].
  rewrite changed_byteAt, IH by lia. reflexivity.
Qed.

(** A comparison that succeeded fails once a byte it covers has changed. *)
Lemma changed_memcmp_differs s2 : forall s1,
  s1 <= p < s1 + Z.of_nat (List.length s2) ->
  byteAt mem' p <> byteAt mem p ->
  memcmp_value mem s1 s2 = 0 ->
  memcmp_value mem' s1 s2 <> 0.
Proof.
  induction s2 as [|c s2 IH]; intros s1 Hin Hne H0; cbn [memcmp_value List.length] in *;
    [lia|].
  destruct (Z.eqb_spec (byteAt mem s1) (u8 c)) as [Hc|Hc]; [|lia].
  destruct (Z.eq_dec s1 p) as [->|Hs].
  - destruct (Z.eqb_spec (byteAt mem' p) (u8 c)); lia.
  - rewrite changed_byteAt by exact Hs.
    destruct (Z.eqb_spec (byteAt mem s1) (u8 c)); [|contradiction].
    apply IH; [lia|exact Hne|exact H0].
Qed.

Lemma changed_agree l : ~ In p l -> agree_on mem mem' l.
Proof.
  intros Hnot off Hin. destruct Hsame as [_ Hp]. apply Hp. intros ->. contradiction.
Qed.

Lemma changed_header_ok : 8 <= p -> header_ok mem' = header_ok mem.
Proof.
  intros H8. unfold header_ok, pageCountOf.
  rewrite changed_length, changed_memcmp_same, changed_get32Hi by (cbn; lia). reflexivity.
Qed.

Lemma changed_pagesRun n :
  8 <= p -> ~ In p (reads (world_of (pagesRun mem n))) -> pagesRun mem' n = pagesRun mem n.
Proof.
  intros H8 Hnot. unfold pagesRun, state0, pageCountOf in *.
  rewrite changed_length, changed_get32Hi by lia.
  apply run_agree, changed_agree, Hnot.
Qed.

End OneByteChanged.

Lemma pageLoop_app mem length a : forall b pageIdx st w,
  run mem (pageLoop length (a + b) pageIdx st) w =
  andThen (run mem (pageLoop length a pageIdx st) w)
    (fun st' => run mem (pageLoop length b (nextIdx a pageIdx) st')).
Proof.
  induction a as [|a IH]; intros b pageIdx st w.
  - reflexivity.
  - cbn [Nat.add pageLoop nextIdx]. rewrite !run_bind.
    destruct (run mem (processPage length pageIdx st) w); cbn [andThen]; auto.
Qed.

Lemma pagesRun_split mem i m :
  pagesRun mem (i + S m) =
  andThen (pagesRun mem i)
    (fun st w =>
       andThen (run mem (processPage (file_length mem) (nextIdx i 0) st) w)
         (fun st' =>
            run mem (pageLoop (file_length mem) m (to_int (nextIdx i 0 + 1)) st'))).
Proof.
  unfold pagesRun. rewrite pageLoop_app.
  destruct (run mem (pageLoop (file_length mem) i 0 (state0 mem)) world1); cbn [andThen]; auto.
  cbn [pageLoop]. rewrite run_bind. reflexivity.
Qed.

(** ** The scan of a string that starts inside its record

    When the byte before the end [e] of a record is zero, the scan of a
    string that starts at [p] below [e] stops at the latest on that byte: it
    completes, and it reads the offsets from [p] on and none at or above
    [e]. *)

Lemma scan_in_record mem {A : Type} (k : world -> outcome A) e :
  (exists z, peek mem (e - 1) = Some z /\ u8 z = 0) ->
  forall rest cursor w,
    rest = suffix mem cursor -> 0 <= cursor < e ->
    exists w2 n,
      scan (fun b => run mem (emitJsonStringChar b)) k rest cursor w = k w2 /\
      reads w2 = reads w ++ span cursor n /\ cursor + Z.of_nat n <= e /\
      stderr w2 = stderr w.
Proof.
  intros (z & Hz & Hz0). induction rest as [|b rest IH]; intros cursor w Hrest Hc.
  - rewrite suffix_cons in Hrest.
    destruct (peek_in_bounds mem cursor) as [b E].
    + apply peek_Some_bounds in Hz. lia.
    + rewrite E in Hrest. discriminate.
  - rewrite suffix_cons in Hrest.
    destruct (peek mem cursor) as [b0|] eqn:E; [|discriminate].
    injection Hrest as Hb Hrest; subst b0. cbn [scan].
    destruct (Z.eqb_spec (u8 b) 0) as [Hb0|Hb0].
    + exists (log_read cursor w), 1%nat. cbn [span reads log_read stderr].
      repeat split; lia.
    + assert (Hnext : cursor + 1 < e).
      { destruct (Z.eq_dec cursor (e - 1)) as [->|]; [|lia].
        rewrite Hz in E. injection E as ->. contradiction. }
      rewrite run_emitJsonStringChar.
      destruct (IH (cursor + 1) (put_out (json_char b) (log_read cursor w)) Hrest
                  ltac:(lia)) as (w2 & n & Hscan & Hreads & Hn & Herr).
      exists w2, (S n). rewrite Hscan. repeat split.
      * rewrite Hreads. cbn [span reads put_out log_read]. rewrite <- app_assoc. reflexivity.
      * lia.
      * rewrite Herr. reflexivity.
Qed.

Lemma emitJsonString_in_record mem p e w :
  (exists z, peek mem (e - 1) = Some z /\ u8 z = 0) -> 0 <= p < e ->
  exists w' n,
    run mem (emitJsonString (Mapped p)) w = Done tt w' /\
    reads w' = reads w ++ span p n /\ p + Z.of_nat n <= e.
Proof.
  intros Hz Hp. unfold emitJsonString. cbn [bind putchar run].
  destruct (scan_in_record mem (fun w0 => Done tt (put_out [x22] w0)) e Hz (suffix mem p) p
              (put_out [x22] w) eq_refl Hp) as (w2 & n & Hscan & Hreads & Hn & _).
  rewrite Hscan. eexists. exists n. split; [reflexivity|].
  cbn [reads put_out] in *. auto.
Qed.

(** Before the first page is examined only the first eight bytes of the file
    have been read, so no byte of its tag or of its terminator has. *)
Lemma first_page_unread mem j :
  0 <= j ->
  ~ In (site_offset mem (PageTag 0) + j) (reads_before mem (PageTag 0)) /\
  ~ In (site_offset mem (PageHeaderEnd 0) + j) (reads_before mem (PageHeaderEnd 0)).
Proof.
  intros Hj. pose proof (pageCountOf_range mem) as Hpc.
  pose proof (get32Lo_range mem (pageStart mem 0 + 4)) as Hcc.
  cbn [reads_before site_offset pagesRun pageLoop run world_of world1 put_out log_reads
       reads world0 app pageStart] in *.
  rewrite !In_span. lia.
Qed.

(** * The claims *)

(** ** The concrete scenario *)

(** C4: the file with one page and one cookie (domain [x.com], name [a],
    value [b], no path, comment or commentUrl, version 1, flags 0, both dates
    0.0, correct checksum and footer) is decoded successfully, and standard
    output then holds exactly the text of the scenario, the keys in the fixed
    order and the three absent fields omitted; nothing is written to standard
    error. *)
Theorem C4_scenario_text :
  get32Hi scenario_file 4 = 1 /\ get32Lo scenario_file 16 = 1 /\
  exists w,
    decode scenario_file = Exited EXIT_CODE_OK w /\
    stdout w = scenario_text /\ stderr w = [].
Proof.
  split; [reflexivity|]. split; [reflexivity|].
  eexists. split; [vm_compute; reflexivity|]. split; reflexivity.
Qed.

(** ** Scanning a string field *)

(** C1, at the failing input: the record of [overrun_file] starts at offset
    28 and declares 66 bytes, so it ends at offset 94, the end of the buffer;
    its domain offset is 66.  The record passes every check (the cookie object
    is opened on standard output), and the scan of the domain then reads at
    offset 94, which is neither below the end of the record nor inside the
    buffer.  In the complete file the same read lands on the saved checksum
    and the decoding succeeds. *)
Theorem C1_scan_starts_at_record_end :
  get32Lo overrun_file 28 = 66 /\ get32Lo overrun_file (28 + 16) = 66 /\
  file_length overrun_file = 28 + 66 /\
  (exists w,
     decode overrun_file = Fault (28 + 66) w /\
     stdout w = bytes "{" ++ quoted "cookies" ++ bytes ":[{" ++ quoted "version" ++
                bytes ":1," ++ quoted "flags" ++ bytes ":0," ++ quoted "domain" ++
                bytes ":" ++ [x22]) /\
  (exists w,
     decode overrun_file_complete = Exited EXIT_CODE_OK w /\ In (28 + 66) (reads w)).
Proof.
  split; [reflexivity|]. split; [reflexivity|]. split; [reflexivity|]. split.
  - eexists. split; [vm_compute; reflexivity|reflexivity].
  - eexists. split; [vm_compute; reflexivity|]. vm_compute. tauto.
Qed.

(** ** The checksum *)

(** C5: when the header passes and the page loop completes, the accumulated
    checksum is the sum, over every page and over the offsets 0, 4, 8, ...
    within the page, of the byte there as an unsigned 8-bit value, reduced
    modulo 2^32; a decoding that succeeds found the big-endian 32-bit value
    saved in the trailer equal to it, so the decoding fails whenever the two
    differ. *)
Theorem C5_checksum_is_lane_sum :
  forall mem,
    (forall st w,
       header_ok mem = true ->
       pagesRun mem (Z.to_nat (pageCountOf mem)) = Done st w ->
       checkSum st = fileChecksum mem) /\
    (forall w, decode mem = Exited EXIT_CODE_OK w -> savedChecksum mem = fileChecksum mem) /\
    (savedChecksum mem <> fileChecksum mem ->
     forall w, decode mem <> Exited EXIT_CODE_OK w).
Proof.
  intros mem.
  assert (H1 : forall st w,
             header_ok mem = true ->
             pagesRun mem (Z.to_nat (pageCountOf mem)) = Done st w ->
             checkSum st = fileChecksum mem).
  { intros st w Hok H. apply pagesRun_Done in H; [|exact Hok|lia].
    destruct H as [(_ & _ & Hcs) _]. exact Hcs. }
  assert (H2 : forall w, decode mem = Exited EXIT_CODE_OK w ->
                         savedChecksum mem = fileChecksum mem).
  { intros w H. apply decode_OK in H.
    destruct H as (Hok & st & w1 & Hrun & _ & _ & Hsaved & _).
    rewrite Hsaved. eapply H1; eassumption. }
  split; [exact H1|]. split; [exact H2|].
  intros Hne w H. apply Hne. eapply H2; exact H.
Qed.

(** The saved checksum of the scenario file is its lane sum. *)
Lemma C5_witness : savedChecksum scenario_file = fileChecksum scenario_file.
Proof.
  destruct (C5_checksum_is_lane_sum scenario_file) as (_ & H & _).
  eapply H. vm_compute. reflexivity.
Defined.

(** C6 (counterexample): the file with a wrong saved checksum and the file
    with one byte after its property list, a structural parse failure, end
    with the same exit code, so the checksum failure is not a class of its
    own. *)
Lemma C6_counterexample :
  exists w1 w2,
    decode bad_checksum_file = Exited EXIT_CODE_BAD_PARSE w1 /\
    stderr w1 = line "Bad file checksum" /\
    decode bad_plist_file = Exited EXIT_CODE_BAD_PARSE w2 /\
    stderr w2 = line "File length and plist data length mismatch".
Proof.
  do 2 eexists. split; [vm_compute; reflexivity|]. split; [reflexivity|].
  split; [vm_compute; reflexivity|reflexivity].
Qed.

(** C6 (amended): when every check before the trailer passes and the buffer
    holds the twelve bytes of the trailer, but the saved checksum differs from
    the accumulated one, the decoding fails with [EXIT_CODE_BAD_PARSE] and the
    diagnostic [Bad file checksum]; that exit code differs from those of
    success, of a short file and of a bad magic, and is the one that
    structural parse failures return. *)
Theorem C6_bad_checksum_is_bad_parse :
  forall mem st w,
    header_ok mem = true ->
    pagesRun mem (Z.to_nat (pageCountOf mem)) = Done st w ->
    pagesEnd mem + 12 <= file_length mem ->
    savedChecksum mem <> fileChecksum mem ->
    decode mem =
      Exited EXIT_CODE_BAD_PARSE
        (put_err (line "Bad file checksum") (log_reads (span (pagesEnd mem) 4) w)) /\
    exit_value EXIT_CODE_BAD_PARSE <> exit_value EXIT_CODE_OK /\
    exit_value EXIT_CODE_BAD_PARSE <> exit_value EXIT_CODE_BAD_EOF /\
    exit_value EXIT_CODE_BAD_PARSE <> exit_value EXIT_CODE_BAD_MAGIC.
Proof.
  intros mem st w Hok Hrun Hlen Hne.
  split; [|cbn; repeat split; discriminate].
  rewrite decode_header_ok, Hrun by exact Hok. cbn [andThen].
  destruct (pagesRun_Done mem _ st w Hok (le_n _) Hrun) as [(_ & Hpb & Hcs) _].
  fold (pagesEnd mem) in Hpb.
  pose proof (pageStart_ge mem (Z.to_nat (pageCountOf mem))) as Hge.
  pose proof (pageCountOf_range mem). fold (pagesEnd mem) in Hge.
  rewrite Hpb, Hcs, run_fileTrailer by lia.
  change (wrap32 (pagesSum mem (Z.to_nat (pageCountOf mem)))) with (fileChecksum mem).
  destruct (Z.ltb_spec (file_length mem) (pagesEnd mem + 12)); [lia|].
  unfold savedChecksum in Hne.
  destruct (Z.eqb_spec (get32Hi mem (pagesEnd mem)) (fileChecksum mem)); [contradiction|].
  reflexivity.
Qed.

(** The file with a wrong saved checksum, as an instance. *)
Lemma C6_witness :
  decode bad_checksum_file =
    Exited EXIT_CODE_BAD_PARSE
      (put_err (line "Bad file checksum")
         (log_reads (span (pagesEnd bad_checksum_file) 4)
            (world_of (pagesRun bad_checksum_file 1)))) /\
  exit_value EXIT_CODE_BAD_PARSE <> exit_value EXIT_CODE_OK /\
  exit_value EXIT_CODE_BAD_PARSE <> exit_value EXIT_CODE_BAD_EOF /\
  exit_value EXIT_CODE_BAD_PARSE <> exit_value EXIT_CODE_BAD_MAGIC.
Proof.
  apply (C6_bad_checksum_is_bad_parse bad_checksum_file
           (mkPageState false 593 12 94)).
  - reflexivity.
  - vm_compute. reflexivity.
  - vm_compute. discriminate.
  - vm_compute. discriminate.
Defined.

(** ** A cookie header that does not fit *)

(** C9 (counterexample): the buffer of [short_header_file] ends 8 bytes after
    the start of its only cookie, before the end of the fixed header; the
    decoding fails with [EXIT_CODE_BAD_PARSE], not with the code of a short
    file. *)
Lemma C9_counterexample :
  file_length short_header_file < 28 + 48 /\
  exists w,
    decode short_header_file = Exited EXIT_CODE_BAD_PARSE w /\
    stderr w = cookie_diagnostic 0 0 " too short for cookie header" /\
    exit_value EXIT_CODE_BAD_PARSE <> exit_value EXIT_CODE_BAD_EOF.
Proof.
  split; [reflexivity|]. eexists. split; [vm_compute; reflexivity|].
  split; [reflexivity|discriminate].
Qed.

(** C9 (amended): the fixed header takes 56 bytes (ten 32-bit fields and two
    64-bit fields).  Whenever the cookie loop reaches a cookie and fewer than
    56 bytes of the buffer remain from the start of the cookie, the decoding
    returns [EXIT_CODE_BAD_PARSE] with the diagnostic that names the cookie
    and the page, having read no byte of the header; the code differs from
    [EXIT_CODE_BAD_EOF]. *)
Theorem C9_short_cookie_header_is_bad_parse :
  forall mem pageBase pageEnd pageIdx n cookieIdx cookieOffsetBase first w,
    in_bounds mem cookieOffsetBase 4 -> 0 <= pageBase ->
    file_length mem < pageBase + get32Lo mem cookieOffsetBase + 56 ->
    run mem (cookieLoop (file_length mem) pageBase pageEnd pageIdx (S n) cookieIdx
               cookieOffsetBase first) w =
      Exited EXIT_CODE_BAD_PARSE
        (put_err (cookie_diagnostic cookieIdx pageIdx " too short for cookie header")
           (log_reads (span cookieOffsetBase 4) w)) /\
    exit_value EXIT_CODE_BAD_PARSE <> exit_value EXIT_CODE_BAD_EOF.
Proof.
  intros mem pageBase pageEnd pageIdx n cookieIdx cookieOffsetBase first w Hb Hpos Hlt.
  split; [|discriminate].
  cbn [cookieLoop]. rewrite run_bind, run_processCookie by assumption. cbv zeta.
  destruct (Z.ltb_spec (file_length mem) (pageBase + get32Lo mem cookieOffsetBase + 56));
    [reflexivity|lia].
Qed.

(** The cookie loop on [short_header_file], as an instance. *)
Lemma C9_witness :
  run short_header_file
    (cookieLoop (file_length short_header_file) 12 36 0 1 0 20 true) world0 =
    Exited EXIT_CODE_BAD_PARSE
      (put_err (cookie_diagnostic 0 0 " too short for cookie header")
         (log_reads (span 20 4) world0)) /\
  exit_value EXIT_CODE_BAD_PARSE <> exit_value EXIT_CODE_BAD_EOF.
Proof.
  apply (C9_short_cookie_header_is_bad_parse short_header_file 12 36 0 0 0 20 true world0).
  - split; [lia|vm_compute; discriminate].
  - lia.
  - vm_compute. reflexivity.
Defined.

(** ** Output on failure *)

(** C3 (counterexample): the decoding of the file with a wrong saved checksum
    fails, after the opening of the document and a whole cookie object have
    been written to standard output. *)
Lemma C3_counterexample :
  exists w,
    decode bad_checksum_file = Exited EXIT_CODE_BAD_PARSE w /\
    stdout w =
      opening ++ bytes "{" ++ quoted "version" ++ bytes ":1," ++ quoted "flags" ++
      bytes ":0," ++ quoted "domain" ++ bytes ":" ++ quoted "x.com" ++ bytes "," ++
      quoted "name" ++ bytes ":" ++ quoted "a" ++ bytes "," ++
      quoted "value" ++ bytes ":" ++ quoted "b" ++ bytes "," ++
      quoted "expiry" ++ bytes ":0," ++ quoted "creation" ++ bytes ":0}" /\
    stdout w <> [].
Proof.
  eexists. split; [vm_compute; reflexivity|]. split; [reflexivity|discriminate].
Qed.

(** C3 (amended): the JSON text is streamed while the file is decoded.  On
    every failure a diagnostic is written to standard error and the exit code
    differs from that of success, and a success writes nothing to standard
    error.  Standard output is empty when the failure is found by one of the
    three checks of the file header; a later failure leaves on standard output
    the text written so far, which starts with the opening of the document. *)
Theorem C3_failure_output :
  forall mem c w,
    decode mem = Exited c w ->
    (c = EXIT_CODE_OK -> stderr w = []) /\
    (c <> EXIT_CODE_OK ->
     stderr w <> [] /\ exit_value c <> exit_value EXIT_CODE_OK /\
     (header_ok mem = false -> stdout w = []) /\
     (header_ok mem = true -> exists s, stdout w = opening ++ s)).
Proof.
  intros mem c w H.
  pose proof (tidy_run true mem _ world0 (tidy_printCookiesFromMmap (file_length mem))) as Ht.
  fold (decode mem) in Ht. rewrite H in Ht. cbn [stderr_effect world0 stderr] in Ht.
  split.
  - intros ->. destruct Ht as [(_ & _ & Ht)|(Ht & _)]; [exact Ht|contradiction].
  - intros Hc. destruct Ht as [(Ht & _)|(_ & s & Hs & Ht)]; [contradiction|].
    split; [rewrite Ht; exact Hs|]. split; [destruct c; cbn; congruence|].
    split.
    + intros Hok. destruct (decode_header_not_ok mem Hok) as (c' & s' & l & E & _).
      rewrite E in H. injection H as _ <-. reflexivity.
    + intros Hok. rewrite decode_header_ok in H by exact Hok.
      unfold pagesRun in H. rewrite <- run_bind in H.
      match type of H with
      | run mem ?p world1 = _ => pose proof (run_extends mem p world1) as He
      end.
      rewrite H in He. destruct He as [[s0 He] _ _]. exists s0. exact He.
Qed.

(** The failure on the file with a wrong saved checksum, as an instance. *)
Lemma C3_witness :
  (EXIT_CODE_BAD_PARSE = EXIT_CODE_OK ->
   stderr (world_of (decode bad_checksum_file)) = []) /\
  (EXIT_CODE_BAD_PARSE <> EXIT_CODE_OK ->
   stderr (world_of (decode bad_checksum_file)) <> [] /\
   exit_value EXIT_CODE_BAD_PARSE <> exit_value EXIT_CODE_OK /\
   (header_ok bad_checksum_file = false -> stdout (world_of (decode bad_checksum_file)) = []) /\
   (header_ok bad_checksum_file = true ->
    exists s, stdout (world_of (decode bad_checksum_file)) = opening ++ s)).
Proof.
  apply (C3_failure_output bad_checksum_file). vm_compute. reflexivity.
Defined.

(** ** The declared size of a record *)

(** C10: no check compares the declared size of a record with the size of the
    header that has been read.  The record of [short_record_file] declares 13
    bytes, fewer than 48 (and than the 56 the header takes); its end is inside
    the page, the byte before its end is zero and its one non-zero offset, 4,
    is at most 13; the file is decoded successfully.  When the declared size is
    0, the check of the terminating NUL reads the byte before the start of the
    record, outside the declared extent: always, and in particular in the
    successful decoding of [empty_record_file]. *)
Theorem C10_record_size_unchecked :
  (exists w,
     decode short_record_file = Exited EXIT_CODE_OK w /\
     cookieSize (headerAt short_record_file 28) = 13 /\ 13 < 48 /\
     domain (headerAt short_record_file 28) = 4 /\
     stdout w = opening ++ bytes "{" ++ quoted "version" ++ bytes ":65," ++
                quoted "flags" ++ bytes ":0," ++ quoted "domain" ++ bytes ":" ++
                quoted "A" ++ bytes "," ++ quoted "expiry" ++ bytes ":0," ++
                quoted "creation" ++ bytes ":0}" ++ closing) /\
  (exists w,
     decode empty_record_file = Exited EXIT_CODE_OK w /\
     cookieSize (headerAt empty_record_file 28) = 0 /\
     In (28 - 1) (reads w)) /\
  (forall mem pageEnd pageIdx cookieIdx cookieBase h first w,
     cookieSize h = 0 -> cookieBase <= pageEnd ->
     exists l,
       reads (world_of (run mem (checkCookie pageEnd pageIdx cookieIdx cookieBase h first) w)) =
       reads w ++ (cookieBase - 1) :: l).
Proof.
  split; [|split].
  - eexists. split; [vm_compute; reflexivity|]. repeat split; reflexivity.
  - eexists. split; [vm_compute; reflexivity|]. split; [reflexivity|]. vm_compute. tauto.
  - intros mem pageEnd pageIdx cookieIdx cookieBase h first w Hsize Hle.
    unfold checkCookie. rewrite Hsize, Z.add_0_r.
    destruct (Z.ltb_spec pageEnd cookieBase); [lia|].
    rewrite run_bind. cbn [run load].
    destruct (peek mem (cookieBase - 1)) as [b|].
    + cbn [andThen].
      match goal with
      | |- context [run mem ?p (log_read ?o w)] =>
          destruct (run_extends mem p (log_read o w)) as [_ _ [l Hl]]
      end.
      exists l. rewrite Hl. cbn [reads log_read]. rewrite <- app_assoc. reflexivity.
    + exists []. reflexivity.
Qed.

(** The check of the record of [empty_record_file], as an instance. *)
Lemma C10_witness :
  exists l,
    reads (world_of (run empty_record_file
                       (checkCookie 94 0 0 28 (headerAt empty_record_file 28) true) world0)) =
    reads world0 ++ (28 - 1) :: l.
Proof.
  destruct C10_record_size_unchecked as (_ & _ & H).
  apply H; [reflexivity|lia].
Defined.

(** ** Truncated files *)

(** C2 (counterexample): [straddling_file] is decoded successfully; cut after
    30 bytes, one byte into the saved checksum and so before the footer, it
    fails with [EXIT_CODE_BAD_PARSE], not with the code of a short file.
    [overrun_file_complete] is decoded successfully too; cut after 94 bytes,
    at the end of its page, it is [overrun_file], on which the decoder reads
    outside the buffer. *)
Lemma C2_counterexample :
  (exists w, decode straddling_file = Exited EXIT_CODE_OK w) /\
  30 < footerOffset straddling_file /\
  (exists w,
     decode (firstn 30 straddling_file) = Exited EXIT_CODE_BAD_PARSE w /\
     stderr w = cookie_diagnostic 0 0 " too short for cookie header" /\
     exit_value EXIT_CODE_BAD_PARSE <> exit_value EXIT_CODE_BAD_EOF) /\
  (exists w, decode overrun_file_complete = Exited EXIT_CODE_OK w) /\
  94 < footerOffset overrun_file_complete /\
  exists w, decode (firstn 94 overrun_file_complete) = Fault 94 w.
Proof.
  split; [eexists; vm_compute; reflexivity|]. split; [reflexivity|].
  split.
  { eexists. split; [vm_compute; reflexivity|]. split; [reflexivity|discriminate]. }
  split; [eexists; vm_compute; reflexivity|]. split; [reflexivity|].
  eexists. vm_compute. reflexivity.
Qed.

(** C2 (amended): for every file that is decoded successfully and every
    truncation of it strictly before the footer, the decoding of the truncated
    buffer never succeeds; when it returns, it returns the code of a short
    file, or [EXIT_CODE_BAD_PARSE] from the check of line 230 when the
    56-byte header of a cookie runs past the truncation. *)
Theorem C2_truncation_fails :
  forall mem w k,
    decode mem = Exited EXIT_CODE_OK w ->
    0 <= k < footerOffset mem ->
    truncated_failure (decode (firstn (Z.to_nat k) mem)) /\
    forall w', decode (firstn (Z.to_nat k) mem) <> Exited EXIT_CODE_OK w'.
Proof.
  intros mem w k Hdec Hk.
  assert (Hmain : truncated_failure (decode (firstn (Z.to_nat k) mem))).
  { apply decode_OK in Hdec.
    destruct Hdec as (Hok & st & w1 & Hrun & Hat & Hlen & _).
    pose proof (header_ok_bounds mem Hok) as Htab.
    pose proof (pageCountOf_range mem) as Hpc.
    unfold footerOffset in Hk.
    set (T := firstn (Z.to_nat k) mem). set (tl := skipn (Z.to_nat k) mem).
    assert (Hmem : mem = T ++ tl) by (symmetry; apply firstn_skipn).
    assert (HT : file_length T = k).
    { unfold T, file_length. rewrite length_firstn. unfold file_length in Hlen. lia. }
    unfold header_ok in Hok. apply andb_prop in Hok. destruct Hok as [Hok _].
    apply andb_prop in Hok. destruct Hok as [_ Hmagic]. apply Z.eqb_eq in Hmagic.
    unfold decode, printCookiesFromMmap. rewrite run_bind, run_fileHeader. cbv zeta.
    destruct (Z.ltb_spec (file_length T) 8) as [|H8]; [cbn; auto|].
    rewrite Hmem in Hmagic. rewrite memcmp_value_prefix in Hmagic by (cbn; lia).
    rewrite Hmagic. cbn [negb Z.eqb].
    assert (Hcount : get32Hi T 4 = pageCountOf mem).
    { unfold pageCountOf. rewrite Hmem at 1. rewrite get32Hi_prefix by lia. reflexivity. }
    rewrite Hcount.
    destruct (Z.ltb_spec (file_length T) (8 + pageCountOf mem * 4)) as [|Hfit];
      [cbn; auto|].
    cbn [andThen]. rewrite run_bind.
    unfold pagesRun, state0, world1 in Hrun.
    assert (Hsim :=
      sim_pageLoop T tl (Z.to_nat (pageCountOf mem)) 0 0
        (mkPageState true 0 8 (8 + pageCountOf mem * 4))
        (put_out opening (log_reads (span 0 8) world0)) st w1).
    rewrite <- Hmem in Hsim.
    destruct Hsim as [E|E];
      [lia|exact Hfit|apply at_page_state0|cbn [pageStart]; lia|reflexivity|exact Hrun| |].
    - rewrite E. cbn [andThen].
      destruct Hat as (_ & Hpb & _). fold (pagesEnd mem) in Hpb.
      pose proof (pageStart_ge mem (Z.to_nat (pageCountOf mem))) as Hge.
      fold (pagesEnd mem) in Hge.
      rewrite Hpb, run_fileTrailer by lia.
      destruct (Z.ltb_spec (file_length T) (pagesEnd mem + 12)); [cbn; auto|lia].
    - apply truncated_failure_andThen, E. }
  split; [exact Hmain|].
  intros w' E. rewrite E in Hmain. cbn in Hmain.
  destruct Hmain as [Hc|[Hc _]]; discriminate.
Qed.

(** [straddling_file] cut after 30 bytes, as an instance. *)
Lemma C2_witness :
  truncated_failure (decode (firstn (Z.to_nat 30) straddling_file)) /\
  forall w', decode (firstn (Z.to_nat 30) straddling_file) <> Exited EXIT_CODE_OK w'.
Proof.
  eapply (C2_truncation_fails straddling_file).
  - vm_compute. reflexivity.
  - split; [lia|reflexivity].
Defined.

(** * Further properties of the code *)

(** ** The strings that [emitJsonString] writes *)

Lemma json_unescape_char b r :
  json_unescape (json_char b ++ r) = option_map (cons b) (json_unescape r).
Proof. destruct b; reflexivity. Qed.

Lemma json_unescape_text s : json_unescape (flat_map json_char s) = Some s.
Proof.
  induction s as [|b s IH]; cbn [flat_map]; [reflexivity|].
  rewrite json_unescape_char, IH. reflexivity.
Qed.

Lemma json_char_printable b : Forall (fun c => 32 <= u8 c) (json_char b).
Proof. destruct b; repeat constructor; cbv; discriminate. Qed.

Lemma json_char_plain b : plain_byte b -> json_char b = [b].
Proof.
  unfold plain_byte. destruct b; cbv; intros (H1 & H2 & H3);
    try reflexivity; exfalso; (apply H1; reflexivity) || (apply H2; reflexivity) ||
    (apply H3; reflexivity).
Qed.

(** The scan of [emitJsonString] in closed form: up to the first NUL, or to
    the end of [rest] when it holds none. *)
Lemma scan_cstring mem {A : Type} (k : world -> outcome A) rest : forall cursor w,
  scan (fun b => run mem (emitJsonStringChar b)) k rest cursor w =
    match cstring_of rest with
    | Some s =>
        k (mkWorld (stdout w ++ flat_map json_char s) (stderr w)
             (reads w ++ span cursor (S (List.length s))))
    | None =>
        Fault (cursor + Z.of_nat (List.length rest))
          (mkWorld (stdout w ++ flat_map json_char rest) (stderr w)
             (reads w ++ span cursor (S (List.length rest))))
    end.
Proof.
  induction rest as [|b rest IH]; intros cursor w; cbn [scan cstring_of].
  - cbn [List.length flat_map span Z.of_nat]. rewrite Z.add_0_r, app_nil_r. reflexivity.
  - destruct (u8 b =? 0).
    + cbn [List.length flat_map span]. rewrite app_nil_r. reflexivity.
    + rewrite run_emitJsonStringChar, IH.
      cbn [put_out log_read stdout stderr reads].
      destruct (cstring_of rest) as [s|]; cbn [option_map List.length flat_map span].
      * rewrite <- !app_assoc. reflexivity.
      * rewrite <- !app_assoc. cbn [app]. f_equal. lia.
Qed.

Lemma suffix_length mem p :
  0 <= p -> p + Z.of_nat (List.length (suffix mem p)) = Z.max p (file_length mem).
Proof.
  intros Hp. unfold suffix, file_length.
  destruct (Z.ltb_spec p 0); [lia|]. rewrite length_skipn. lia.
Qed.

(** X1: [emitJsonString] on a pointer into the buffer.  When a NUL follows
    the pointer it completes, having written the bytes before the NUL in
    their JSON form between two quotation marks and having read those bytes
    and the NUL, and nothing else.  When none follows it does not stop at the
    end of the buffer: it writes the form of every byte up to there and then
    reads the first offset after the buffer. *)
Theorem emitJsonString_buffer mem p w :
  0 <= p ->
  run mem (emitJsonString (Mapped p)) w =
    match cstringAt mem p with
    | Some s =>
        Done tt (mkWorld (stdout w ++ json_string s) (stderr w)
                   (reads w ++ span p (S (List.length s))))
    | None =>
        Fault (Z.max p (file_length mem))
          (mkWorld (stdout w ++ x22 :: flat_map json_char (suffix mem p)) (stderr w)
             (reads w ++ span p (S (List.length (suffix mem p)))))
    end.
Proof.
  intros Hp. unfold emitJsonString, cstringAt. cbn [bind putchar run].
  rewrite scan_cstring. unfold put_out. cbn [stdout stderr reads].
  destruct (cstring_of (suffix mem p)) as [s|].
  - unfold json_string. cbn [run]. unfold put_out. cbn [stdout stderr reads].
    rewrite <- !app_assoc. reflexivity.
  - rewrite suffix_length by exact Hp. rewrite <- !app_assoc. reflexivity.
Qed.

(** A string with a control character and a quotation mark, and a buffer
    that ends inside a string. *)
Lemma emitJsonString_buffer_witness :
  run [x61; x0a; x22; x00; x62] (emitJsonString (Mapped 0)) world0 =
    Done tt (mkWorld (x22 :: x61 :: bytes "\n\" ++ [x22; x22]) [] [0; 1; 2; 3]) /\
  run [x00; x62; x63] (emitJsonString (Mapped 1)) world0 =
    Fault 3 (mkWorld (x22 :: bytes "bc") [] [1; 2; 3]).
Proof.
  split.
  - apply (emitJsonString_buffer [x61; x0a; x22; x00; x62] 0 world0). lia.
  - apply (emitJsonString_buffer [x00; x62; x63] 1 world0). lia.
Defined.

(** X2: the text that [emitJsonString] writes for a string of the buffer
    reads back, by the rules of RFC 8259, as the bytes of that string: the
    escaping loses nothing and adds nothing, whatever the bytes are. *)
Theorem emitJsonString_round_trip mem p w w' :
  run mem (emitJsonString (Mapped p)) w = Done tt w' ->
  exists s t,
    cstringAt mem p = Some s /\
    stdout w' = stdout w ++ [x22] ++ t ++ [x22] /\
    json_unescape t = Some s.
Proof.
  intros H. apply emitJsonString_Mapped_Done in H. destruct H as (s & Hs & Hout).
  exists s, (flat_map json_char s). split; [exact Hs|]. split.
  - rewrite Hout. reflexivity.
  - apply json_unescape_text.
Qed.

Lemma emitJsonString_round_trip_witness :
  exists s t,
    cstringAt [x61; x0a; x22; x00; x62] 0 = Some s /\
    stdout (mkWorld (x22 :: x61 :: bytes "\n\" ++ [x22; x22]) [] [0; 1; 2; 3]) =
      stdout world0 ++ [x22] ++ t ++ [x22] /\
    json_unescape t = Some s.
Proof.
  apply (emitJsonString_round_trip [x61; x0a; x22; x00; x62] 0 world0).
  reflexivity.
Defined.

(** X3: no byte that [emitJsonString] writes for a string of the buffer is a
    control character, and a string of bytes that are neither control
    characters, quotation marks nor reverse solidi is written as it is, bytes
    above 0x7F and DEL included: nothing is transcoded. *)
Theorem emitJsonString_bytes s :
  Forall (fun c => 32 <= u8 c) (json_string s) /\
  (Forall plain_byte s -> json_string s = [x22] ++ s ++ [x22]).
Proof.
  unfold json_string. split.
  - constructor; [cbv; discriminate|]. apply Forall_app. split.
    + apply Forall_flat_map. apply Forall_forall. intros b _. apply json_char_printable.
    + constructor; [cbv; discriminate|constructor].
  - intros H. cbn [app]. do 2 f_equal.
    induction H as [|b l Hb _ IH]; cbn [flat_map]; [reflexivity|].
    rewrite (json_char_plain b Hb), IH. reflexivity.
Qed.

Lemma emitJsonString_bytes_witness :
  json_string [x7f; xe9; x2f] = [x22] ++ [x7f; xe9; x2f] ++ [x22].
Proof.
  apply (emitJsonString_bytes [x7f; xe9; x2f]).
  repeat constructor; cbv; discriminate.
Defined.

(** ** The document of a file that is decoded successfully *)

Lemma objects_text_app first l1 l2 :
  objects_text first (l1 ++ l2) =
  objects_text first l1 ++ objects_text (first && is_nil l1) l2.
Proof.
  revert first. induction l1 as [|t l1 IH]; intros first; cbn [app objects_text is_nil].
  - rewrite andb_true_r. reflexivity.
  - rewrite IH, andb_false_r. cbn [andb]. rewrite <- !app_assoc. reflexivity.
Qed.

Lemma is_nil_map {A B : Type} (f : A -> B) l : is_nil (map f l) = is_nil l.
Proof. destruct l; reflexivity. Qed.

(** The object of a record, when its emission completes. *)
Lemma emitCookieObject_Done mem cb w w' :
  run mem (emitCookieObject cb (headerAt mem cb)) w = Done tt w' ->
  stdout w' = stdout w ++ object_at mem cb.
Proof.
  intros H. unfold emitCookieObject in H.
  rewrite run_bind in H. cbn [run emitJsonBeginObject putchar andThen] in H.
  rewrite run_bind, run_emitJsonNamedValueInt in H. cbn [andThen] in H.
  rewrite run_bind, run_emitJsonSeparatedNamedValueInt in H. cbn [andThen] in H.
  cbn [headerAt version flags domain name path value comment commentUrl expiry creation] in H.
  do 6 (rewrite run_bind in H;
        match type of H with
        | andThen (run mem ?p ?w0) _ = _ =>
            let E := fresh "E" in
            destruct (run mem p w0) as [[] ?w| |] eqn:E; try discriminate;
            apply emitJsonOptional_Done in E;
            [|apply get32Lo_range|reflexivity]; cbn [andThen] in H
        end).
  rewrite run_bind, run_emitJsonSeparatedNamedValueDouble in H. cbn [andThen] in H.
  rewrite run_bind, run_emitJsonSeparatedNamedValueDouble in H. cbn [andThen] in H.
  cbn [run emitJsonEndObject putchar] in H.
  destruct E as [E _], E0 as [E0 _], E1 as [E1 _], E2 as [E2 _], E3 as [E3 _],
    E4 as [E4 _].
  assert (Hw : stdout w' =
               stdout (put_out [x7d]
                 (put_out (bytes "," ++ json_name "creation" ++ bytes ":" ++
                           printf_17lg (get64Lo mem (cb + 48)))
                    (put_out (bytes "," ++ json_name "expiry" ++ bytes ":" ++
                              printf_17lg (get64Lo mem (cb + 40))) w5))))
    by congruence.
  rewrite Hw. cbn [put_out stdout] in *. rewrite E4, E3, E2, E1, E0, E.
  unfold object_at, cookie_text.
  cbn [headerAt version flags domain name path value comment commentUrl expiry creation].
  change (json_name "version") with (quoted "version").
  change (json_name "flags") with (quoted "flags").
  change (json_name "expiry") with (quoted "expiry").
  change (json_name "creation") with (quoted "creation").
  change [x7b] with (bytes "{"). change [x7d] with (bytes "}").
  rewrite <- !app_assoc. reflexivity.
Qed.

Lemma emitCookieObject_strings mem cb w w' :
  run mem (emitCookieObject cb (headerAt mem cb)) w = Done tt w' -> strings_end mem cb.
Proof.
  intros H. unfold emitCookieObject in H.
  rewrite run_bind in H. cbn [run emitJsonBeginObject putchar andThen] in H.
  rewrite run_bind, run_emitJsonNamedValueInt in H. cbn [andThen] in H.
  rewrite run_bind, run_emitJsonSeparatedNamedValueInt in H. cbn [andThen] in H.
  cbn [headerAt version flags domain name path value comment commentUrl expiry creation] in H.
  do 6 (rewrite run_bind in H;
        match type of H with
        | andThen (run mem ?p ?w0) _ = _ =>
            let E := fresh "E" in
            destruct (run mem p w0) as [[] ?w| |] eqn:E; try discriminate;
            apply emitJsonOptional_Done in E;
            [|apply get32Lo_range|reflexivity]; cbn [andThen] in H
        end).
  destruct E as [_ Hd], E0 as [_ Hn], E1 as [_ Hp], E2 as [_ Hv], E3 as [_ Hc],
    E4 as [_ Hu].
  intros key off Hin.
  cbn [string_fields headerAt domain name path value comment commentUrl In] in Hin.
  destruct Hin as [Hin|[Hin|[Hin|[Hin|[Hin|[Hin|[]]]]]]];
    apply (f_equal snd) in Hin; cbn [snd] in Hin; subst off; assumption.
Qed.

(** What the checks of a record have established when they let it through,
    and what has been written then. *)
Lemma checkCookie_Done mem pageEnd pageIdx cookieIdx cb first w f w' :
  run mem (checkCookie pageEnd pageIdx cookieIdx cb (headerAt mem cb) first) w = Done f w' ->
  let h := headerAt mem cb in
  f = false /\
  cb + cookieSize h <= pageEnd /\
  (exists z, peek mem (cb + cookieSize h - 1) = Some z /\ u8 z = 0) /\
  (forall key off, In (key, off) (string_fields h) -> off <= cookieSize h) /\
  strings_end mem cb /\
  stdout w' = stdout w ++ (if first then [] else bytes ",") ++ object_at mem cb.
Proof.
  intros H h. unfold checkCookie in H. fold h in H.
  destruct (Z.ltb_spec pageEnd (cb + cookieSize h)) as [Hpe|Hpe]; [discriminate|].
  cbn [bind load run] in H.
  destruct (peek mem (cb + cookieSize h - 1)) as [z|] eqn:Ez; [|discriminate].
  destruct (Z.eqb_spec 0 (u8 z)) as [Hz|Hz]; cbn [negb] in H; [|discriminate].
  destruct (Z.ltb_spec (cb + cookieSize h) (cb + domain h)); [discriminate|].
  destruct (Z.ltb_spec (cb + cookieSize h) (cb + name h)); [discriminate|].
  destruct (Z.ltb_spec (cb + cookieSize h) (cb + path h)); [discriminate|].
  destruct (Z.ltb_spec (cb + cookieSize h) (cb + value h)); [discriminate|].
  destruct (Z.ltb_spec (cb + cookieSize h) (cb + comment h)); [discriminate|].
  destruct (Z.ltb_spec (cb + cookieSize h) (cb + commentUrl h)); [discriminate|].
  rewrite run_bind in H.
  assert (Hsep : run mem (if first then Ret tt else emitJsonValueSeparator)
                   (log_read (cb + cookieSize h - 1) w) =
                 Done tt (put_out (if first then [] else bytes ",")
                            (log_read (cb + cookieSize h - 1) w))).
  { destruct first; [cbn [run]; rewrite put_out_nil|]; reflexivity. }
  rewrite Hsep in H. cbn [andThen] in H. rewrite run_bind in H.
  destruct (run mem (emitCookieObject cb h) _) as [[] w2| |] eqn:E; try discriminate.
  cbn [andThen run] in H. pose proof (emitCookieObject_strings _ _ _ _ E) as Hstr.
  apply emitCookieObject_Done in E.
  split; [congruence|]. split; [lia|]. split; [exists z; auto|].
  split; [|split; [exact Hstr|]].
  - intros key off Hin. cbn [string_fields In] in Hin.
    destruct Hin as [Hin|[Hin|[Hin|[Hin|[Hin|[Hin|[]]]]]]];
      apply (f_equal snd) in Hin; cbn [snd] in Hin; lia.
  - assert (Hw : w' = w2) by congruence. rewrite Hw, E.
    cbn [put_out log_read stdout]. rewrite <- app_assoc. reflexivity.
Qed.

Lemma processCookie_Done mem pb pageEnd pageIdx cookieIdx cob first w r w' :
  in_bounds mem cob 4 -> 0 <= pb ->
  run mem (processCookie (file_length mem) pb pageEnd pageIdx cookieIdx cob first) w =
    Done r w' ->
  let cb := pb + get32Lo mem cob in
  r = (cob + 4, false) /\ record_ok mem pageEnd cb /\ strings_end mem cb /\
  stdout w' = stdout w ++ (if first then [] else bytes ",") ++ object_at mem cb.
Proof.
  intros Hcob Hpb H cb. rewrite run_processCookie in H by assumption.
  cbv zeta in H. fold cb in H.
  destruct (Z.ltb_spec (file_length mem) (cb + 56)) as [Hlen|Hlen]; [discriminate|].
  destruct (run mem (checkCookie _ _ _ _ _ _) _) as [f w2| |] eqn:E; try discriminate.
  cbn [andThen] in H. apply checkCookie_Done in E. cbv zeta in E.
  destruct E as (-> & Hend & Hz & Hoff & Hstr & Hout).
  split; [congruence|]. split; [|split; [exact Hstr|]].
  - unfold record_ok. auto.
  - assert (Hw : w' = w2) by congruence. rewrite Hw, Hout. reflexivity.
Qed.

Lemma cookieLoop_Done mem pb pageEnd pageIdx n : forall cookieIdx cob first w r w',
  in_bounds mem cob (4 * Z.of_nat n) -> 0 <= pb ->
  run mem (cookieLoop (file_length mem) pb pageEnd pageIdx n cookieIdx cob first) w =
    Done r w' ->
  let l := cookieBasesFrom mem pb cob n in
  snd r = first && is_nil l /\
  Forall (record_ok mem pageEnd) l /\ Forall (strings_end mem) l /\
  stdout w' = stdout w ++ objects_text first (map (object_at mem) l).
Proof.
  induction n as [|n IH]; intros cookieIdx cob first w r w' Hcob Hpb H;
    cbn [cookieLoop cookieBasesFrom] in *; cbv zeta.
  - cbn [run] in H. injection H as <- <-.
    cbn [snd is_nil map objects_text]. rewrite andb_true_r, app_nil_r. auto.
  - rewrite run_bind in H.
    destruct (run mem (processCookie _ _ _ _ _ _ _) w) as [[cob1 first1] w1| |] eqn:E;
      try discriminate.
    cbn [andThen] in H.
    apply processCookie_Done in E; [|unfold in_bounds in *; lia|exact Hpb].
    cbv zeta in E. destruct E as (Er & Hrec & Hstr & Hout).
    injection Er as -> ->.
    apply IH in H; [|unfold in_bounds in *; lia|exact Hpb].
    cbv zeta in H. destruct H as (Hf & Hall & Hstrs & Hout').
    cbn [is_nil map objects_text]. rewrite andb_false_r.
    split; [exact Hf|]. split; [constructor; assumption|].
    split; [constructor; assumption|].
    rewrite Hout', Hout, <- !app_assoc. reflexivity.
Qed.

Lemma processPage_Done_page mem pageIdx i st w st' w' :
  (i < Z.to_nat (pageCountOf mem))%nat ->
  8 + pageCountOf mem * 4 <= file_length mem ->
  at_page mem i st ->
  run mem (processPage (file_length mem) pageIdx st) w = Done st' w' ->
  page_ok mem i /\ Forall (strings_end mem) (pageCookies mem i) /\
  first st' = first st && is_nil (pageCookies mem i) /\
  stdout w' = stdout w ++ objects_text (first st) (map (object_at mem) (pageCookies mem i)).
Proof.
  intros Hi Htab (Hpsb & Hpb & Hcs) H.
  pose proof (pageStart_ge mem i) as Hge. pose proof (pageCountOf_range mem) as Hpc.
  apply processPage_Done in H;
    [|unfold in_bounds; rewrite Hpsb; lia|lia|rewrite Hcs; apply wrap32_range].
  cbv zeta in H. rewrite Hpb, Hpsb in H.
  destruct H as (Hsz & Hend & Htag & Hhe & Hterm & _ & _ & _ & r & w5 & Hloop & Hfirst & Hw).
  pose proof (get32Lo_range mem (pageStart mem i + 4)) as Hcc.
  apply cookieLoop_Done in Hloop; [|unfold in_bounds; lia|lia].
  cbv zeta in Hloop. destruct Hloop as (Hf & Hall & Hstrs & Hout).
  fold (pageSizeOf mem i) in *.
  change (pageStart mem i + pageSizeOf mem i) with (pageStart mem (S i)) in *.
  split; [|split; [exact Hstrs|split]].
  - unfold page_ok, cookieCountOf, pageCookies. cbv zeta. repeat (split; [assumption|]).
    exact Hall.
  - rewrite Hfirst. exact Hf.
  - rewrite Hw. cbn [log_reads stdout] in *. exact Hout.
Qed.

Lemma pagesRun_S_Done mem n st w :
  pagesRun mem (S n) = Done st w ->
  exists st0 w0,
    pagesRun mem n = Done st0 w0 /\
    run mem (processPage (file_length mem) (nextIdx n 0) st0) w0 = Done st w.
Proof.
  replace (S n) with (n + 1)%nat by lia. rewrite pagesRun_split. intros H.
  destruct (pagesRun mem n) as [st0 w0| |]; try discriminate. cbn [andThen] in H.
  exists st0, w0. split; [reflexivity|].
  destruct (run mem (processPage _ _ st0) w0) as [st1 w1| |]; try discriminate.
  cbn [andThen pageLoop run] in H. exact H.
Qed.

(** The pages that the page loop has gone through. *)
Lemma pagesRun_Done_pages mem n : forall st w,
  header_ok mem = true -> (n <= Z.to_nat (pageCountOf mem))%nat ->
  pagesRun mem n = Done st w ->
  (forall i, (i < n)%nat -> page_ok mem i) /\
  Forall (strings_end mem) (cookiesBefore mem n) /\
  first st = is_nil (cookiesBefore mem n) /\
  stdout w = opening ++ objects_text true (map (object_at mem) (cookiesBefore mem n)) /\
  stderr w = [].
Proof.
  induction n as [|n IH]; intros st w Hok Hn H.
  - unfold pagesRun in H. cbn [pageLoop run] in H. injection H as <- <-.
    cbn [cookiesBefore map objects_text is_nil state0 first world1 put_out log_reads
         stdout stderr world0]. rewrite app_nil_r.
    split; [intros i Hi; lia|]. split; [constructor|]. repeat split.
  - apply pagesRun_S_Done in H. destruct H as (st0 & w0 & H0 & Hp).
    destruct (IH st0 w0 Hok ltac:(lia) H0) as (Hpages & Hstrs & Hf & Hout & Herr).
    destruct (pagesRun_Done mem n st0 w0 Hok ltac:(lia) H0) as [Hat _].
    pose proof (Done_stderr true mem _ _ _ _ (tidy_processPage _ _ _ _) Hp) as Herr'.
    apply (processPage_Done_page mem _ n) in Hp;
      [|lia|apply header_ok_bounds; exact Hok|exact Hat].
    destruct Hp as (Hpage & Hstr & Hf' & Hout').
    cbn [cookiesBefore]. rewrite map_app, objects_text_app, is_nil_map.
    split; [|split; [|split; [|split]]].
    + intros i Hi. destruct (Nat.eq_dec i n) as [->|]; [exact Hpage|apply Hpages; lia].
    + apply Forall_app. auto.
    + rewrite Hf', Hf. destruct (cookiesBefore mem n); reflexivity.
    + rewrite Hout', Hout, Hf, <- app_assoc. reflexivity.
    + congruence.
Qed.

(** The checks that a successful decoding has gone through. *)
Lemma decode_OK_checks mem w :
  decode mem = Exited EXIT_CODE_OK w -> well_formed mem.
Proof.
  intros H. apply decode_OK in H.
  destruct H as (Hok & st & w1 & Hrun & Hat & Hlen & Hsum & Hfoot & Hplist & _).
  destruct (pagesRun_Done_pages mem _ st w1 Hok (Nat.le_refl _) Hrun)
    as (Hpages & Hstrs & _).
  unfold well_formed. split; [exact Hok|]. split; [exact Hpages|]. split; [exact Hstrs|].
  split; [|split; [exact Hfoot|exact Hplist]].
  destruct Hat as (_ & _ & Hcs). rewrite Hsum, Hcs. reflexivity.
Qed.

(** X4: the standard output of a successful decoding is the document of the
    file: the opening text, one object per record, the pages in the order of
    the page table and the records of a page in the order of its offset
    table, a comma before every object but the very first (also across pages
    and across pages without records), and the closing text; nothing is
    written to standard error. *)
Theorem decode_OK_document mem w :
  decode mem = Exited EXIT_CODE_OK w ->
  stdout w = document mem /\ stderr w = [].
Proof.
  intros H. apply decode_OK in H.
  destruct H as (Hok & st & w1 & Hrun & _ & _ & _ & _ & _ & ->).
  destruct (pagesRun_Done_pages mem _ st w1 Hok (Nat.le_refl _) Hrun)
    as (_ & _ & _ & Hout & Herr).
  cbn [put_out log_reads stdout stderr]. split; [|exact Herr].
  rewrite Hout. unfold document, cookiesOf. rewrite <- app_assoc. reflexivity.
Qed.

Lemma decode_OK_document_witness :
  stdout (world_of (decode scenario_file)) = document scenario_file /\
  stderr (world_of (decode scenario_file)) = [].
Proof.
  apply (decode_OK_document scenario_file (world_of (decode scenario_file))).
  vm_compute. reflexivity.
Defined.

(** ** Runs that do not leave the buffer *)

Lemma emitJsonOptional_run mem cb off key w :
  0 <= off < 2 ^ 32 ->
  (off <> 0 -> forall w0, exists w', run mem (emitJsonString (Mapped (cb + off))) w0 = Done tt w') ->
  exists w', run mem (emitJsonOptionalSeparatedNamedValueString (to_int off) key (cb + off)) w =
               Done tt w'.
Proof.
  intros Hoff Hs. unfold emitJsonOptionalSeparatedNamedValueString.
  rewrite to_int_zero by exact Hoff.
  destruct (Z.eqb_spec off 0) as [->|Hne]; cbn [negb].
  - eexists. reflexivity.
  - unfold emitJsonValueSeparator, emitJsonNameSeparator.
    rewrite run_bind. cbn [run putchar andThen].
    rewrite run_bind, run_emitJsonString_Literal. cbn [andThen].
    rewrite run_bind. cbn [run putchar andThen]. apply Hs, Hne.
Qed.

Lemma emitCookieObject_run mem cb :
  (forall key off, In (key, off) (string_fields (headerAt mem cb)) -> off <> 0 ->
     forall w0, exists w', run mem (emitJsonString (Mapped (cb + off))) w0 = Done tt w') ->
  forall w, exists w', run mem (emitCookieObject cb (headerAt mem cb)) w = Done tt w'.
Proof.
  intros Hs w. unfold emitCookieObject.
  rewrite run_bind. cbn [run emitJsonBeginObject putchar andThen].
  rewrite run_bind, run_emitJsonNamedValueInt. cbn [andThen].
  rewrite run_bind, run_emitJsonSeparatedNamedValueInt. cbn [andThen].
  cbn [string_fields headerAt version flags domain name path value comment commentUrl expiry
       creation] in *.
  do 6 (rewrite run_bind;
        match goal with
        | |- exists w', andThen (run mem (emitJsonOptionalSeparatedNamedValueString _ ?key
                                           (cb + ?off)) ?w0) _ = _ =>
            let E := fresh "E" in
            destruct (emitJsonOptional_run mem cb off key w0 (get32Lo_range _ _)
                        (Hs key off ltac:(cbn [In]; repeat (try (left; reflexivity); right)))) as [? E];
            rewrite E; cbn [andThen]
        end).
  rewrite run_bind, run_emitJsonSeparatedNamedValueDouble. cbn [andThen].
  rewrite run_bind, run_emitJsonSeparatedNamedValueDouble. cbn [andThen].
  cbn [run emitJsonEndObject putchar]. eexists. reflexivity.
Qed.

Lemma strings_end_emits mem pageEnd cb : strings_end mem cb -> emits_checked mem pageEnd cb.
Proof.
  intros Hs _. apply emitCookieObject_run. intros key off Hin Hne w0.
  destruct (Hs key off Hin Hne) as [s Es].
  unfold emitJsonString. cbn [bind putchar run]. rewrite scan_cstring.
  unfold cstringAt in Es. rewrite Es. cbn [run]. eexists. reflexivity.
Qed.

Lemma string_fields_range mem cb key off :
  In (key, off) (string_fields (headerAt mem cb)) -> 0 <= off < 2 ^ 32.
Proof.
  cbn [string_fields headerAt domain name path value comment commentUrl In].
  intros [H|[H|[H|[H|[H|[H|[]]]]]]]; apply (f_equal snd) in H; cbn [snd] in H; subst off;
    apply get32Lo_range.
Qed.

Lemma strict_emits mem pageEnd cb :
  0 <= cb -> strict_offsets mem cb -> emits_checked mem pageEnd cb.
Proof.
  intros Hcb Hs (_ & _ & Hz & Hoff). apply emitCookieObject_run. intros key off Hin Hne w0.
  pose proof (string_fields_range mem cb key off Hin) as Hr.
  pose proof (Hoff key off Hin) as Hle. pose proof (Hs key off Hin Hne) as Hneq.
  destruct (emitJsonString_in_record mem (cb + off) _ w0 Hz ltac:(lia)) as (w' & n & E & _).
  exists w'. exact E.
Qed.

(** The checks of a record and its emission. *)
Lemma checkCookie_settles mem pageEnd pageIdx cookieIdx cb first w :
  1 <= cb -> pageEnd <= file_length mem -> cb + 56 <= file_length mem ->
  emits_checked mem pageEnd cb ->
  settles (record_ok mem pageEnd cb)
    (run mem (checkCookie pageEnd pageIdx cookieIdx cb (headerAt mem cb) first) w).
Proof.
  intros Hcb Hpe Hhd Hem. unfold emits_checked, record_ok in *. cbv zeta in *.
  unfold checkCookie.
  pose proof (get32Lo_range mem cb) as Hsz.
  change (get32Lo mem cb) with (cookieSize (headerAt mem cb)) in Hsz.
  remember (headerAt mem cb) as h eqn:Eh. clear Eh.
  destruct (Z.ltb_spec pageEnd (cb + cookieSize h)) as [Hlt|Hge].
  { cbn [run bind fprintf_stderr settles]. split; [discriminate|]. intros (_ & H & _). lia. }
  cbn [bind load run].
  destruct (peek_in_bounds mem (cb + cookieSize h - 1) ltac:(lia)) as [z Ez]. rewrite Ez.
  destruct (Z.eqb_spec 0 (u8 z)) as [Hz|Hz]; cbn [negb].
  2:{ cbn [run bind fprintf_stderr settles]. split; [discriminate|].
      intros (_ & _ & (z' & Ez' & Hz') & _). congruence. }
  destruct (Z.ltb_spec (cb + cookieSize h) (cb + domain h)) as [H1|H1].
  { cbn [run bind fprintf_stderr settles]. split; [discriminate|].
    intros (_ & _ & _ & Hx).
    specialize (Hx "domain"%string (domain h) ltac:(cbn [string_fields In]; auto 8)). lia. }
  destruct (Z.ltb_spec (cb + cookieSize h) (cb + name h)) as [H2|H2].
  { cbn [run bind fprintf_stderr settles]. split; [discriminate|].
    intros (_ & _ & _ & Hx).
    specialize (Hx "name"%string (name h) ltac:(cbn [string_fields In]; auto 8)). lia. }
  destruct (Z.ltb_spec (cb + cookieSize h) (cb + path h)) as [H3|H3].
  { cbn [run bind fprintf_stderr settles]. split; [discriminate|].
    intros (_ & _ & _ & Hx).
    specialize (Hx "path"%string (path h) ltac:(cbn [string_fields In]; auto 8)). lia. }
  destruct (Z.ltb_spec (cb + cookieSize h) (cb + value h)) as [H4|H4].
  { cbn [run bind fprintf_stderr settles]. split; [discriminate|].
    intros (_ & _ & _ & Hx).
    specialize (Hx "value"%string (value h) ltac:(cbn [string_fields In]; auto 8)). lia. }
  destruct (Z.ltb_spec (cb + cookieSize h) (cb + comment h)) as [H5|H5].
  { cbn [run bind fprintf_stderr settles]. split; [discriminate|].
    intros (_ & _ & _ & Hx).
    specialize (Hx "comment"%string (comment h) ltac:(cbn [string_fields In]; auto 8)). lia. }
  destruct (Z.ltb_spec (cb + cookieSize h) (cb + commentUrl h)) as [H6|H6].
  { cbn [run bind fprintf_stderr settles]. split; [discriminate|].
    intros (_ & _ & _ & Hx).
    specialize (Hx "commentUrl"%string (commentUrl h) ltac:(cbn [string_fields In]; auto 8)). lia. }
  rewrite run_bind.
  assert (Hsep : run mem (if first then Ret tt else emitJsonValueSeparator)
                   (log_read (cb + cookieSize h - 1) w) =
                 Done tt (put_out (if first then [] else bytes ",")
                            (log_read (cb + cookieSize h - 1) w))).
  { destruct first; [cbn [run]; rewrite put_out_nil|]; reflexivity. }
  rewrite Hsep. cbn [andThen]. rewrite run_bind.
  destruct (Hem) with (w := put_out (if first then [] else bytes ",")
                              (log_read (cb + cookieSize h - 1) w)) as [w' E].
  { split; [lia|]. split; [lia|]. split; [exists z; auto|].
    intros key off Hin. cbn [string_fields In] in Hin.
    destruct Hin as [Hin|[Hin|[Hin|[Hin|[Hin|[Hin|[]]]]]]];
      apply (f_equal snd) in Hin; cbn [snd] in Hin; lia. }
  rewrite E. cbn [andThen run settles]. exact I.
Qed.

Lemma settles_weaken {A : Type} (P Q : Prop) (r : outcome A) :
  (Q -> P) -> settles P r -> settles Q r.
Proof. intros HPQ. destruct r; cbn [settles]; tauto. Qed.

Lemma processCookie_settles mem pb pageEnd pageIdx cookieIdx cob first w :
  in_bounds mem cob 4 -> 1 <= pb -> pageEnd <= file_length mem ->
  emits_checked mem pageEnd (pb + get32Lo mem cob) ->
  settles (record_ok mem pageEnd (pb + get32Lo mem cob))
    (run mem (processCookie (file_length mem) pb pageEnd pageIdx cookieIdx cob first) w).
Proof.
  intros Hcob Hpb Hpe Hem. rewrite run_processCookie by (assumption || lia). cbv zeta.
  pose proof (get32Lo_range mem cob) as Hoff.
  destruct (Z.ltb_spec (file_length mem) (pb + get32Lo mem cob + 56)) as [Hlt|Hge].
  - cbn [settles]. split; [discriminate|]. intros (H & _). lia.
  - pose proof (checkCookie_settles mem pageEnd pageIdx cookieIdx (pb + get32Lo mem cob)
                  first (log_reads (span (pb + get32Lo mem cob) 56)
                           (log_reads (span cob 4) w)) ltac:(lia) Hpe Hge Hem) as Hs.
    destruct (run mem (checkCookie _ _ _ _ _ _) _); cbn [andThen settles] in *; auto.
Qed.

Lemma cookieLoop_settles mem pb pageEnd pageIdx n : forall cookieIdx cob first w,
  in_bounds mem cob (4 * Z.of_nat n) -> 1 <= pb -> pageEnd <= file_length mem ->
  Forall (emits_checked mem pageEnd) (cookieBasesFrom mem pb cob n) ->
  settles (Forall (record_ok mem pageEnd) (cookieBasesFrom mem pb cob n))
    (run mem (cookieLoop (file_length mem) pb pageEnd pageIdx n cookieIdx cob first) w).
Proof.
  induction n as [|n IH]; intros cookieIdx cob first w Hcob Hpb Hpe Hem;
    cbn [cookieLoop cookieBasesFrom] in *.
  - exact I.
  - inversion Hem as [|cb l Hem1 Hem2]; subst. rewrite run_bind.
    assert (Hcob4 : in_bounds mem cob 4) by (unfold in_bounds in *; lia).
    pose proof (processCookie_settles mem pb pageEnd pageIdx cookieIdx cob first w Hcob4 Hpb
                  Hpe Hem1) as Hs.
    destruct (run mem (processCookie _ _ _ _ _ _ _) w) as [r w1| |] eqn:E;
      cbn [andThen settles] in *.
    + apply processCookie_Done in E; [|exact Hcob4|lia]. cbv zeta in E.
      destruct E as (-> & _).
      eapply settles_weaken; [|apply IH; try assumption; unfold in_bounds in *; lia].
      intros H. inversion H; assumption.
    + split; [tauto|]. intros H. inversion H. tauto.
    + exact Hs.
Qed.

Lemma processPage_settles mem pageIdx i st w :
  (i < Z.to_nat (pageCountOf mem))%nat ->
  8 + pageCountOf mem * 4 <= file_length mem ->
  at_page mem i st ->
  Forall (emits_checked mem (pageStart mem (S i))) (pageCookies mem i) ->
  settles (page_ok mem i) (run mem (processPage (file_length mem) pageIdx st) w).
Proof.
  intros Hi Htab (Hpsb & Hpb & Hcs) Hem.
  pose proof (pageStart_ge mem i) as Hge. pose proof (pageCountOf_range mem) as Hpc.
  pose proof (pageSizeOf_range mem i) as Hsz.
  pose proof (get32Lo_range mem (pageStart mem i + 4)) as Hcc.
  rewrite run_processPage by (unfold in_bounds; rewrite ?Hpsb, ?Hpb; lia).
  cbv zeta. rewrite Hpsb, Hpb. fold (pageSizeOf mem i).
  change (pageStart mem i + pageSizeOf mem i) with (pageStart mem (S i)).
  unfold page_ok, pageCookies, cookieCountOf in *. cbv zeta.
  destruct (Z.ltb_spec (file_length mem) (pageStart mem (S i))) as [H1|H1].
  { cbn [settles]. split; [discriminate|]. intros (_ & H & _). lia. }
  destruct (Z.ltb_spec (pageSizeOf mem i) 8) as [H2|H2].
  { cbn [settles]. split; [discriminate|]. intros (H & _). lia. }
  destruct (Z.eqb_spec (memcmp_value mem (pageStart mem i) COOKIE_PAGE_TAG) 0) as [H3|H3];
    cbn [negb].
  2:{ cbn [settles]. split; [discriminate|]. intros (_ & _ & H & _). contradiction. }
  destruct (Z.ltb_spec (pageStart mem (S i))
              (pageStart mem i + 8 + get32Lo mem (pageStart mem i + 4) * 4 + 4)) as [H4|H4].
  { cbn [settles]. split; [discriminate|]. intros (_ & _ & _ & H & _). lia. }
  destruct (Z.eqb_spec (memcmp_value mem
                          (pageStart mem i + 8 + get32Lo mem (pageStart mem i + 4) * 4)
                          COOKIE_PAGE_HEADER_END) 0) as [H5|H5]; cbn [negb].
  2:{ cbn [settles]. split; [discriminate|]. intros (_ & _ & _ & _ & H & _). contradiction. }
  match goal with
  | |- settles _ (andThen (run mem (cookieLoop ?a ?b ?c ?d ?n ?e ?f ?g) ?w0) _) =>
      pose proof (cookieLoop_settles mem b c d n e f g w0) as Hs
  end.
  specialize (Hs ltac:(unfold in_bounds; lia) ltac:(lia) H1 Hem).
  destruct (run mem (cookieLoop _ _ _ _ _ _ _ _) _) as [r w5| |]; cbn [andThen settles] in *.
  - rewrite checksumLoop_fuel;
      [|cbn [pageStart]; lia|lia|exact H1|rewrite Hcs; apply wrap32_range].
    exact I.
  - split; [tauto|]. intros (_ & _ & _ & _ & _ & H). tauto.
  - exact Hs.
Qed.

Lemma pagesRun_settles mem n :
  header_ok mem = true -> (n <= Z.to_nat (pageCountOf mem))%nat ->
  (forall i, (i < n)%nat ->
     Forall (emits_checked mem (pageStart mem (S i))) (pageCookies mem i)) ->
  settles (forall i, (i < n)%nat -> page_ok mem i) (pagesRun mem n).
Proof.
  intros Hok. induction n as [|n IH]; intros Hn Hem.
  - exact I.
  - replace (S n) with (n + 1)%nat by lia. rewrite pagesRun_split.
    specialize (IH ltac:(lia) (fun i Hi => Hem i ltac:(lia))).
    destruct (pagesRun mem n) as [st0 w0| |] eqn:E0; cbn [andThen settles] in *.
    + destruct (pagesRun_Done mem n st0 w0 Hok ltac:(lia) E0) as [Hat _].
      pose proof (processPage_settles mem (nextIdx n 0) n st0 w0 ltac:(lia)
                    (header_ok_bounds mem Hok) Hat (Hem n ltac:(lia))) as Hs.
      destruct (run mem (processPage _ _ st0) w0) as [st1 w1| |];
        cbn [andThen settles pageLoop run] in *.
      * exact I.
      * split; [tauto|]. intros H. apply (proj2 Hs), H. lia.
      * exact Hs.
    + split; [tauto|]. intros H. apply (proj2 IH). intros i Hi. apply H. lia.
    + exact IH.
Qed.

Lemma pageCookies_before mem n i cb :
  (i < n)%nat -> In cb (pageCookies mem i) -> In cb (cookiesBefore mem n).
Proof.
  induction n as [|n IH]; intros Hi Hin; [lia|]. cbn [cookiesBefore]. apply in_or_app.
  destruct (Nat.eq_dec i n) as [->|]; [right; exact Hin|left; apply IH; [lia|exact Hin]].
Qed.

(** X5: memory safety.  Whatever the bytes of the buffer are, the decoder
    reads no offset outside it, provided that in no record a string field
    that is present has an offset equal to the size of the record (the one
    case that the checks of lines 259-281 let through although the string then
    starts after the record).  Damaged, truncated and hostile files included:
    the run ends with an exit code. *)
Theorem decode_stays_in_buffer mem :
  (forall i cb, (i < Z.to_nat (pageCountOf mem))%nat -> In cb (pageCookies mem i) ->
     strict_offsets mem cb) ->
  is_fault (decode mem) = false /\ exists c w, decode mem = Exited c w.
Proof.
  intros Hstrict.
  assert (Hmain : exists c w, decode mem = Exited c w).
  { destruct (header_ok mem) eqn:Hok.
    2:{ destruct (decode_header_not_ok mem Hok) as (c & s & l & E & _). eauto. }
    rewrite decode_header_ok by exact Hok.
    pose proof (pagesRun_settles mem (Z.to_nat (pageCountOf mem)) Hok (Nat.le_refl _)) as Hs.
    assert (Hem : forall i, (i < Z.to_nat (pageCountOf mem))%nat ->
              Forall (emits_checked mem (pageStart mem (S i))) (pageCookies mem i)).
    { intros i Hi. apply Forall_forall. intros cb Hin.
      assert (Hcb : 0 <= cb).
      { pose proof (pageStart_ge mem i) as Hge. pose proof (pageCountOf_range mem).
        unfold pageCookies in Hin.
        revert Hin. generalize (pageStart mem i + 8).
        induction (Z.to_nat (cookieCountOf mem i)) as [|n IH]; intros cob Hin;
          cbn [cookieBasesFrom In] in Hin; [contradiction|].
        destruct Hin as [<-|Hin]; [|eapply IH; exact Hin].
        pose proof (get32Lo_range mem cob). lia. }
      apply strict_emits; [exact Hcb|]. eapply Hstrict; eassumption. }
    specialize (Hs Hem).
    destruct (pagesRun mem (Z.to_nat (pageCountOf mem))) as [st w1| |] eqn:E;
      cbn [andThen settles] in *; [|eauto|contradiction].
    destruct (pagesRun_Done mem _ st w1 Hok (Nat.le_refl _) E) as [(_ & Hpb & _) _].
    pose proof (pageStart_ge mem (Z.to_nat (pageCountOf mem))) as Hge.
    pose proof (pageCountOf_range mem).
    rewrite run_fileTrailer by lia.
    repeat match goal with |- context [if ?b then _ else _] => destruct b end; eauto. }
  split; [|exact Hmain]. destruct Hmain as (c & w & ->). reflexivity.
Qed.

Lemma decode_stays_in_buffer_witness :
  is_fault (decode scenario_file) = false /\ exists c w, decode scenario_file = Exited c w.
Proof.
  apply (decode_stays_in_buffer scenario_file).
  intros i cb Hi Hin key off Hf Hne.
  destruct i as [|i]; [|exfalso; vm_compute in Hi; lia].
  vm_compute in Hin. destruct Hin as [<-|[]].
  vm_compute in Hf.
  destruct Hf as [Hf|[Hf|[Hf|[Hf|[Hf|[Hf|[]]]]]]];
    apply (f_equal snd) in Hf; cbn [snd] in Hf; subst off; vm_compute; discriminate.
Defined.

(** A file that passes every check is decoded successfully, and what is
    written is its document. *)
Lemma well_formed_run mem :
  well_formed mem ->
  exists w, decode mem = Exited EXIT_CODE_OK w /\ stdout w = document mem /\ stderr w = [].
Proof.
  intros (Hok & Hpages & Hstrs & Hsum & Hfoot & Hlen).
  rewrite decode_header_ok by exact Hok.
  pose proof (pagesRun_settles mem (Z.to_nat (pageCountOf mem)) Hok (Nat.le_refl _)) as Hs.
  assert (Hem : forall i, (i < Z.to_nat (pageCountOf mem))%nat ->
            Forall (emits_checked mem (pageStart mem (S i))) (pageCookies mem i)).
  { intros i Hi. apply Forall_forall. intros cb Hin. apply strings_end_emits.
    rewrite Forall_forall in Hstrs. apply Hstrs.
    eapply pageCookies_before; eassumption. }
  specialize (Hs Hem).
  destruct (pagesRun mem (Z.to_nat (pageCountOf mem))) as [st w1| |] eqn:E;
    cbn [andThen settles] in *; [|tauto|contradiction].
  destruct (pagesRun_Done mem _ st w1 Hok (Nat.le_refl _) E) as [(_ & Hpb & Hcs) _].
  destruct (pagesRun_Done_pages mem _ st w1 Hok (Nat.le_refl _) E)
    as (_ & _ & _ & Hout & Herr).
  pose proof (pageStart_ge mem (Z.to_nat (pageCountOf mem))) as Hge.
  pose proof (pageCountOf_range mem).
  rewrite run_fileTrailer by lia. rewrite Hpb, Hcs.
  fold (pagesEnd mem) in *. unfold footerOffset, savedChecksum, fileChecksum in *.
  pose proof (get32Hi_range mem (pagesEnd mem + 8)).
  destruct (Z.ltb_spec (file_length mem) (pagesEnd mem + 12)); [lia|].
  destruct (Z.eqb_spec (get32Hi mem (pagesEnd mem)) (wrap32 (pagesSum mem (Z.to_nat (pageCountOf mem)))))
    as [_|Hne]; [|exfalso; apply Hne; exact Hsum].
  cbn [negb]. rewrite Hfoot. cbn [Z.eqb negb].
  destruct (Z.eqb_spec (file_length mem) (pagesEnd mem + 12 + get32Hi mem (pagesEnd mem + 8)));
    [|contradiction].
  cbn [negb]. eexists. split; [reflexivity|].
  cbn [put_out log_reads stdout stderr]. split; [|exact Herr].
  rewrite Hout. unfold document, cookiesOf.
  rewrite <- app_assoc. reflexivity.
Qed.

(** X6: the files that are decoded successfully are exactly the well-formed
    ones: the magic and the page table are in place; every page has its size,
    tag, offset table and terminator; of every record the 56-byte header fits
    in the buffer and the end fits in the page, the last byte is a NUL and
    none of the six string offsets exceeds the size of the record; every
    string that is present ends inside the buffer; the saved checksum is the
    sum of the lanes, the footer follows it, and the property list fills the
    rest of the file exactly.  Nothing else is required: neither that a
    record is at least as long as its header, nor that records lie apart. *)
Theorem decode_OK_iff_well_formed mem :
  (exists w, decode mem = Exited EXIT_CODE_OK w) <-> well_formed mem.
Proof.
  split.
  - intros [w H]. exact (decode_OK_checks mem w H).
  - intros H. destruct (well_formed_run mem H) as (w & E & _). exists w. exact E.
Qed.

(** ** Bytes after the end of a file *)

(** The length of the buffer enters the loops only through checks that it is
    large enough, so a run that completes does so for every larger length. *)
Lemma processCookie_longer mem L L' pb pageEnd pageIdx cookieIdx cob first w r w' :
  L <= L' ->
  run mem (processCookie L pb pageEnd pageIdx cookieIdx cob first) w = Done r w' ->
  run mem (processCookie L' pb pageEnd pageIdx cookieIdx cob first) w = Done r w'.
Proof.
  intros HL. unfold processCookie. rewrite !run_bind.
  destruct (run mem (read32Lo cob) w) as [[off cob1] w1| |]; try discriminate.
  cbn [andThen].
  destruct (Z.ltb_spec L (pb + off + 10 * 4 + 2 * 8)); [discriminate|].
  destruct (Z.ltb_spec L' (pb + off + 10 * 4 + 2 * 8)); [lia|]. trivial.
Qed.

Lemma cookieLoop_longer mem L L' pb pageEnd pageIdx n : forall cookieIdx cob first w r w',
  L <= L' ->
  run mem (cookieLoop L pb pageEnd pageIdx n cookieIdx cob first) w = Done r w' ->
  run mem (cookieLoop L' pb pageEnd pageIdx n cookieIdx cob first) w = Done r w'.
Proof.
  induction n as [|n IH]; intros cookieIdx cob first w r w' HL; cbn [cookieLoop];
    [trivial|].
  rewrite !run_bind.
  destruct (run mem (processCookie L _ _ _ _ _ _) w) as [[cob1 first1] w1| |] eqn:E;
    try discriminate.
  rewrite (processCookie_longer _ _ _ _ _ _ _ _ _ _ _ _ HL E). cbn [andThen].
  apply IH, HL.
Qed.

Lemma processPage_longer mem L L' pageIdx st w st' w' :
  L <= L' ->
  run mem (processPage L pageIdx st) w = Done st' w' ->
  run mem (processPage L' pageIdx st) w = Done st' w'.
Proof.
  intros HL. unfold processPage. rewrite !run_bind.
  destruct (run mem (read32Hi (pageSizeBase st)) w) as [[pageSize psb] w1| |];
    try discriminate.
  cbn [andThen].
  destruct (Z.ltb_spec L (pageBase st + pageSize)); [discriminate|].
  destruct (Z.ltb_spec L' (pageBase st + pageSize)); [lia|].
  destruct (pageSize <? 4 + 4); [trivial|].
  rewrite !run_bind.
  destruct (run mem (memcmp (pageBase st) COOKIE_PAGE_TAG) w1) as [c w2| |]; try discriminate.
  cbn [andThen]. destruct (negb (c =? 0)); [trivial|].
  rewrite !run_bind.
  destruct (run mem (read32Lo (pageBase st + 4)) w2) as [[cookieCount cob] w3| |];
    try discriminate.
  cbn [andThen].
  destruct (pageBase st + pageSize <? cob + cookieCount * 4 + 4); [trivial|].
  rewrite !run_bind.
  destruct (run mem (memcmp _ COOKIE_PAGE_HEADER_END) w3) as [c2 w4| |]; try discriminate.
  cbn [andThen]. destruct (negb (c2 =? 0)); [trivial|].
  rewrite !run_bind.
  destruct (run mem (cookieLoop L _ _ _ _ _ _ _) w4) as [[cob' first'] w5| |] eqn:E;
    try discriminate.
  rewrite (cookieLoop_longer _ _ _ _ _ _ _ _ _ _ _ _ _ HL E). cbn [andThen]. trivial.
Qed.

Lemma pageLoop_longer mem L L' n : forall pageIdx st w st' w',
  L <= L' ->
  run mem (pageLoop L n pageIdx st) w = Done st' w' ->
  run mem (pageLoop L' n pageIdx st) w = Done st' w'.
Proof.
  induction n as [|n IH]; intros pageIdx st w st' w' HL; cbn [pageLoop]; [trivial|].
  rewrite !run_bind.
  destruct (run mem (processPage L pageIdx st) w) as [st1 w1| |] eqn:E; try discriminate.
  rewrite (processPage_longer _ _ _ _ _ _ _ _ HL E). cbn [andThen]. apply IH, HL.
Qed.

(** X7: bytes after the property list are not ignored.  When a file is
    decoded successfully, the same file followed by any bytes at all is
    rejected with [EXIT_CODE_BAD_PARSE] by the check of the length (line
    327), and only then: every cookie has been written by that time, so
    standard output holds the whole document but for its closing text. *)
Theorem appended_bytes_rejected mem tl w :
  decode mem = Exited EXIT_CODE_OK w -> tl <> [] ->
  exists w',
    decode (mem ++ tl) = Exited EXIT_CODE_BAD_PARSE w' /\
    stderr w' = line "File length and plist data length mismatch" /\
    stdout w' ++ closing = stdout w.
Proof.
  intros H Htl. apply decode_OK in H.
  destruct H as (Hok & st & w1 & Hrun & (_ & Hpb & Hcs) & Hlen & Hsum & Hfoot & Hplist & ->).
  pose proof (header_ok_bounds mem Hok) as Htab.
  pose proof (pageCountOf_range mem) as Hpc.
  pose proof (pageStart_ge mem (Z.to_nat (pageCountOf mem))) as Hge.
  fold (pagesEnd mem) in *.
  assert (Hnew : file_length mem < file_length (mem ++ tl)).
  { rewrite file_length_app. unfold file_length. destruct tl; [contradiction|].
    cbn [List.length]. lia. }
  assert (Hcount : pageCountOf (mem ++ tl) = pageCountOf mem)
    by (apply get32Hi_prefix; lia).
  assert (Hok' : header_ok (mem ++ tl) = true).
  { unfold header_ok in *. rewrite Hcount.
    rewrite memcmp_value_prefix by (cbn; lia).
    apply andb_true_iff in Hok. destruct Hok as [Hok _].
    apply andb_true_iff in Hok. destruct Hok as [_ Hmagic]. rewrite Hmagic.
    destruct (Z.ltb_spec (file_length (mem ++ tl)) 8); [lia|].
    destruct (Z.ltb_spec (file_length (mem ++ tl)) (8 + pageCountOf mem * 4)); [lia|].
    reflexivity. }
  assert (Hrun' : pagesRun (mem ++ tl) (Z.to_nat (pageCountOf mem)) = Done st w1).
  { unfold pagesRun in *. unfold state0. rewrite Hcount. fold (state0 mem).
    destruct (run_prefix mem tl
                (pageLoop (file_length (mem ++ tl)) (Z.to_nat (pageCountOf mem)) 0 (state0 mem))
                world1) as [E|E].
    - rewrite <- E. eapply pageLoop_longer; [|exact Hrun]. lia.
    - assert (HL : file_length mem <= file_length (mem ++ tl)) by lia.
      rewrite (pageLoop_longer mem _ _ _ _ _ _ _ _ HL Hrun) in E. discriminate. }
  rewrite decode_header_ok by exact Hok'. rewrite Hcount, Hrun'. cbn [andThen].
  rewrite run_fileTrailer by lia. rewrite Hpb.
  unfold savedChecksum in Hsum.
  rewrite get32Hi_prefix by lia.
  rewrite memcmp_value_prefix by (cbn; lia).
  rewrite get32Hi_prefix by lia.
  destruct (Z.ltb_spec (file_length (mem ++ tl)) (pagesEnd mem + 12)); [lia|].
  rewrite Hsum, Z.eqb_refl, Hfoot. cbn [Z.eqb negb].
  destruct (Z.eqb_spec (file_length (mem ++ tl))
              (pagesEnd mem + 12 + get32Hi mem (pagesEnd mem + 8))); [lia|].
  cbn [negb]. eexists. split; [reflexivity|].
  pose proof (Done_stderr true _ _ _ _ _ (tidy_pageLoop _ _ _ _ _) Hrun) as Herr.
  cbn [put_err put_out log_reads stdout stderr] in *. rewrite Herr. auto.
Qed.

Lemma appended_bytes_rejected_witness :
  exists w',
    decode (scenario_file ++ [x00]) = Exited EXIT_CODE_BAD_PARSE w' /\
    stderr w' = line "File length and plist data length mismatch" /\
    stdout w' ++ closing = stdout (world_of (decode scenario_file)).
Proof.
  apply (appended_bytes_rejected scenario_file [x00] (world_of (decode scenario_file))).
  - vm_compute. reflexivity.
  - discriminate.
Defined.

(** ** The callers *)

Lemma or_else_OK c other : or_else c other = EXIT_CODE_OK -> other = EXIT_CODE_OK.
Proof. destruct c; cbn; intros H; (exact H || discriminate). Qed.

Lemma or_else_failure c other : c <> EXIT_CODE_OK -> or_else c other = c.
Proof. destruct c; cbn; intros H; (reflexivity || contradiction). Qed.

(** X8: [main] returns [EXIT_CODE_OK] exactly when it was given one
    argument, the file could be opened, its size taken and its bytes mapped,
    the decoder returned [EXIT_CODE_OK] on them, and the unmapping and the
    closing succeeded too; the streams are then as the decoder left them. *)
Theorem main_OK_iff sys argv0 args w :
  main sys argv0 args = Exited EXIT_CODE_OK w <->
  exists filename length data,
    args = [filename] /\
    sys_open sys filename = Succeeds tt /\
    sys_fstat sys = Succeeds length /\
    sys_mmap sys length = Succeeds data /\
    run data (printCookiesFromMmap length) world0 = Exited EXIT_CODE_OK w /\
    sys_munmap sys = Succeeds tt /\
    sys_close sys = Succeeds tt.
Proof.
  unfold main, printCookiesFromFd. split.
  - destruct args as [|filename [|]]; try discriminate.
    destruct (sys_open sys filename) as [[]|] eqn:Eo; try discriminate.
    destruct (sys_fstat sys) as [length|] eqn:Es.
    2:{ destruct (sys_close sys); [discriminate|]. cbn. discriminate. }
    destruct (sys_mmap sys length) as [data|] eqn:Em.
    2:{ destruct (sys_close sys); [discriminate|]. cbn. discriminate. }
    destruct (run data (printCookiesFromMmap length) world0) as [[]|c w1|] eqn:Er;
      [|discriminate].
    destruct (sys_munmap sys) as [[]|] eqn:Eu, (sys_close sys) as [[]|] eqn:Ec; intros H.
    + injection H as -> ->. exists filename, length, data. auto 10.
    + injection H as H _. apply or_else_OK in H. discriminate.
    + injection H as H _. apply or_else_OK in H. discriminate.
    + injection H as H _. apply or_else_OK in H. discriminate.
  - intros (filename & length & data & -> & Eo & Es & Em & Er & Eu & Ec).
    rewrite Eo, Es, Em, Er, Eu, Ec. reflexivity.
Qed.

(** X9: the code of the first failure is the one returned.  When the
    decoder has returned a failure code, [main] returns that code, whether
    or not the unmapping and the closing fail afterwards; the same holds
    for a failure of [fstat] or [mmap] followed by a failure of [close].
    Standard output is as the decoder left it. *)
Theorem main_keeps_first_failure sys argv0 filename c w' :
  sys_open sys filename = Succeeds tt ->
  c <> EXIT_CODE_OK ->
  (printCookiesFromFd sys world0 = Exited c w' ->
   exists w, main sys argv0 [filename] = Exited c w /\ stdout w = stdout w') /\
  (forall length data,
     sys_fstat sys = Succeeds length -> sys_mmap sys length = Succeeds data ->
     run data (printCookiesFromMmap length) world0 = Exited c w' ->
     exists w, main sys argv0 [filename] = Exited c w /\ stdout w = stdout w').
Proof.
  intros Eo Hc.
  assert (Hmain : forall w1, printCookiesFromFd sys world0 = Exited c w1 ->
            exists w, main sys argv0 [filename] = Exited c w /\ stdout w = stdout w1).
  { intros w1 E. unfold main. rewrite Eo, E.
    destruct (sys_close sys); [eauto|]. rewrite or_else_failure by exact Hc.
    eexists. split; reflexivity. }
  split; [apply Hmain|].
  intros length data Es Em Er.
  assert (Hfd : exists w1, printCookiesFromFd sys world0 = Exited c w1 /\
                           stdout w1 = stdout w').
  { unfold printCookiesFromFd. rewrite Es, Em, Er.
    destruct (sys_munmap sys); [eauto|]. rewrite or_else_failure by exact Hc.
    eexists. split; reflexivity. }
  destruct Hfd as (w1 & E & Hout). destruct (Hmain w1 E) as (w & Ew & Hw).
  exists w. split; [exact Ew|congruence].
Qed.

Lemma main_keeps_first_failure_witness :
  exists w,
    main (one_file (bytes "f") bad_checksum_file false false) (bytes "p") [bytes "f"] =
      Exited EXIT_CODE_BAD_PARSE w /\
    stdout w = stdout (world_of (decode bad_checksum_file)).
Proof.
  destruct (main_keeps_first_failure (one_file (bytes "f") bad_checksum_file false false)
              (bytes "p") (bytes "f") EXIT_CODE_BAD_PARSE
              (world_of (decode bad_checksum_file))) as [_ H];
    [reflexivity|discriminate|].
  apply (H (file_length bad_checksum_file) bad_checksum_file); [reflexivity|reflexivity|].
  vm_compute. reflexivity.
Defined.

(** X10: from the command line to the document.  On a system that serves
    the file and releases it without error, [main] returns [EXIT_CODE_OK]
    exactly for the well-formed files, and then standard output is the
    document of the file and standard error is empty. *)
Theorem main_end_to_end sys argv0 filename data :
  serves sys filename data -> releases sys ->
  (well_formed data ->
   exists w, main sys argv0 [filename] = Exited EXIT_CODE_OK w /\
             stdout w = document data /\ stderr w = []) /\
  (forall w, main sys argv0 [filename] = Exited EXIT_CODE_OK w -> well_formed data).
Proof.
  intros (Eo & Es & Em) (Eu & Ec).
  assert (Hmain : forall w, decode data = Exited EXIT_CODE_OK w ->
            main sys argv0 [filename] = Exited EXIT_CODE_OK w).
  { intros w E. unfold main, printCookiesFromFd. fold (decode data).
    unfold decode in E. rewrite Eo, Es, Em, E, Eu, Ec. reflexivity. }
  split.
  - intros Hwf. destruct (well_formed_run data Hwf) as (w & E & Hout & Herr).
    exists w. auto.
  - intros w H. unfold main, printCookiesFromFd in H. rewrite Eo, Es, Em, Eu, Ec in H.
    destruct (run data (printCookiesFromMmap (file_length data)) world0)
      as [[]|c w1|] eqn:Er; [|discriminate].
    injection H as -> ->. exact (decode_OK_checks data w Er).
Qed.

Lemma main_end_to_end_witness :
  exists w,
    main (one_file (bytes "f") scenario_file true true) (bytes "p") [bytes "f"] =
      Exited EXIT_CODE_OK w /\
    stdout w = document scenario_file /\ stderr w = [].
Proof.
  destruct (main_end_to_end (one_file (bytes "f") scenario_file true true) (bytes "p")
              (bytes "f") scenario_file) as [H _].
  - repeat split.
  - repeat split.
  - apply H. apply (decode_OK_checks scenario_file (world_of (decode scenario_file))).
    vm_compute. reflexivity.
Defined.

(** ** The codes the decoder returns *)

Lemma returns_bind P {A B : Type} (m : prog A) (f : A -> prog B) :
  returns P m -> (forall a, returns P (f a)) -> returns P (bind m f).
Proof.
  induction m as [A a|A c|A off k IH|A s k IH|A s k IH|A value body IHb k IH];
    intros Hm Hf; cbn [bind returns] in *; auto.
  destruct Hm as [Hb Hk]. split; auto.
Qed.

Lemma returns_weaken (P Q : exit_code -> Prop) {A : Type} (p : prog A) :
  (forall c, P c -> Q c) -> returns P p -> returns Q p.
Proof.
  intros HPQ.
  induction p as [A a|A c|A off k IH|A s k IH|A s k IH|A value body IHb k IH];
    cbn [returns]; auto.
  intros [Hb Hk]. split; auto.
Qed.

Lemma scan_returns (P : exit_code -> Prop) {A : Type} (body : byte -> world -> outcome unit)
    (k : world -> outcome A) :
  (forall b w c w', body b w = Exited c w' -> P c) ->
  (forall w c w', k w = Exited c w' -> P c) ->
  forall rest cursor w c w', scan body k rest cursor w = Exited c w' -> P c.
Proof.
  intros Hb Hk. induction rest as [|b rest IH]; intros cursor w c w'; cbn [scan].
  - discriminate.
  - destruct (u8 b =? 0); [apply Hk|].
    destruct (body b (log_read cursor w)) as [[] w1|c1 w1|o w1] eqn:E.
    + apply IH.
    + intros H. injection H as <- _. eapply Hb, E.
    + discriminate.
Qed.

Lemma returns_run P mem {A : Type} (p : prog A) : forall w c w',
  returns P p -> run mem p w = Exited c w' -> P c.
Proof.
  induction p as [A a|A c0|A off k IH|A s k IH|A s k IH|A value body IHb k IH];
    intros w c w' Hp; cbn [returns run] in *.
  - discriminate.
  - intros H. injection H as <- _. exact Hp.
  - destruct (peek mem off); [|discriminate]. apply IH, Hp.
  - apply IH, Hp.
  - apply IH, Hp.
  - destruct Hp as [Hb Hk]. apply scan_returns.
    + intros b w0 c0 w0'. apply IHb, Hb.
    + intros w0 c0 w0'. apply IH, Hk.
Qed.

Create HintDb returns.

Ltac returns_step :=
  match goal with
  | |- returns _ (bind _ _) => apply returns_bind; [|intros]
  | |- returns _ (match ?x with pair _ _ => _ end) => destruct x
  | |- returns _ (if ?c then _ else _) => destruct c
  | |- returns _ (Ret _) => exact I
  | |- returns _ (Return _) => cbn [returns]; unfold decoder_code, decoder_failure; tauto
  | |- returns _ _ => solve [auto with returns]
  end.

Ltac returns_tac := repeat returns_step.

Lemma returns_load P p : returns P (load p).
Proof. intros b; exact I. Qed.

Lemma returns_putchar P c : returns P (putchar c).
Proof. exact I. Qed.

Lemma returns_printf P s : returns P (printf s).
Proof. exact I. Qed.

Lemma returns_fprintf_stderr P s : returns P (fprintf_stderr s).
Proof. exact I. Qed.
#[local] Hint Resolve returns_load returns_putchar returns_printf returns_fprintf_stderr
  : returns.

Lemma returns_memcmp P s2 : forall s1, returns P (memcmp s1 s2).
Proof. induction s2 as [|c s2 IH]; intros s1; cbn [memcmp]; returns_tac. Qed.
#[local] Hint Resolve returns_memcmp : returns.

Lemma returns_read32Hi P p : returns P (read32Hi p).
Proof. unfold read32Hi. cbn [read32Hi_loop]. returns_tac. Qed.

Lemma returns_read32Lo P p : returns P (read32Lo p).
Proof. unfold read32Lo. cbn [read32Lo_loop]. returns_tac. Qed.

Lemma returns_read64Lo P p : returns P (read64Lo p).
Proof. unfold read64Lo. cbn [read64Lo_loop]. returns_tac. Qed.

Lemma returns_readDouble P p : returns P (readDouble p).
Proof. apply returns_read64Lo. Qed.
#[local] Hint Resolve returns_read32Hi returns_read32Lo returns_read64Lo returns_readDouble
  : returns.

Lemma returns_emitJsonStringChar P b : returns P (emitJsonStringChar b).
Proof.
  unfold emitJsonStringChar, emitJsonCharEscapedPretty, emitJsonCharEscapedUgly.
  destruct b; returns_tac.
Qed.
#[local] Hint Resolve returns_emitJsonStringChar : returns.

Lemma returns_forLiteral P s : returns P (forLiteral emitJsonStringChar s).
Proof. induction s as [|b s IH]; cbn [forLiteral]; returns_tac. Qed.
#[local] Hint Resolve returns_forLiteral : returns.

Lemma returns_emitJsonString P value : returns P (emitJsonString value).
Proof.
  unfold emitJsonString. returns_tac. destruct value; returns_tac.
  cbn [returns]. split; [auto with returns|exact I].
Qed.
#[local] Hint Resolve returns_emitJsonString : returns.

Lemma returns_emitJsonOptional P present name value :
  returns P (emitJsonOptionalSeparatedNamedValueString present name value).
Proof.
  unfold emitJsonOptionalSeparatedNamedValueString, emitJsonValueSeparator,
    emitJsonNameSeparator. returns_tac.
Qed.
#[local] Hint Resolve returns_emitJsonOptional : returns.

(** The emitters have no [return]. *)
Lemma returns_emitCookieObject P cookieBase h : returns P (emitCookieObject cookieBase h).
Proof.
  unfold emitCookieObject, emitJsonNamedValueInt, emitJsonSeparatedNamedValueInt,
    emitJsonSeparatedNamedValueDouble, emitJsonNamedValueInt, emitJsonBeginObject,
    emitJsonEndObject, emitJsonValueSeparator, emitJsonNameSeparator, emitJsonNumberInt,
    emitJsonNumberDouble.
  returns_tac.
Qed.
#[local] Hint Resolve returns_emitCookieObject : returns.

Lemma returns_checkCookie pageEnd pageIdx cookieIdx cookieBase h first :
  returns (eq EXIT_CODE_BAD_PARSE) (checkCookie pageEnd pageIdx cookieIdx cookieBase h first).
Proof. unfold checkCookie, emitJsonValueSeparator. returns_tac; reflexivity. Qed.

Lemma returns_readCookieHeader P cookieCursor : returns P (readCookieHeader cookieCursor).
Proof. unfold readCookieHeader. returns_tac. Qed.
#[local] Hint Resolve returns_checkCookie returns_readCookieHeader : returns.

Lemma returns_processCookie length pageBase pageEnd pageIdx cookieIdx cookieOffsetBase first :
  returns (eq EXIT_CODE_BAD_PARSE)
    (processCookie length pageBase pageEnd pageIdx cookieIdx cookieOffsetBase first).
Proof. unfold processCookie. returns_tac; reflexivity. Qed.
#[local] Hint Resolve returns_processCookie : returns.

Lemma returns_cookieLoop length pageBase pageEnd pageIdx n :
  forall cookieIdx cookieOffsetBase first,
    returns (eq EXIT_CODE_BAD_PARSE)
      (cookieLoop length pageBase pageEnd pageIdx n cookieIdx cookieOffsetBase first).
Proof. induction n as [|n IH]; intros; cbn [cookieLoop]; returns_tac. Qed.

Lemma returns_checksumLoop P fuel :
  forall pageCursor pageEnd checkSum,
    returns P (checksumLoop fuel pageCursor pageEnd checkSum).
Proof. induction fuel as [|n IH]; intros; cbn [checksumLoop]; returns_tac. Qed.
#[local] Hint Resolve returns_checksumLoop : returns.

Lemma returns_cookieLoop_failure length pageBase pageEnd pageIdx n cookieIdx cob first :
  returns decoder_failure
    (cookieLoop length pageBase pageEnd pageIdx n cookieIdx cob first).
Proof.
  eapply returns_weaken; [|apply returns_cookieLoop].
  intros c <-. unfold decoder_failure. tauto.
Qed.
#[local] Hint Resolve returns_cookieLoop_failure : returns.

Lemma returns_processPage length pageIdx st :
  returns decoder_failure (processPage length pageIdx st).
Proof. unfold processPage. returns_tac. Qed.
#[local] Hint Resolve returns_processPage : returns.

Lemma returns_pageLoop length n : forall pageIdx st,
  returns decoder_failure (pageLoop length n pageIdx st).
Proof. induction n as [|n IH]; intros; cbn [pageLoop]; returns_tac. Qed.

Lemma returns_fileHeader length : returns decoder_failure (fileHeader length).
Proof.
  unfold fileHeader, emitJsonBeginObject, emitJsonNameSeparator, emitJsonBeginArray.
  returns_tac.
Qed.

Lemma returns_fileTrailer length pageBase checkSum :
  returns decoder_code (fileTrailer length pageBase checkSum).
Proof.
  unfold fileTrailer, emitJsonEndArray, emitJsonEndObject. returns_tac.
Qed.

Lemma returns_printCookiesFromMmap length : returns decoder_code (printCookiesFromMmap length).
Proof.
  unfold printCookiesFromMmap. apply returns_bind.
  - eapply returns_weaken; [|apply returns_fileHeader]. unfold decoder_code. tauto.
  - intros [pageCount st]. apply returns_bind.
    + eapply returns_weaken; [|apply returns_pageLoop]. unfold decoder_code. tauto.
    + intros st'. apply returns_fileTrailer.
Qed.

(** ** What has been written when the decoder fails *)

Lemma checkCookie_Exited mem pageEnd pageIdx cookieIdx cb h first w c w' :
  run mem (checkCookie pageEnd pageIdx cookieIdx cb h first) w = Exited c w' ->
  stdout w' = stdout w.
Proof.
  unfold checkCookie.
  destruct (pageEnd <? cb + cookieSize h).
  { cbn [run bind fprintf_stderr]. intros H. injection H as _ <-. reflexivity. }
  cbn [bind load run].
  destruct (peek mem (cb + cookieSize h - 1)) as [z|]; [|discriminate].
  repeat match goal with
         | |- run mem (if ?b then _ else _) _ = _ -> _ =>
             destruct b;
             [cbn [run bind fprintf_stderr]; intros H; injection H as _ <-; reflexivity|]
         end.
  rewrite run_bind.
  assert (Hsep : run mem (if first then Ret tt else emitJsonValueSeparator)
                   (log_read (cb + cookieSize h - 1) w) =
                 Done tt (put_out (if first then [] else bytes ",")
                            (log_read (cb + cookieSize h - 1) w))).
  { destruct first; [cbn [run]; rewrite put_out_nil|]; reflexivity. }
  rewrite Hsep. cbn [andThen]. rewrite run_bind.
  destruct (run mem (emitCookieObject cb h) _) as [[] w2|c2 w2|] eqn:E; try discriminate.
  exfalso. exact (returns_run no_code mem _ _ _ _ (returns_emitCookieObject _ _ _) E).
Qed.

Lemma processCookie_Exited mem pb pageEnd pageIdx cookieIdx cob first w c w' :
  in_bounds mem cob 4 -> 0 <= pb ->
  run mem (processCookie (file_length mem) pb pageEnd pageIdx cookieIdx cob first) w =
    Exited c w' ->
  stdout w' = stdout w.
Proof.
  intros Hcob Hpb. rewrite run_processCookie by assumption. cbv zeta.
  destruct (file_length mem <? pb + get32Lo mem cob + 56).
  - intros H. injection H as _ <-. reflexivity.
  - destruct (run mem (checkCookie _ _ _ _ _ _) _) as [f w2|c2 w2|] eqn:E;
      cbn [andThen]; try discriminate.
    intros H. injection H as _ <-. apply checkCookie_Exited in E. exact E.
Qed.

Lemma cookieLoop_Exited mem pb pageEnd pageIdx n : forall cookieIdx cob first w c w',
  in_bounds mem cob (4 * Z.of_nat n) -> 0 <= pb ->
  run mem (cookieLoop (file_length mem) pb pageEnd pageIdx n cookieIdx cob first) w =
    Exited c w' ->
  exists l rest,
    cookieBasesFrom mem pb cob n = l ++ rest /\
    Forall (strings_end mem) l /\
    stdout w' = stdout w ++ objects_text first (map (object_at mem) l).
Proof.
  induction n as [|n IH]; intros cookieIdx cob first w c w' Hcob Hpb H;
    cbn [cookieLoop cookieBasesFrom] in *.
  - discriminate.
  - rewrite run_bind in H.
    assert (Hcob4 : in_bounds mem cob 4) by (unfold in_bounds in *; lia).
    destruct (run mem (processCookie _ _ _ _ _ _ _) w) as [[cob1 first1] w1|c1 w1|] eqn:E;
      cbn [andThen] in H; try discriminate.
    + apply processCookie_Done in E; [|exact Hcob4|exact Hpb]. cbv zeta in E.
      destruct E as (Er & _ & Hstr & Hout). injection Er as -> ->.
      apply IH in H; [|unfold in_bounds in *; lia|exact Hpb].
      destruct H as (l & rest & Hl & Hstrs & Hout').
      exists ((pb + get32Lo mem cob) :: l), rest. split; [rewrite Hl; reflexivity|].
      split; [constructor; assumption|].
      cbn [map objects_text]. rewrite Hout', Hout, <- !app_assoc. reflexivity.
    + injection H as _ <-. apply processCookie_Exited in E; [|exact Hcob4|exact Hpb].
      exists [], (pb + get32Lo mem cob :: cookieBasesFrom mem pb (cob + 4) n).
      split; [reflexivity|]. split; [constructor|].
      cbn [map objects_text]. rewrite app_nil_r. exact E.
Qed.

Lemma processPage_Exited mem pageIdx i st w c w' :
  (i < Z.to_nat (pageCountOf mem))%nat ->
  8 + pageCountOf mem * 4 <= file_length mem ->
  at_page mem i st ->
  run mem (processPage (file_length mem) pageIdx st) w = Exited c w' ->
  exists l rest,
    pageCookies mem i = l ++ rest /\
    Forall (strings_end mem) l /\
    stdout w' = stdout w ++ objects_text (first st) (map (object_at mem) l).
Proof.
  intros Hi Htab (Hpsb & Hpb & Hcs).
  pose proof (pageStart_ge mem i) as Hge. pose proof (pageCountOf_range mem) as Hpc.
  pose proof (get32Lo_range mem (pageStart mem i + 4)) as Hcc.
  rewrite run_processPage by (unfold in_bounds; rewrite ?Hpsb, ?Hpb; lia).
  cbv zeta. rewrite Hpsb, Hpb. fold (pageSizeOf mem i).
  change (pageStart mem i + pageSizeOf mem i) with (pageStart mem (S i)).
  assert (Hnone : forall w0 : world,
            stdout w0 = stdout w ->
            exists l rest,
              pageCookies mem i = l ++ rest /\
              Forall (strings_end mem) l /\
              stdout w0 = stdout w ++ objects_text (first st) (map (object_at mem) l)).
  { intros w0 E. exists [], (pageCookies mem i). split; [reflexivity|].
    split; [constructor|]. cbn [map objects_text]. rewrite app_nil_r. exact E. }
  destruct (Z.ltb_spec (file_length mem) (pageStart mem (S i))) as [H1|H1].
  { intros H. injection H as _ <-. apply Hnone. reflexivity. }
  destruct (Z.ltb_spec (pageSizeOf mem i) 8) as [H2|H2].
  { intros H. injection H as _ <-. apply Hnone. reflexivity. }
  destruct (negb (memcmp_value mem (pageStart mem i) COOKIE_PAGE_TAG =? 0)).
  { intros H. injection H as _ <-. apply Hnone. reflexivity. }
  destruct (Z.ltb_spec (pageStart mem (S i))
              (pageStart mem i + 8 + get32Lo mem (pageStart mem i + 4) * 4 + 4)) as [H4|H4].
  { intros H. injection H as _ <-. apply Hnone. reflexivity. }
  destruct (negb (memcmp_value mem _ COOKIE_PAGE_HEADER_END =? 0)).
  { intros H. injection H as _ <-. apply Hnone. reflexivity. }
  destruct (run mem (cookieLoop _ _ _ _ _ _ _ _) _) as [r w5|c5 w5|] eqn:E;
    cbn [andThen]; try discriminate.
  - rewrite checksumLoop_fuel;
      [|cbn [pageStart]; lia|lia|exact H1|rewrite Hcs; apply wrap32_range].
    discriminate.
  - intros H. injection H as _ <-.
    apply cookieLoop_Exited in E; [|unfold in_bounds; lia|lia].
    cbn [log_reads stdout] in E. exact E.
Qed.

Lemma pagesRun_Exited mem n : forall c w,
  header_ok mem = true -> (n <= Z.to_nat (pageCountOf mem))%nat ->
  pagesRun mem n = Exited c w ->
  exists l rest,
    cookiesBefore mem n = l ++ rest /\
    Forall (strings_end mem) l /\
    stdout w = opening ++ objects_text true (map (object_at mem) l).
Proof.
  induction n as [|n IH]; intros c w Hok Hn H.
  - unfold pagesRun in H. discriminate.
  - replace (S n) with (n + 1)%nat in H by lia. rewrite pagesRun_split in H.
    cbn [cookiesBefore].
    destruct (pagesRun mem n) as [st0 w0|c0 w0|] eqn:E0; cbn [andThen] in H;
      try discriminate.
    + destruct (pagesRun_Done mem n st0 w0 Hok ltac:(lia) E0) as [Hat _].
      destruct (pagesRun_Done_pages mem n st0 w0 Hok ltac:(lia) E0)
        as (_ & Hstrs0 & Hf & Hout & _).
      destruct (run mem (processPage _ _ st0) w0) as [st1 w1|c1 w1|] eqn:Ep;
        cbn [andThen pageLoop run] in H; try discriminate.
      injection H as _ <-.
      apply (processPage_Exited mem _ n) in Ep;
        [|lia|apply header_ok_bounds; exact Hok|exact Hat].
      destruct Ep as (l & rest & Hl & Hstrs & Hout').
      exists (cookiesBefore mem n ++ l), rest. split; [rewrite Hl, app_assoc; reflexivity|].
      split; [apply Forall_app; auto|].
      rewrite map_app, objects_text_app, is_nil_map, Hout', Hout, Hf, <- app_assoc.
      reflexivity.
    + injection H as _ <-.
      destruct (IH c0 w0 Hok ltac:(lia) eq_refl) as (l & rest & Hl & Hstrs & Hout).
      exists l, (rest ++ pageCookies mem n). split; [rewrite Hl, app_assoc; reflexivity|].
      split; [exact Hstrs|exact Hout].
Qed.

(** X11: what is on standard output when the decoder fails.  Either
    nothing (a check of the file header failed), or the opening text
    followed by the whole objects of the records before the failure, in the
    order of the file: output is not buffered until the file has been
    checked, but no object is ever written in part, and the closing text is
    never written. *)
Theorem decode_failure_output mem c w :
  decode mem = Exited c w -> c <> EXIT_CODE_OK ->
  stdout w = [] \/
  exists l rest,
    cookiesOf mem = l ++ rest /\
    stdout w = opening ++ objects_text true (map (object_at mem) l).
Proof.
  intros H Hc. destruct (header_ok mem) eqn:Hok.
  2:{ left. destruct (decode_header_not_ok mem Hok) as (c1 & s & l & E & _).
      rewrite E in H. injection H as _ <-. reflexivity. }
  right. rewrite decode_header_ok in H by exact Hok.
  destruct (pagesRun mem (Z.to_nat (pageCountOf mem))) as [st w1|c1 w1|] eqn:E;
    cbn [andThen] in H; try discriminate.
  - destruct (pagesRun_Done mem _ st w1 Hok (Nat.le_refl _) E) as [(_ & Hpb & _) _].
    destruct (pagesRun_Done_pages mem _ st w1 Hok (Nat.le_refl _) E)
      as (_ & _ & _ & Hout & _).
    pose proof (pageStart_ge mem (Z.to_nat (pageCountOf mem))) as Hge.
    pose proof (pageCountOf_range mem).
    rewrite run_fileTrailer in H by lia.
    exists (cookiesOf mem), []. split; [rewrite app_nil_r; reflexivity|].
    repeat match type of H with
           | (if ?b then _ else _) = _ => destruct b
           end;
      injection H as Hcode <-; try exact Hout.
    symmetry in Hcode. contradiction.
  - injection H as _ <-. unfold cookiesOf.
    destruct (pagesRun_Exited mem _ c1 w1 Hok (Nat.le_refl _) E)
      as (l & rest & Hl & _ & Hout).
    exists l, rest. auto.
Qed.

Lemma decode_failure_output_witness :
  stdout (world_of (decode bad_checksum_file)) = [] \/
  exists l rest,
    cookiesOf bad_checksum_file = l ++ rest /\
    stdout (world_of (decode bad_checksum_file)) =
      opening ++ objects_text true (map (object_at bad_checksum_file) l).
Proof.
  apply (decode_failure_output bad_checksum_file EXIT_CODE_BAD_PARSE
           (world_of (decode bad_checksum_file))).
  - vm_compute. reflexivity.
  - discriminate.
Defined.

(** X12: the decoder returns [EXIT_CODE_OK], [EXIT_CODE_BAD_EOF],
    [EXIT_CODE_BAD_MAGIC] or [EXIT_CODE_BAD_PARSE] and no other code, on
    every buffer and for every length it is given; a failure inside the
    cookie loop is always [EXIT_CODE_BAD_PARSE], also when the buffer is too
    short for the header of a record. *)
Theorem decoder_exit_codes mem :
  (forall length w c w',
     run mem (printCookiesFromMmap length) w = Exited c w' -> decoder_code c) /\
  (forall length pageBase pageEnd pageIdx n cookieIdx cookieOffsetBase first w c w',
     run mem (cookieLoop length pageBase pageEnd pageIdx n cookieIdx cookieOffsetBase first)
       w = Exited c w' ->
     c = EXIT_CODE_BAD_PARSE).
Proof.
  split.
  - intros length w c w' H.
    exact (returns_run _ mem _ _ _ _ (returns_printCookiesFromMmap length) H).
  - intros length pageBase pageEnd pageIdx n cookieIdx cookieOffsetBase first w c w' H.
    symmetry. exact (returns_run _ mem _ _ _ _ (returns_cookieLoop _ _ _ _ _ _ _ _) H).
Qed.

Lemma decoder_exit_codes_witness : decoder_code EXIT_CODE_BAD_PARSE.
Proof.
  destruct (decoder_exit_codes bad_checksum_file) as [H _].
  apply (H (file_length bad_checksum_file) world0 EXIT_CODE_BAD_PARSE
           (world_of (decode bad_checksum_file))).
  vm_compute. reflexivity.
Defined.

(** X13: what each exit code of [main] means.  The codes of the wrapper
    name one failure each: a wrong number of arguments, [open], [fstat],
    [mmap]; [EXIT_CODE_BAD_MUNMAP] and [EXIT_CODE_BAD_CLOSE] are returned
    only after the decoder has returned [EXIT_CODE_OK], so with the whole
    document written, and [EXIT_CODE_BAD_CLOSE] only when the unmapping
    succeeded; the three codes of the decoder are returned only when the
    decoder returned them. *)
Theorem main_exit_cause sys argv0 args c w :
  main sys argv0 args = Exited c w -> exit_cause sys args c.
Proof.
  unfold main, printCookiesFromFd.
  destruct args as [|filename [|f2 args]].
  - intros H. injection H as <- _. cbn. intros f. discriminate.
  - destruct (sys_open sys filename) as [[]|m] eqn:Eo.
    2:{ intros H. injection H as <- _. cbn. eauto. }
    destruct (sys_fstat sys) as [length|m] eqn:Es.
    2:{ destruct (sys_close sys); intros H; injection H as <- _; cbn; eauto. }
    destruct (sys_mmap sys length) as [data|m] eqn:Em.
    2:{ destruct (sys_close sys); intros H; injection H as <- _; cbn; eauto. }
    destruct (run data (printCookiesFromMmap length) world0) as [[]|c1 w1|] eqn:Er.
    2:{ destruct (sys_munmap sys); discriminate. }
    assert (Hret : decoder_returned sys c1) by (exists length, data, w1; auto).
    pose proof (returns_run _ data _ _ _ _ (returns_printCookiesFromMmap length) Er) as Hc.
    destruct (sys_munmap sys) as [[]|mu] eqn:Eu, (sys_close sys) as [[]|mc] eqn:Ec;
      intros H; injection H as <- _;
      destruct Hc as [-> | [-> | [-> | ->]]]; cbn; eauto.
  - intros H. injection H as <- _. cbn. intros f. discriminate.
Qed.

Lemma main_exit_cause_witness :
  exit_cause (one_file (bytes "f") scenario_file false true) [bytes "f"] EXIT_CODE_BAD_MUNMAP.
Proof.
  apply (main_exit_cause (one_file (bytes "f") scenario_file false true) (bytes "p")
           [bytes "f"] EXIT_CODE_BAD_MUNMAP
           (world_of (main (one_file (bytes "f") scenario_file false true) (bytes "p")
                        [bytes "f"]))).
  vm_compute. reflexivity.
Defined.

(** ** The integer readers *)

Lemma u8_byte_of_Z z : u8 (byte_of_Z z) = z mod 256.
Proof.
  unfold byte_of_Z, u8.
  pose proof (Z.mod_pos_bound z 256 ltac:(lia)) as Hr.
  destruct (Byte.of_N (Z.to_N (z mod 256))) as [b|] eqn:E.
  - apply Byte.to_of_N in E. rewrite E. lia.
  - apply Byte.of_N_None_iff in E. lia.
Qed.

Lemma peek_app_r pre l i :
  0 <= i -> peek (pre ++ l) (file_length pre + i) = peek l i.
Proof.
  intros Hi. unfold peek, file_length.
  destruct (Z.ltb_spec (Z.of_nat (List.length pre) + i) 0); [lia|].
  destruct (Z.ltb_spec i 0); [lia|].
  rewrite nth_error_app2 by lia. f_equal. lia.
Qed.

Lemma byteAt_app_r pre l i :
  0 <= i -> byteAt (pre ++ l) (file_length pre + i) = byteAt l i.
Proof. intros Hi. unfold byteAt. rewrite peek_app_r by exact Hi. reflexivity. Qed.

Lemma get32Hi_be32 pre v rest :
  0 <= v < 2 ^ 32 -> get32Hi (pre ++ be32 v ++ rest) (file_length pre) = v.
Proof.
  intros Hv. unfold get32Hi.
  rewrite <- (Z.add_0_r (file_length pre)) at 1. rewrite <- !Z.add_assoc.
  rewrite !byteAt_app_r by lia.
  unfold byteAt, peek, be32.
  change (Z.to_nat 0) with 0%nat. change (Z.to_nat 1) with 1%nat.
  change (Z.to_nat 2) with 2%nat. change (Z.to_nat 3) with 3%nat.
  cbn [app Z.ltb Z.compare nth_error].
  rewrite !u8_byte_of_Z.
  change (2 ^ 24) with 16777216. change (2 ^ 16) with 65536. change (2 ^ 8) with 256.
  change (2 ^ 32) with 4294967296 in Hv.
  Z.div_mod_to_equations. lia.
Qed.

Lemma get32Lo_le32 pre v rest :
  0 <= v < 2 ^ 32 -> get32Lo (pre ++ le32 v ++ rest) (file_length pre) = v.
Proof.
  intros Hv. unfold get32Lo.
  rewrite <- (Z.add_0_r (file_length pre)) at 1. rewrite <- !Z.add_assoc.
  rewrite !byteAt_app_r by lia.
  unfold byteAt, peek, le32, be32.
  change (Z.to_nat 0) with 0%nat. change (Z.to_nat 1) with 1%nat.
  change (Z.to_nat 2) with 2%nat. change (Z.to_nat 3) with 3%nat.
  cbn [rev app Z.ltb Z.compare nth_error].
  rewrite !u8_byte_of_Z.
  change (2 ^ 24) with 16777216. change (2 ^ 16) with 65536. change (2 ^ 8) with 256.
  change (2 ^ 32) with 4294967296 in Hv.
  Z.div_mod_to_equations. lia.
Qed.

Lemma get32Lo_le32_mod pre v rest :
  get32Lo (pre ++ le32 v ++ rest) (file_length pre) = v mod 2 ^ 32.
Proof.
  unfold get32Lo.
  rewrite <- (Z.add_0_r (file_length pre)) at 1. rewrite <- !Z.add_assoc.
  rewrite !byteAt_app_r by lia.
  unfold byteAt, peek, le32, be32.
  change (Z.to_nat 0) with 0%nat. change (Z.to_nat 1) with 1%nat.
  change (Z.to_nat 2) with 2%nat. change (Z.to_nat 3) with 3%nat.
  cbn [rev app Z.ltb Z.compare nth_error].
  rewrite !u8_byte_of_Z.
  change (2 ^ 24) with 16777216. change (2 ^ 16) with 65536. change (2 ^ 8) with 256.
  change (2 ^ 32) with 4294967296.
  Z.div_mod_to_equations. lia.
Qed.

Lemma get64Lo_le64 pre v rest :
  0 <= v < 2 ^ 64 -> get64Lo (pre ++ le64 v ++ rest) (file_length pre) = v.
Proof.
  intros Hv. unfold get64Lo, le64. rewrite <- app_assoc.
  rewrite get32Lo_le32_mod.
  replace (pre ++ le32 v ++ le32 (v / 4294967296) ++ rest)
    with ((pre ++ le32 v) ++ le32 (v / 4294967296) ++ rest) by (rewrite <- app_assoc; reflexivity).
  replace (file_length pre + 4) with (file_length (pre ++ le32 v))
    by (rewrite file_length_app; reflexivity).
  rewrite get32Lo_le32_mod.
  change (2 ^ 32) with 4294967296. change (2 ^ 64) with 18446744073709551616 in Hv.
  Z.div_mod_to_equations. lia.
Qed.

Lemma encoded_in_bounds pre l rest :
  in_bounds (pre ++ l ++ rest) (file_length pre) (file_length l).
Proof.
  unfold in_bounds. rewrite !file_length_app.
  pose proof (file_length_nonneg pre). pose proof (file_length_nonneg rest). lia.
Qed.

(** X14: the three readers invert the encodings.  Wherever the four bytes
    of the big-endian form of [v] lie in the buffer, [read32Hi] returns [v];
    [read32Lo] and [read64Lo] return [v] on the little-endian forms of four
    and of eight bytes; each advances the pointer by the size of the value and
    reads exactly the bytes of the value, in order.  No value is lost to
    the width of [int] or to the sign of [char]. *)
Theorem readers_invert_encodings pre rest v w :
  let p := file_length pre in
  (0 <= v < 2 ^ 32 ->
   run (pre ++ be32 v ++ rest) (read32Hi p) w = Done (v, p + 4) (log_reads (span p 4) w)) /\
  (0 <= v < 2 ^ 32 ->
   run (pre ++ le32 v ++ rest) (read32Lo p) w = Done (v, p + 4) (log_reads (span p 4) w)) /\
  (0 <= v < 2 ^ 64 ->
   run (pre ++ le64 v ++ rest) (read64Lo p) w = Done (v, p + 8) (log_reads (span p 8) w)).
Proof.
  intros p. subst p. split; [|split]; intros Hv.
  - rewrite read32Hi_ok by apply (encoded_in_bounds pre (be32 v) rest).
    rewrite get32Hi_be32 by exact Hv. rewrite span4. reflexivity.
  - rewrite read32Lo_ok by apply (encoded_in_bounds pre (le32 v) rest).
    rewrite get32Lo_le32 by exact Hv. rewrite span4. reflexivity.
  - rewrite run_read64Lo by apply (encoded_in_bounds pre (le64 v) rest).
    rewrite get64Lo_le64 by exact Hv. reflexivity.
Qed.

Lemma readers_invert_encodings_witness :
  run ([x63; x6f] ++ be32 305419896 ++ [x00]) (read32Hi 2) world0 =
    Done (305419896, 6) (log_reads (span 2 4) world0) /\
  run ([x63; x6f] ++ le32 4294967295 ++ [x00]) (read32Lo 2) world0 =
    Done (4294967295, 6) (log_reads (span 2 4) world0) /\
  run ([x63; x6f] ++ le64 18446744073709551615 ++ [x00]) (read64Lo 2) world0 =
    Done (18446744073709551615, 10) (log_reads (span 2 8) world0).
Proof.
  destruct (readers_invert_encodings [x63; x6f] [x00] 305419896 world0) as (H1 & _ & _).
  destruct (readers_invert_encodings [x63; x6f] [x00] 4294967295 world0) as (_ & H2 & _).
  destruct (readers_invert_encodings [x63; x6f] [x00] 18446744073709551615 world0)
    as (_ & _ & H3).
  split; [apply H1; lia|]. split; [apply H2; lia|apply H3; lia].
Defined.

(** ** The header of the file *)

Lemma decode_unfold mem :
  decode mem =
  andThen (run mem (fileHeader (file_length mem)) world0)
    (fun r w1 =>
       andThen (run mem (pageLoop (file_length mem) (Z.to_nat (fst r)) 0 (snd r)) w1)
         (fun st => run mem (fileTrailer (file_length mem) (pageBase st) (checkSum st)))).
Proof.
  unfold decode, printCookiesFromMmap. rewrite run_bind.
  destruct (run mem (fileHeader (file_length mem)) world0) as [[pageCount st] w1| |];
    cbn [andThen fst snd]; [|reflexivity|reflexivity].
  rewrite run_bind. reflexivity.
Qed.

(** X15: the three failures of the file header, in the order of the
    checks.  A buffer of fewer than eight bytes, the empty one included, is
    reported as too short before any byte is read, so also when its first
    bytes are not the magic; then the magic is compared; then the page
    table, of four bytes per page, must fit in the buffer.  In all three
    cases nothing is written to standard output. *)
Theorem decode_header_failures mem :
  (file_length mem < 8 ->
   decode mem =
     Exited EXIT_CODE_BAD_EOF
       (mkWorld [] (line "File too short, when checking magic and page count") [])) /\
  (8 <= file_length mem -> memcmp_value mem 0 BINARY_COOKIE_MAGIC <> 0 ->
   decode mem =
     Exited EXIT_CODE_BAD_MAGIC
       (mkWorld [] (line "Bad magic - is this a cookie file?") (span 0 4))) /\
  (8 <= file_length mem -> memcmp_value mem 0 BINARY_COOKIE_MAGIC = 0 ->
   file_length mem < 8 + pageCountOf mem * 4 ->
   decode mem =
     Exited EXIT_CODE_BAD_EOF
       (mkWorld [] (line "File too short, when checking page sizes in header") (span 0 8))).
Proof.
  rewrite decode_unfold, run_fileHeader. cbv zeta. fold (pageCountOf mem).
  split; [|split].
  - intros H. destruct (Z.ltb_spec (file_length mem) 8); [reflexivity|lia].
  - intros H Hm. destruct (Z.ltb_spec (file_length mem) 8); [lia|].
    destruct (Z.eqb_spec (memcmp_value mem 0 BINARY_COOKIE_MAGIC) 0); [contradiction|].
    reflexivity.
  - intros H Hm Ht. destruct (Z.ltb_spec (file_length mem) 8); [lia|].
    rewrite Hm. cbn [Z.eqb negb].
    destruct (Z.ltb_spec (file_length mem) (8 + pageCountOf mem * 4)); [reflexivity|lia].
Qed.

Lemma decode_header_failures_witness :
  decode [x4e; x6f; x70; x65] =
    Exited EXIT_CODE_BAD_EOF
      (mkWorld [] (line "File too short, when checking magic and page count") []) /\
  decode (bytes "not a cookie file") =
    Exited EXIT_CODE_BAD_MAGIC
      (mkWorld [] (line "Bad magic - is this a cookie file?") (span 0 4)) /\
  decode (BINARY_COOKIE_MAGIC ++ be32 2 ++ be32 8) =
    Exited EXIT_CODE_BAD_EOF
      (mkWorld [] (line "File too short, when checking page sizes in header") (span 0 8)).
Proof.
  split; [|split].
  - apply (decode_header_failures [x4e; x6f; x70; x65]). vm_compute. reflexivity.
  - apply (decode_header_failures (bytes "not a cookie file")).
    + vm_compute. discriminate.
    + vm_compute. discriminate.
  - apply (decode_header_failures (BINARY_COOKIE_MAGIC ++ be32 2 ++ be32 8)).
    + vm_compute. discriminate.
    + vm_compute. reflexivity.
    + vm_compute. reflexivity.
Defined.

(** X16: a file without pages.  When the page count is zero the decoder
    goes from the header straight to the trailer at offset 8: it succeeds
    exactly when the saved checksum is zero, the footer follows and the
    property list fills the rest, and then it has read the twenty bytes of
    header and trailer and written the document with an empty array. *)
Theorem decode_no_pages mem :
  header_ok mem = true -> pageCountOf mem = 0 ->
  ((exists w, decode mem = Exited EXIT_CODE_OK w) <->
   get32Hi mem 8 = 0 /\ memcmp_value mem 12 BINARY_COOKIE_FOOTER = 0 /\
   file_length mem = 20 + get32Hi mem 16) /\
  (forall w, decode mem = Exited EXIT_CODE_OK w ->
     w = mkWorld (opening ++ closing) [] (span 0 20)).
Proof.
  intros Hok Hpc. rewrite decode_header_ok by exact Hok. rewrite Hpc.
  unfold pagesRun, state0. rewrite Hpc. cbn [Z.to_nat pageLoop run andThen pageBase checkSum].
  rewrite run_fileTrailer by lia. change (8 + 0 * 4) with 8.
  change (8 + 4) with 12. change (8 + 12) with 20. change (8 + 8) with 16.
  pose proof (get32Hi_range mem 16) as Hp.
  destruct (Z.ltb_spec (file_length mem) 20) as [H1|H1].
  { split; [|discriminate]. split; [intros [w H]; discriminate|lia]. }
  destruct (Z.eqb_spec (get32Hi mem 8) 0) as [H2|H2]; cbn [negb].
  2:{ split; [|discriminate]. split; [intros [w H]; discriminate|tauto]. }
  destruct (Z.eqb_spec (memcmp_value mem 12 BINARY_COOKIE_FOOTER) 0) as [H3|H3]; cbn [negb].
  2:{ split; [|discriminate]. split; [intros [w H]; discriminate|tauto]. }
  destruct (Z.eqb_spec (file_length mem) (20 + get32Hi mem 16)) as [H4|H4]; cbn [negb].
  2:{ split; [|discriminate]. split; [intros [w H]; discriminate|tauto]. }
  split; [split; [auto|eauto]|]. intros w H. injection H as <-. reflexivity.
Qed.

Lemma decode_no_pages_witness :
  ((exists w, decode (file_of [] 0 (bytes "bplist00")) = Exited EXIT_CODE_OK w) <->
   get32Hi (file_of [] 0 (bytes "bplist00")) 8 = 0 /\
   memcmp_value (file_of [] 0 (bytes "bplist00")) 12 BINARY_COOKIE_FOOTER = 0 /\
   file_length (file_of [] 0 (bytes "bplist00")) =
     20 + get32Hi (file_of [] 0 (bytes "bplist00")) 16) /\
  (forall w, decode (file_of [] 0 (bytes "bplist00")) = Exited EXIT_CODE_OK w ->
     w = mkWorld (opening ++ closing) [] (span 0 20)).
Proof.
  apply (decode_no_pages (file_of [] 0 (bytes "bplist00"))); vm_compute; reflexivity.
Defined.

(** ** The checksum loop *)

Lemma In_laneOffsets off n : forall p,
  In off (laneOffsets p n) -> exists k, 0 <= k < Z.of_nat n /\ off = p + 4 * k.
Proof.
  induction n as [|n IH]; intros p; cbn [laneOffsets In]; [contradiction|].
  intros [<-|H].
  - exists 0. lia.
  - destruct (IH _ H) as (k & Hk & ->). exists (k + 1). lia.
Qed.

Lemma length_laneOffsets n : forall p, List.length (laneOffsets p n) = n.
Proof. induction n as [|n IH]; intros p; cbn [laneOffsets List.length]; auto. Qed.

(** X17: the checksum loop of a page that lies in the buffer completes for
    every amount of fuel not below the size of the page, the amount that
    [processPage] gives it included, and the result does not depend on the
    fuel: the sum so far plus the bytes at the offsets 0, 4, 8, ... of the
    page, modulo 2^32.  It reads those bytes and no others, none at or beyond
    the end of the page also when the size of the page is not a multiple of
    four, and writes nothing. *)
Theorem checksumLoop_lanes mem fuel pageCursor pageEnd checkSum w :
  pageEnd - pageCursor <= Z.of_nat fuel ->
  0 <= pageCursor -> pageEnd <= file_length mem ->
  0 <= checkSum < 2 ^ 32 ->
  exists l,
    run mem (checksumLoop fuel pageCursor pageEnd checkSum) w =
      Done ((checkSum + laneSum mem pageCursor (lanesOf (pageEnd - pageCursor))) mod 2 ^ 32)
        (mkWorld (stdout w) (stderr w) (reads w ++ l)) /\
    List.length l = lanesOf (pageEnd - pageCursor) /\
    forall off, In off l -> pageCursor <= off < pageEnd /\ (off - pageCursor) mod 4 = 0.
Proof.
  intros Hfuel Hpos Hend Hcs.
  exists (laneOffsets pageCursor (lanesOf (pageEnd - pageCursor))).
  split; [apply checksumLoop_fuel; assumption|]. split; [apply length_laneOffsets|].
  intros off Hin. apply In_laneOffsets in Hin. destruct Hin as (k & Hk & ->).
  replace (pageCursor + 4 * k - pageCursor) with (k * 4) by lia.
  rewrite Z.mod_mul by lia. split; [|reflexivity].
  unfold lanesOf in Hk. Z.div_mod_to_equations. lia.
Qed.

Lemma checksumLoop_lanes_witness :
  exists l,
    run scenario_file (checksumLoop 82 12 94 0) world0 =
      Done ((0 + laneSum scenario_file 12 (lanesOf (94 - 12))) mod 2 ^ 32)
        (mkWorld (stdout world0) (stderr world0) (reads world0 ++ l)) /\
    List.length l = lanesOf (94 - 12) /\
    forall off, In off l -> 12 <= off < 94 /\ (off - 12) mod 4 = 0.
Proof.
  apply (checksumLoop_lanes scenario_file 82 12 94 0 world0).
  - lia.
  - lia.
  - vm_compute. discriminate.
  - lia.
Defined.

(** ** The invocation *)

(** X18: with no argument, or with more than one, [main] writes the three
    lines of the usage text, with the name it was started under, to standard
    error and returns [EXIT_CODE_BAD_INVOCATION]; no file is opened, whatever
    the arguments are, and nothing is written to standard output. *)
Theorem main_bad_invocation sys argv0 args :
  List.length args <> 1%nat ->
  main sys argv0 args = Exited EXIT_CODE_BAD_INVOCATION (mkWorld [] (usage argv0) []).
Proof.
  intros H. destruct args as [|f1 [|f2 args]]; cbn [List.length] in H;
    [reflexivity|contradiction|reflexivity].
Qed.

Lemma main_bad_invocation_witness :
  main (one_file (bytes "f") scenario_file true true) (bytes "safari-cookie-json")
    [bytes "f"; bytes "g"] =
    Exited EXIT_CODE_BAD_INVOCATION (mkWorld [] (usage (bytes "safari-cookie-json")) []).
Proof.
  apply (main_bad_invocation (one_file (bytes "f") scenario_file true true)
           (bytes "safari-cookie-json") [bytes "f"; bytes "g"]).
  cbn [List.length]. lia.
Defined.

(** X19: the callers write nothing to standard output: at the end of every
    run of [main] it holds nothing, or what the decoder wrote on the mapped
    bytes. *)
Theorem main_stdout sys argv0 args :
  stdout (world_of (main sys argv0 args)) = [] \/
  exists length data,
    sys_fstat sys = Succeeds length /\ sys_mmap sys length = Succeeds data /\
    stdout (world_of (main sys argv0 args)) =
      stdout (world_of (run data (printCookiesFromMmap length) world0)).
Proof.
  unfold main, printCookiesFromFd.
  destruct args as [|filename [|f2 args]]; [left; reflexivity| |left; reflexivity].
  destruct (sys_open sys filename) as [[]|m]; [|left; reflexivity].
  destruct (sys_fstat sys) as [length|m] eqn:Es.
  2:{ left. destruct (sys_close sys); reflexivity. }
  destruct (sys_mmap sys length) as [data|m] eqn:Em.
  2:{ left. destruct (sys_close sys); reflexivity. }
  right. exists length, data. split; [reflexivity|]. split; [exact Em|].
  destruct (run data (printCookiesFromMmap length) world0) as [[]|c w|o w];
    [|reflexivity].
  destruct (sys_munmap sys), (sys_close sys); reflexivity.
Qed.

(** ** The record that a diagnostic names *)

Lemma to_int_small z : 0 <= z < 2 ^ 31 -> to_int z = z.
Proof.
  intros H. unfold to_int. rewrite wrap32_small by lia.
  destruct (Z.ltb_spec z (2 ^ 31)); [reflexivity|lia].
Qed.

Lemma checkCookie_Exited_cause mem pageEnd pageIdx cookieIdx cb first w c w' :
  run mem (checkCookie pageEnd pageIdx cookieIdx cb (headerAt mem cb) first) w =
    Exited c w' ->
  ~ record_ok mem pageEnd cb /\ c = EXIT_CODE_BAD_PARSE /\
  exists what, stderr w' = stderr w ++ cookie_diagnostic cookieIdx pageIdx what.
Proof.
  unfold checkCookie, record_ok. cbv zeta.
  remember (headerAt mem cb) as h eqn:Eh. clear Eh.
  destruct (Z.ltb_spec pageEnd (cb + cookieSize h)) as [Hpe|Hpe].
  { cbn [run bind fprintf_stderr]. intros H. injection H as <- <-.
    split; [intros (_ & Hx & _); lia|]. split; [reflexivity|]. eexists. reflexivity. }
  cbn [bind load run].
  destruct (peek mem (cb + cookieSize h - 1)) as [z|] eqn:Ez; [|discriminate].
  destruct (Z.eqb_spec 0 (u8 z)) as [Hz|Hz]; cbn [negb].
  2:{ cbn [run bind fprintf_stderr]. intros H. injection H as <- <-.
      split; [intros (_ & _ & (z' & Ez' & Hz') & _); congruence|].
      split; [reflexivity|]. eexists. reflexivity. }
  repeat match goal with
         | |- run mem (if ?a <? cb + ?f h then _ else _) _ = _ -> _ =>
             let Hlt := fresh "Hlt" in
             destruct (Z.ltb_spec a (cb + f h)) as [Hlt|Hlt];
             [cbn [run bind fprintf_stderr]; intros H; injection H as <- <-;
              split;
              [intros (_ & _ & _ & Hx);
               match goal with
               | Hlt : _ < cb + ?g h |- _ =>
                   let Hy := fresh in
                   assert (Hy : g h <= cookieSize h)
                     by (eapply Hx; cbn [string_fields In]; eauto 8); lia
               end
              |split; [reflexivity|eexists; reflexivity]]|]
         end.
  rewrite run_bind.
  assert (Hsep : run mem (if first then Ret tt else emitJsonValueSeparator)
                   (log_read (cb + cookieSize h - 1) w) =
                 Done tt (put_out (if first then [] else bytes ",")
                            (log_read (cb + cookieSize h - 1) w))).
  { destruct first; [cbn [run]; rewrite put_out_nil|]; reflexivity. }
  rewrite Hsep. cbn [andThen]. rewrite run_bind.
  destruct (run mem (emitCookieObject cb h) _) as [[] w2|c2 w2|] eqn:E; try discriminate.
  exfalso. exact (returns_run no_code mem _ _ _ _ (returns_emitCookieObject _ _ _) E).
Qed.

Lemma processCookie_Exited_cause mem pb pageEnd pageIdx cookieIdx cob first w c w' :
  in_bounds mem cob 4 -> 0 <= pb ->
  run mem (processCookie (file_length mem) pb pageEnd pageIdx cookieIdx cob first) w =
    Exited c w' ->
  ~ record_ok mem pageEnd (pb + get32Lo mem cob) /\ c = EXIT_CODE_BAD_PARSE /\
  exists what, stderr w' = stderr w ++ cookie_diagnostic cookieIdx pageIdx what.
Proof.
  intros Hcob Hpb. rewrite run_processCookie by assumption. cbv zeta.
  destruct (Z.ltb_spec (file_length mem) (pb + get32Lo mem cob + 56)) as [Hlen|Hlen].
  - intros H. injection H as <- <-. split; [intros (Hx & _); lia|].
    split; [reflexivity|]. eexists. reflexivity.
  - destruct (run mem (checkCookie _ _ _ _ _ _) _) as [f w2|c2 w2|] eqn:E;
      cbn [andThen]; try discriminate.
    intros H. injection H as <- <-. apply checkCookie_Exited_cause in E. exact E.
Qed.

Lemma cookieLoop_Exited_cause mem pb pageEnd pageIdx n : forall j cob first w c w',
  in_bounds mem cob (4 * Z.of_nat n) -> 0 <= pb -> Z.of_nat (j + n) <= 2 ^ 31 ->
  run mem (cookieLoop (file_length mem) pb pageEnd pageIdx n (Z.of_nat j) cob first) w =
    Exited c w' ->
  exists l cb rest what,
    cookieBasesFrom mem pb cob n = l ++ cb :: rest /\
    Forall (record_ok mem pageEnd) l /\ ~ record_ok mem pageEnd cb /\
    c = EXIT_CODE_BAD_PARSE /\
    stderr w' = stderr w ++ cookie_diagnostic (Z.of_nat (j + List.length l)) pageIdx what.
Proof.
  induction n as [|n IH]; intros j cob first w c w' Hcob Hpb Hj H;
    cbn [cookieLoop cookieBasesFrom] in *.
  - discriminate.
  - rewrite run_bind in H.
    assert (Hcob4 : in_bounds mem cob 4) by (unfold in_bounds in *; lia).
    destruct (run mem (processCookie _ _ _ _ _ _ _) w) as [[cob1 first1] w1|c1 w1|] eqn:E;
      cbn [andThen] in H; try discriminate.
    + pose proof (Done_stderr true mem _ _ _ _ (tidy_processCookie _ _ _ _ _ _ _ _) E)
        as Herr.
      apply processCookie_Done in E; [|exact Hcob4|exact Hpb]. cbv zeta in E.
      destruct E as (Er & Hrec & _). injection Er as -> ->.
      destruct n as [|n']; [cbn [cookieLoop run] in H; discriminate|].
      rewrite to_int_small in H by lia.
      replace (Z.of_nat j + 1) with (Z.of_nat (S j)) in H by lia.
      apply IH in H; [|unfold in_bounds in *; lia|exact Hpb|lia].
      destruct H as (l & cb & rest & what & Hl & Hall & Hbad & Hc & Hdiag).
      exists ((pb + get32Lo mem cob) :: l), cb, rest, what.
      split; [rewrite Hl; reflexivity|]. split; [constructor; assumption|].
      split; [exact Hbad|]. split; [exact Hc|].
      rewrite Hdiag, Herr. cbn [List.length].
      replace (j + S (List.length l))%nat with (S j + List.length l)%nat by lia.
      reflexivity.
    + injection H as <- <-.
      apply processCookie_Exited_cause in E; [|exact Hcob4|exact Hpb].
      destruct E as (Hbad & Hc & what & Hdiag).
      exists [], (pb + get32Lo mem cob), (cookieBasesFrom mem pb (cob + 4) n), what.
      split; [reflexivity|]. split; [constructor|]. split; [exact Hbad|].
      split; [exact Hc|]. rewrite Hdiag. cbn [List.length].
      rewrite Nat.add_0_r. reflexivity.
Qed.

(** X20: the diagnostic of the cookie loop names the first record of the
    page that fails a check.  When the loop of a page fails, the records
    before some position of the offset table have passed every check, the
    record at that position has not, the code is [EXIT_CODE_BAD_PARSE], and
    the line written to standard error starts with the number of that
    position, counted from zero, and with the number of the page. *)
Theorem cookieLoop_first_bad_record mem pb pageEnd pageIdx n cob first w c w' :
  in_bounds mem cob (4 * Z.of_nat n) -> 0 <= pb -> Z.of_nat n <= 2 ^ 31 ->
  run mem (cookieLoop (file_length mem) pb pageEnd pageIdx n 0 cob first) w = Exited c w' ->
  exists l cb rest what,
    cookieBasesFrom mem pb cob n = l ++ cb :: rest /\
    Forall (record_ok mem pageEnd) l /\ ~ record_ok mem pageEnd cb /\
    c = EXIT_CODE_BAD_PARSE /\
    stderr w' = stderr w ++ cookie_diagnostic (Z.of_nat (List.length l)) pageIdx what.
Proof.
  intros Hcob Hpb Hn H.
  exact (cookieLoop_Exited_cause mem pb pageEnd pageIdx n 0 cob first w c w' Hcob Hpb Hn H).
Qed.

Lemma cookieLoop_first_bad_record_witness :
  exists l cb rest what,
    cookieBasesFrom short_header_file 12 20 1 = l ++ cb :: rest /\
    Forall (record_ok short_header_file 36) l /\ ~ record_ok short_header_file 36 cb /\
    EXIT_CODE_BAD_PARSE = EXIT_CODE_BAD_PARSE /\
    stderr (world_of (run short_header_file
                        (cookieLoop (file_length short_header_file) 12 36 0 1 0 20 true)
                        world0)) =
      stderr world0 ++ cookie_diagnostic (Z.of_nat (List.length l)) 0 what.
Proof.
  apply (cookieLoop_first_bad_record short_header_file 12 36 0 1 20 true world0
           EXIT_CODE_BAD_PARSE
           (world_of (run short_header_file
                        (cookieLoop (file_length short_header_file) 12 36 0 1 0 20 true)
                        world0))).
  - vm_compute. split; discriminate.
  - lia.
  - vm_compute. discriminate.
  - vm_compute. reflexivity.
Defined.

(** ** Where a read outside the buffer can happen *)

Lemma emitJsonString_Fault mem p w o w' :
  0 <= p <= file_length mem ->
  run mem (emitJsonString (Mapped p)) w = Fault o w' -> o = file_length mem.
Proof.
  intros Hp. unfold emitJsonString. cbn [bind putchar run]. rewrite scan_cstring.
  destruct (cstring_of (suffix mem p)); [discriminate|].
  rewrite suffix_length by lia. intros H. injection H as <- _. lia.
Qed.

Lemma emitJsonOptional_Fault mem cb off key w o w' :
  0 <= off < 2 ^ 32 -> 0 <= cb + off <= file_length mem ->
  run mem (emitJsonOptionalSeparatedNamedValueString (to_int off) key (cb + off)) w =
    Fault o w' ->
  o = file_length mem.
Proof.
  intros Hoff Hp. unfold emitJsonOptionalSeparatedNamedValueString.
  rewrite to_int_zero by exact Hoff.
  destruct (Z.eqb_spec off 0) as [->|Hne]; cbn [negb]; [discriminate|].
  unfold emitJsonValueSeparator, emitJsonNameSeparator.
  rewrite run_bind. cbn [run putchar andThen].
  rewrite run_bind, run_emitJsonString_Literal. cbn [andThen].
  rewrite run_bind. cbn [run putchar andThen]. apply emitJsonString_Fault, Hp.
Qed.

Lemma emitCookieObject_Fault mem cb w o w' :
  0 <= cb ->
  (forall key off, In (key, off) (string_fields (headerAt mem cb)) ->
     cb + off <= file_length mem) ->
  run mem (emitCookieObject cb (headerAt mem cb)) w = Fault o w' -> o = file_length mem.
Proof.
  intros Hcb Hs. unfold emitCookieObject.
  rewrite run_bind. cbn [run emitJsonBeginObject putchar andThen].
  rewrite run_bind, run_emitJsonNamedValueInt. cbn [andThen].
  rewrite run_bind, run_emitJsonSeparatedNamedValueInt. cbn [andThen].
  cbn [string_fields headerAt version flags domain name path value comment commentUrl expiry
       creation] in *.
  do 6 (rewrite run_bind;
        match goal with
        | |- andThen (run mem (emitJsonOptionalSeparatedNamedValueString _ ?key
                                 (cb + ?off)) ?w0) _ = _ -> _ =>
            let E := fresh "E" in
            pose proof (Hs key off ltac:(cbn [In]; repeat (try (left; reflexivity); right)));
            destruct (run mem (emitJsonOptionalSeparatedNamedValueString _ key (cb + off)) w0)
              as [[] ?w|?c ?w|?o ?w] eqn:E; cbn [andThen];
            [|discriminate
             |intros Hf; injection Hf as <- _;
              apply emitJsonOptional_Fault in E; [exact E|apply get32Lo_range|];
              pose proof (get32Lo_range mem (cb + 16)); pose proof (get32Lo_range mem (cb + 20));
              pose proof (get32Lo_range mem (cb + 24)); pose proof (get32Lo_range mem (cb + 28));
              pose proof (get32Lo_range mem (cb + 32)); pose proof (get32Lo_range mem (cb + 36));
              lia]
        end).
  rewrite run_bind, run_emitJsonSeparatedNamedValueDouble. cbn [andThen].
  rewrite run_bind, run_emitJsonSeparatedNamedValueDouble. cbn [andThen].
  cbn [run emitJsonEndObject putchar]. discriminate.
Qed.

Lemma checkCookie_Fault mem pageEnd pageIdx cookieIdx cb first w o w' :
  1 <= cb -> pageEnd <= file_length mem ->
  run mem (checkCookie pageEnd pageIdx cookieIdx cb (headerAt mem cb) first) w = Fault o w' ->
  o = file_length mem.
Proof.
  intros Hcb Hpe. unfold checkCookie.
  pose proof (get32Lo_range mem cb) as Hsz.
  change (get32Lo mem cb) with (cookieSize (headerAt mem cb)) in Hsz.
  assert (Hem : forall w0,
            (forall key off, In (key, off) (string_fields (headerAt mem cb)) ->
               cb + off <= file_length mem) ->
            run mem (emitCookieObject cb (headerAt mem cb)) w0 = Fault o w' ->
            o = file_length mem).
  { intros w0 Hs. apply emitCookieObject_Fault; [lia|exact Hs]. }
  remember (headerAt mem cb) as h eqn:Eh. clear Eh.
  destruct (Z.ltb_spec pageEnd (cb + cookieSize h)) as [Hlt|Hge]; [discriminate|].
  cbn [bind load run].
  destruct (peek_in_bounds mem (cb + cookieSize h - 1) ltac:(lia)) as [z Ez]. rewrite Ez.
  destruct (negb (0 =? u8 z)); [discriminate|].
  destruct (Z.ltb_spec (cb + cookieSize h) (cb + domain h)) as [?Hf|?Hf]; [discriminate|].
  destruct (Z.ltb_spec (cb + cookieSize h) (cb + name h)) as [?Hf|?Hf]; [discriminate|].
  destruct (Z.ltb_spec (cb + cookieSize h) (cb + path h)) as [?Hf|?Hf]; [discriminate|].
  destruct (Z.ltb_spec (cb + cookieSize h) (cb + value h)) as [?Hf|?Hf]; [discriminate|].
  destruct (Z.ltb_spec (cb + cookieSize h) (cb + comment h)) as [?Hf|?Hf]; [discriminate|].
  destruct (Z.ltb_spec (cb + cookieSize h) (cb + commentUrl h)) as [?Hf|?Hf]; [discriminate|].
  rewrite run_bind.
  assert (Hsep : run mem (if first then Ret tt else emitJsonValueSeparator)
                   (log_read (cb + cookieSize h - 1) w) =
                 Done tt (put_out (if first then [] else bytes ",")
                            (log_read (cb + cookieSize h - 1) w))).
  { destruct first; [cbn [run]; rewrite put_out_nil|]; reflexivity. }
  rewrite Hsep. cbn [andThen]. rewrite run_bind.
  destruct (run mem (emitCookieObject cb h) _) as [[] w2|c2 w2|o2 w2] eqn:E;
    cbn [andThen run]; try discriminate.
  intros Hfault. injection Hfault as <- <-. eapply Hem; [|exact E].
  intros key off Hin. cbn [string_fields In] in Hin.
  destruct Hin as [Hin|[Hin|[Hin|[Hin|[Hin|[Hin|[]]]]]]];
    apply (f_equal snd) in Hin; cbn [snd] in Hin; lia.
Qed.

Lemma processCookie_Fault mem pb pageEnd pageIdx cookieIdx cob first w o w' :
  in_bounds mem cob 4 -> 1 <= pb -> pageEnd <= file_length mem ->
  run mem (processCookie (file_length mem) pb pageEnd pageIdx cookieIdx cob first) w =
    Fault o w' ->
  o = file_length mem.
Proof.
  intros Hcob Hpb Hpe. rewrite run_processCookie by (assumption || lia). cbv zeta.
  pose proof (get32Lo_range mem cob) as Hoff.
  destruct (file_length mem <? pb + get32Lo mem cob + 56); [discriminate|].
  destruct (run mem (checkCookie _ _ _ _ _ _) _) as [f w2|c2 w2|o2 w2] eqn:E;
    cbn [andThen]; try discriminate.
  intros H. injection H as <- <-. apply checkCookie_Fault in E; [exact E|lia|exact Hpe].
Qed.

Lemma cookieLoop_Fault mem pb pageEnd pageIdx n : forall cookieIdx cob first w o w',
  in_bounds mem cob (4 * Z.of_nat n) -> 1 <= pb -> pageEnd <= file_length mem ->
  run mem (cookieLoop (file_length mem) pb pageEnd pageIdx n cookieIdx cob first) w =
    Fault o w' ->
  o = file_length mem.
Proof.
  induction n as [|n IH]; intros cookieIdx cob first w o w' Hcob Hpb Hpe H;
    cbn [cookieLoop] in *.
  - discriminate.
  - rewrite run_bind in H.
    assert (Hcob4 : in_bounds mem cob 4) by (unfold in_bounds in *; lia).
    destruct (run mem (processCookie _ _ _ _ _ _ _) w) as [[cob1 first1] w1|c1 w1|o1 w1] eqn:E;
      cbn [andThen] in H; try discriminate.
    + apply processCookie_Done in E; [|exact Hcob4|lia]. cbv zeta in E.
      destruct E as (Er & _). injection Er as -> ->.
      apply IH in H; [exact H|unfold in_bounds in *; lia|exact Hpb|exact Hpe].
    + injection H as <- <-.
      apply processCookie_Fault in E; [exact E|exact Hcob4|exact Hpb|exact Hpe].
Qed.

Lemma processPage_Fault mem pageIdx i st w o w' :
  (i < Z.to_nat (pageCountOf mem))%nat ->
  8 + pageCountOf mem * 4 <= file_length mem ->
  at_page mem i st ->
  run mem (processPage (file_length mem) pageIdx st) w = Fault o w' ->
  o = file_length mem.
Proof.
  intros Hi Htab (Hpsb & Hpb & Hcs).
  pose proof (pageStart_ge mem i) as Hge. pose proof (pageCountOf_range mem) as Hpc.
  pose proof (get32Lo_range mem (pageStart mem i + 4)) as Hcc.
  rewrite run_processPage by (unfold in_bounds; rewrite ?Hpsb, ?Hpb; lia).
  cbv zeta. rewrite Hpsb, Hpb. fold (pageSizeOf mem i).
  change (pageStart mem i + pageSizeOf mem i) with (pageStart mem (S i)).
  destruct (Z.ltb_spec (file_length mem) (pageStart mem (S i))) as [H1|H1]; [discriminate|].
  destruct (Z.ltb_spec (pageSizeOf mem i) 8) as [H2|H2]; [discriminate|].
  destruct (negb (memcmp_value mem (pageStart mem i) COOKIE_PAGE_TAG =? 0)); [discriminate|].
  destruct (Z.ltb_spec (pageStart mem (S i))
              (pageStart mem i + 8 + get32Lo mem (pageStart mem i + 4) * 4 + 4)) as [H4|H4];
    [discriminate|].
  destruct (negb (memcmp_value mem _ COOKIE_PAGE_HEADER_END =? 0)); [discriminate|].
  destruct (run mem (cookieLoop _ _ _ _ _ _ _ _) _) as [r w5|c5 w5|o5 w5] eqn:E;
    cbn [andThen]; try discriminate.
  - rewrite checksumLoop_fuel;
      [|cbn [pageStart]; lia|lia|exact H1|rewrite Hcs; apply wrap32_range].
    discriminate.
  - intros H. injection H as <- <-.
    apply cookieLoop_Fault in E; [exact E|unfold in_bounds; lia|lia|exact H1].
Qed.

Lemma pagesRun_Fault mem n : forall o w,
  header_ok mem = true -> (n <= Z.to_nat (pageCountOf mem))%nat ->
  pagesRun mem n = Fault o w -> o = file_length mem.
Proof.
  induction n as [|n IH]; intros o w Hok Hn H.
  - unfold pagesRun in H. discriminate.
  - replace (S n) with (n + 1)%nat in H by lia. rewrite pagesRun_split in H.
    destruct (pagesRun mem n) as [st0 w0|c0 w0|o0 w0] eqn:E0; cbn [andThen] in H;
      try discriminate.
    + destruct (pagesRun_Done mem n st0 w0 Hok ltac:(lia) E0) as [Hat _].
      destruct (run mem (processPage _ _ st0) w0) as [st1 w1|c1 w1|o1 w1] eqn:Ep;
        cbn [andThen pageLoop run] in H; try discriminate.
      injection H as <- <-.
      apply (processPage_Fault mem _ n) in Ep;
        [exact Ep|lia|apply header_ok_bounds; exact Hok|exact Hat].
    + injection H as <- <-. exact (IH o0 w0 Hok ltac:(lia) eq_refl).
Qed.

(** X21: when the decoder does read outside the buffer, the offset it
    reads is exactly the length of the buffer, the first byte after it: no
    read is ever made before the buffer or further beyond it.  By then the
    header of the file has passed its checks, and nothing has been written
    to standard error. *)
Theorem decode_fault_offset mem o w :
  decode mem = Fault o w ->
  o = file_length mem /\ header_ok mem = true /\ stderr w = [].
Proof.
  intros H.
  assert (Herr : stderr w = []).
  { pose proof (tidy_run true mem (printCookiesFromMmap (file_length mem)) world0
                  (tidy_printCookiesFromMmap _)) as Ht.
    unfold decode in H. rewrite H in Ht. exact Ht. }
  destruct (header_ok mem) eqn:Hok.
  2:{ destruct (decode_header_not_ok mem Hok) as (c1 & s & l & E & _).
      rewrite E in H. discriminate. }
  split; [|split; [reflexivity|exact Herr]].
  rewrite decode_header_ok in H by exact Hok.
  destruct (pagesRun mem (Z.to_nat (pageCountOf mem))) as [st w1|c1 w1|o1 w1] eqn:E;
    cbn [andThen] in H; try discriminate.
  - destruct (pagesRun_Done mem _ st w1 Hok (Nat.le_refl _) E) as [(_ & Hpb & _) _].
    pose proof (pageStart_ge mem (Z.to_nat (pageCountOf mem))) as Hge.
    pose proof (pageCountOf_range mem).
    rewrite run_fileTrailer in H by lia.
    repeat match type of H with
           | (if ?b then _ else _) = _ => destruct b
           end; discriminate.
  - injection H as <- <-. exact (pagesRun_Fault mem _ o1 w1 Hok (Nat.le_refl _) E).
Qed.

Lemma decode_fault_offset_witness :
  94 = file_length overrun_file /\ header_ok overrun_file = true /\
  stderr (world_of (decode overrun_file)) = [].
Proof.
  apply (decode_fault_offset overrun_file 94 (world_of (decode overrun_file))).
  vm_compute. reflexivity.
Defined.

(** ** The property list is not read *)

Lemma below_refl hi r : below hi r r.
Proof. exists []. rewrite app_nil_r. split; [reflexivity|]. intros off []. Qed.

Lemma below_trans a b c r1 r2 r3 :
  below a r1 r2 -> below b r2 r3 -> a <= c -> b <= c -> below c r1 r3.
Proof.
  intros (l1 & -> & H1) (l2 & -> & H2) Ha Hb. exists (l1 ++ l2).
  rewrite app_assoc. split; [reflexivity|].
  intros off Hin. apply in_app_or in Hin. destruct Hin as [Hin|Hin].
  - specialize (H1 off Hin). lia.
  - specialize (H2 off Hin). lia.
Qed.

Lemma below_weaken a c r1 r2 : below a r1 r2 -> a <= c -> below c r1 r2.
Proof. intros H Hac. exact (below_trans a a c r1 r2 r2 H (below_refl a r2) Hac Hac). Qed.

Lemma below_step e r1 r2 r3 : below e r1 r2 -> below e r2 r3 -> below e r1 r3.
Proof. intros H1 H2. exact (below_trans e e e r1 r2 r3 H1 H2 (Z.le_refl e) (Z.le_refl e)). Qed.

Lemma below_span hi r p n : p + Z.of_nat n <= hi -> below hi r (r ++ span p n).
Proof.
  intros H. exists (span p n). split; [reflexivity|].
  intros off Hin. apply In_span in Hin. lia.
Qed.

Lemma emitJsonString_reads mem p e w w' :
  (exists z, peek mem (e - 1) = Some z /\ u8 z = 0) -> 0 <= p < e ->
  run mem (emitJsonString (Mapped p)) w = Done tt w' ->
  below e (reads w) (reads w').
Proof.
  intros Hz Hp H.
  destruct (emitJsonString_in_record mem p e w Hz Hp) as (w2 & n & E & Hr & Hn).
  rewrite E in H. injection H as <-. rewrite Hr. apply below_span. exact Hn.
Qed.

Lemma emitJsonOptional_reads mem cb off key e w w' :
  0 <= off < 2 ^ 32 ->
  (exists z, peek mem (e - 1) = Some z /\ u8 z = 0) ->
  (off <> 0 -> 0 <= cb + off < e) ->
  run mem (emitJsonOptionalSeparatedNamedValueString (to_int off) key (cb + off)) w =
    Done tt w' ->
  below e (reads w) (reads w').
Proof.
  intros Hoff Hz Hp. unfold emitJsonOptionalSeparatedNamedValueString.
  rewrite to_int_zero by exact Hoff.
  destruct (Z.eqb_spec off 0) as [->|Hne]; cbn [negb].
  - cbn [run]. intros H. injection H as <-. apply below_refl.
  - unfold emitJsonValueSeparator, emitJsonNameSeparator.
    rewrite run_bind. cbn [run putchar andThen].
    rewrite run_bind, run_emitJsonString_Literal. cbn [andThen].
    rewrite run_bind. cbn [run putchar andThen]. intros H.
    apply (emitJsonString_reads mem _ e) in H; [exact H|exact Hz|exact (Hp Hne)].
Qed.

Lemma emitCookieObject_reads mem cb e w w' :
  (exists z, peek mem (e - 1) = Some z /\ u8 z = 0) ->
  (forall key off, In (key, off) (string_fields (headerAt mem cb)) -> off <> 0 ->
     0 <= cb + off < e) ->
  run mem (emitCookieObject cb (headerAt mem cb)) w = Done tt w' ->
  below e (reads w) (reads w').
Proof.
  intros Hz Hs H. unfold emitCookieObject in H.
  rewrite run_bind in H. cbn [run emitJsonBeginObject putchar andThen] in H.
  rewrite run_bind, run_emitJsonNamedValueInt in H. cbn [andThen] in H.
  rewrite run_bind, run_emitJsonSeparatedNamedValueInt in H. cbn [andThen] in H.
  cbn [string_fields headerAt version flags domain name path value comment commentUrl expiry
       creation] in *.
  do 6 (rewrite run_bind in H;
        match type of H with
        | andThen (run mem (emitJsonOptionalSeparatedNamedValueString _ ?key (cb + ?off))
                     ?w0) _ = _ =>
            let E := fresh "E" in
            destruct (run mem (emitJsonOptionalSeparatedNamedValueString _ key (cb + off)) w0)
              as [[] ?w| |] eqn:E; try discriminate;
            apply (emitJsonOptional_reads mem cb off key e) in E;
            [|apply get32Lo_range|exact Hz
             |apply (Hs key); cbn [In]; repeat (try (left; reflexivity); right)];
            cbn [andThen] in H
        end).
  rewrite run_bind, run_emitJsonSeparatedNamedValueDouble in H. cbn [andThen] in H.
  rewrite run_bind, run_emitJsonSeparatedNamedValueDouble in H. cbn [andThen] in H.
  cbn [run emitJsonEndObject putchar] in H. injection H as <-.
  cbn [put_out reads] in *.
  eapply below_step; [exact E|].
  eapply below_step; [exact E0|].
  eapply below_step; [exact E1|].
  eapply below_step; [exact E2|].
  eapply below_step; [exact E3|exact E4].
Qed.

Lemma checkCookie_reads mem pageEnd pageIdx cookieIdx cb first w f w' :
  0 <= cb -> strict_offsets mem cb ->
  run mem (checkCookie pageEnd pageIdx cookieIdx cb (headerAt mem cb) first) w = Done f w' ->
  below (cb + cookieSize (headerAt mem cb)) (reads w) (reads w').
Proof.
  intros Hcb Hstrict H. unfold checkCookie in H.
  assert (Hrange : forall key off, In (key, off) (string_fields (headerAt mem cb)) ->
            0 <= off < 2 ^ 32) by (intros key off; apply string_fields_range).
  unfold strict_offsets in Hstrict.
  assert (Hem : forall w0 w1 e,
            e = cb + cookieSize (headerAt mem cb) ->
            (exists z, peek mem (e - 1) = Some z /\ u8 z = 0) ->
            (forall key off, In (key, off) (string_fields (headerAt mem cb)) ->
               off <= cookieSize (headerAt mem cb)) ->
            run mem (emitCookieObject cb (headerAt mem cb)) w0 = Done tt w1 ->
            below e (reads w0) (reads w1)).
  { intros w0 w1 e -> Hz Hle. apply emitCookieObject_reads; [exact Hz|].
    intros key off Hin Hne. specialize (Hrange key off Hin). specialize (Hle key off Hin).
    specialize (Hstrict key off Hin Hne). lia. }
  remember (headerAt mem cb) as h eqn:Eh. clear Eh.
  destruct (Z.ltb_spec pageEnd (cb + cookieSize h)) as [Hpe|Hpe]; [discriminate|].
  cbn [bind load run] in H.
  destruct (peek mem (cb + cookieSize h - 1)) as [z|] eqn:Ez; [|discriminate].
  destruct (Z.eqb_spec 0 (u8 z)) as [Hz|Hz]; cbn [negb] in H; [|discriminate].
  destruct (Z.ltb_spec (cb + cookieSize h) (cb + domain h)) as [?Hf|?Hf]; [discriminate|].
  destruct (Z.ltb_spec (cb + cookieSize h) (cb + name h)) as [?Hf|?Hf]; [discriminate|].
  destruct (Z.ltb_spec (cb + cookieSize h) (cb + path h)) as [?Hf|?Hf]; [discriminate|].
  destruct (Z.ltb_spec (cb + cookieSize h) (cb + value h)) as [?Hf|?Hf]; [discriminate|].
  destruct (Z.ltb_spec (cb + cookieSize h) (cb + comment h)) as [?Hf|?Hf]; [discriminate|].
  destruct (Z.ltb_spec (cb + cookieSize h) (cb + commentUrl h)) as [?Hf|?Hf];
    [discriminate|].
  rewrite run_bind in H.
  assert (Hsep : run mem (if first then Ret tt else emitJsonValueSeparator)
                   (log_read (cb + cookieSize h - 1) w) =
                 Done tt (put_out (if first then [] else bytes ",")
                            (log_read (cb + cookieSize h - 1) w))).
  { destruct first; [cbn [run]; rewrite put_out_nil|]; reflexivity. }
  rewrite Hsep in H. cbn [andThen] in H. rewrite run_bind in H.
  destruct (run mem (emitCookieObject cb h) _) as [[] w2| |] eqn:E; try discriminate.
  cbn [andThen run] in H. injection H as _ <-.
  apply (Hem _ _ (cb + cookieSize h) eq_refl) in E.
  - cbn [put_out log_read reads] in E.
    eapply below_step; [|exact E].
    exists [cb + cookieSize h - 1]. split; [reflexivity|].
    intros off [<-|[]]. lia.
  - exists z. auto.
  - intros key off Hin. cbn [string_fields In] in Hin.
    destruct Hin as [Hin|[Hin|[Hin|[Hin|[Hin|[Hin|[]]]]]]];
      apply (f_equal snd) in Hin; cbn [snd] in Hin; lia.
Qed.

Lemma processCookie_reads mem pb pageEnd pageIdx cookieIdx cob first w r w' :
  in_bounds mem cob 4 -> 0 <= pb -> cob + 4 <= pageEnd ->
  tight_record mem (pb + get32Lo mem cob) ->
  run mem (processCookie (file_length mem) pb pageEnd pageIdx cookieIdx cob first) w =
    Done r w' ->
  below pageEnd (reads w) (reads w').
Proof.
  intros Hcob Hpb Hpe [Hsize Hstrict] H.
  pose proof (get32Lo_range mem cob) as Hoff.
  pose proof (processCookie_Done _ _ _ _ _ _ _ _ _ _ Hcob Hpb H) as (_ & Hrec & _).
  destruct Hrec as (_ & Hend & _).
  rewrite run_processCookie in H by assumption. cbv zeta in H.
  destruct (file_length mem <? pb + get32Lo mem cob + 56); [discriminate|].
  destruct (run mem (checkCookie _ _ _ _ _ _) _) as [f w2| |] eqn:E;
    cbn [andThen] in H; try discriminate.
  injection H as _ <-.
  apply checkCookie_reads in E; [|lia|exact Hstrict].
  cbn [log_reads reads] in E.
  eapply below_trans; [|exact E| |exact Hend].
  - eapply below_step; apply below_span.
    + instantiate (1 := pageEnd). lia.
    + lia.
  - lia.
Qed.

Lemma cookieLoop_reads mem pb pageEnd pageIdx n : forall cookieIdx cob first w r w',
  in_bounds mem cob (4 * Z.of_nat n) -> 0 <= pb -> cob + 4 * Z.of_nat n <= pageEnd ->
  Forall (tight_record mem) (cookieBasesFrom mem pb cob n) ->
  run mem (cookieLoop (file_length mem) pb pageEnd pageIdx n cookieIdx cob first) w =
    Done r w' ->
  below pageEnd (reads w) (reads w').
Proof.
  induction n as [|n IH]; intros cookieIdx cob first w r w' Hcob Hpb Hpe Ht H;
    cbn [cookieLoop cookieBasesFrom] in *.
  - cbn [run] in H. injection H as _ <-. apply below_refl.
  - inversion Ht as [|cb l Ht1 Ht2]; subst. rewrite run_bind in H.
    assert (Hcob4 : in_bounds mem cob 4) by (unfold in_bounds in *; lia).
    destruct (run mem (processCookie _ _ _ _ _ _ _) w) as [[cob1 first1] w1| |] eqn:E;
      cbn [andThen] in H; try discriminate.
    pose proof (processCookie_Done _ _ _ _ _ _ _ _ _ _ Hcob4 Hpb E) as (Er & _).
    injection Er as -> ->.
    apply processCookie_reads in E; [|exact Hcob4|exact Hpb|lia|exact Ht1].
    apply IH in H; [|unfold in_bounds in *; lia|exact Hpb|lia|exact Ht2].
    exact (below_step _ _ _ _ E H).
Qed.

Lemma processPage_reads mem pageIdx i st w st' w' :
  (i < Z.to_nat (pageCountOf mem))%nat ->
  8 + pageCountOf mem * 4 <= file_length mem ->
  at_page mem i st ->
  Forall (tight_record mem) (pageCookies mem i) ->
  run mem (processPage (file_length mem) pageIdx st) w = Done st' w' ->
  below (pageStart mem (S i)) (reads w) (reads w').
Proof.
  intros Hi Htab (Hpsb & Hpb & Hcs) Ht H.
  pose proof (pageStart_ge mem i) as Hge. pose proof (pageCountOf_range mem) as Hpc.
  apply processPage_Done in H;
    [|unfold in_bounds; rewrite Hpsb; lia|lia|rewrite Hcs; apply wrap32_range].
  cbv zeta in H. rewrite Hpb, Hpsb in H.
  destruct H as (Hsz & Hend & Htag & Hhe & Hterm & _ & _ & _ & r & w5 & Hloop & _ & ->).
  pose proof (get32Lo_range mem (pageStart mem i + 4)) as Hcc.
  fold (pageSizeOf mem i) in *.
  change (pageStart mem i + pageSizeOf mem i) with (pageStart mem (S i)) in *.
  apply cookieLoop_reads in Hloop; [|unfold in_bounds; lia|lia|lia|exact Ht].
  cbn [log_reads reads] in *.
  eapply below_step; [|eapply below_step; [exact Hloop|]].
  - eapply below_step; [eapply below_step|]; apply below_span; lia.
  - exists (laneOffsets (pageStart mem i) (lanesOf (pageSizeOf mem i))).
    split; [reflexivity|]. intros off Hin. apply In_laneOffsets in Hin.
    destruct Hin as (k & Hk & ->). cbn [pageStart]. unfold lanesOf in Hk.
    Z.div_mod_to_equations. lia.
Qed.

Lemma pagesRun_reads mem n : forall st w,
  header_ok mem = true -> (n <= Z.to_nat (pageCountOf mem))%nat ->
  Forall (tight_record mem) (cookiesBefore mem n) ->
  pagesRun mem n = Done st w ->
  below (pageStart mem n) [] (reads w).
Proof.
  induction n as [|n IH]; intros st w Hok Hn Ht H.
  - unfold pagesRun in H. cbn [pageLoop run] in H. injection H as _ <-.
    pose proof (pageCountOf_range mem).
    exists (span 0 8). split; [reflexivity|]. intros off Hin. apply In_span in Hin.
    cbn [pageStart]. lia.
  - cbn [cookiesBefore] in Ht. apply Forall_app in Ht. destruct Ht as [Ht1 Ht2].
    apply pagesRun_S_Done in H. destruct H as (st0 & w0 & H0 & Hp).
    destruct (pagesRun_Done mem n st0 w0 Hok ltac:(lia) H0) as [Hat _].
    specialize (IH st0 w0 Hok ltac:(lia) Ht1 H0).
    pose proof (processPage_Done_page mem _ n _ _ _ _ ltac:(lia) (header_ok_bounds mem Hok)
                  Hat Hp) as ((Hsz & _) & _).
    apply (processPage_reads mem _ n) in Hp;
      [|lia|apply header_ok_bounds; exact Hok|exact Hat|exact Ht2].
    eapply below_trans; [exact IH|exact Hp| |lia].
    cbn [pageStart]. lia.
Qed.

(** X22: the property list is not read.  When a file is decoded
    successfully, and every record is at least as long as its 56-byte header
    and has no string starting at its very end, no offset at or after the
    property list is read; so the same file with any other property list of
    the same length is decoded to the same exit code, the same output and
    the same reads. *)
Theorem property_list_ignored T plist plist' w :
  decode (T ++ plist) = Exited EXIT_CODE_OK w ->
  file_length T = pagesEnd (T ++ plist) + 12 ->
  Forall (tight_record (T ++ plist)) (cookiesOf (T ++ plist)) ->
  List.length plist' = List.length plist ->
  (forall off, In off (reads w) -> off < file_length T) /\
  decode (T ++ plist') = Exited EXIT_CODE_OK w.
Proof.
  intros H HT Ht Hlen.
  assert (Hreads : forall off, In off (reads w) -> off < file_length T).
  { apply decode_OK in H.
    destruct H as (Hok & st & w1 & Hrun & _ & _ & _ & _ & _ & ->).
    apply pagesRun_reads in Hrun; [|exact Hok|lia|exact Ht].
    destruct Hrun as (l & Hl & Hb). cbn [put_out log_reads reads]. rewrite Hl.
    intros off Hin. cbn [app] in Hin. apply in_app_or in Hin. destruct Hin as [Hin|Hin].
    - specialize (Hb off Hin). fold (pagesEnd (T ++ plist)) in Hb. lia.
    - apply In_span in Hin. lia. }
  split; [exact Hreads|].
  unfold decode in *.
  replace (file_length (T ++ plist')) with (file_length (T ++ plist))
    by (rewrite !file_length_app; unfold file_length; lia).
  rewrite <- H. apply run_agree. rewrite H. cbn [world_of].
  intros off Hin. specialize (Hreads off Hin). rewrite !peek_prefix by exact Hreads.
  reflexivity.
Qed.

Lemma property_list_ignored_witness :
  (forall off,
     In off (reads (world_of (decode (scenario_before_plist ++ bytes "abc")))) ->
     off < file_length scenario_before_plist) /\
  decode (scenario_before_plist ++ bytes "xyz") =
    Exited EXIT_CODE_OK (world_of (decode (scenario_before_plist ++ bytes "abc"))).
Proof.
  apply (property_list_ignored scenario_before_plist (bytes "abc") (bytes "xyz")
           (world_of (decode (scenario_before_plist ++ bytes "abc")))).
  - vm_compute. reflexivity.
  - vm_compute. reflexivity.
  - replace (cookiesOf (scenario_before_plist ++ bytes "abc")) with [28]
      by (vm_compute; reflexivity).
    constructor; [|constructor]. split; [vm_compute; discriminate|].
    intros key off Hf Hne. vm_compute in Hf.
    destruct Hf as [Hf|[Hf|[Hf|[Hf|[Hf|[Hf|[]]]]]]];
      apply (f_equal snd) in Hf; cbn [snd] in Hf; subst off; vm_compute; discriminate.
  - reflexivity.
Defined.

(** * The claims on the objects of a file and on its magic values

    These two rest on what a completed page loop establishes, shown above. *)

(** ** Absent string fields *)

(** The objects on standard output whenever the decoder returns after the
    checks of the file header. *)
Lemma decode_Exited_objects mem c w :
  header_ok mem = true -> decode mem = Exited c w ->
  exists l rest,
    cookiesOf mem = l ++ rest /\
    (c = EXIT_CODE_OK -> rest = []) /\
    Forall (strings_end mem) l /\
    stdout w =
      opening ++ objects_text true (map (object_at mem) l) ++
      match c with EXIT_CODE_OK => closing | _ => [] end.
Proof.
  intros Hok H. rewrite decode_header_ok in H by exact Hok.
  destruct (pagesRun mem (Z.to_nat (pageCountOf mem))) as [st w1|c1 w1|] eqn:E;
    cbn [andThen] in H; try discriminate.
  - destruct (pagesRun_Done mem _ st w1 Hok (Nat.le_refl _) E) as [(_ & Hpb & _) _].
    destruct (pagesRun_Done_pages mem _ st w1 Hok (Nat.le_refl _) E)
      as (_ & Hstrs & _ & Hout & _).
    pose proof (pageStart_ge mem (Z.to_nat (pageCountOf mem))) as Hge.
    pose proof (pageCountOf_range mem).
    rewrite run_fileTrailer in H by lia.
    exists (cookiesOf mem), []. split; [rewrite app_nil_r; reflexivity|].
    split; [reflexivity|]. split; [exact Hstrs|].
    repeat match type of H with
           | (if ?b then _ else _) = _ => destruct b
           end;
      injection H as <- <-; cbn [put_err put_out log_reads stdout]; rewrite Hout;
      rewrite ?app_nil_r, <- ?app_assoc; reflexivity.
  - injection H as <- <-.
    destruct (pagesRun_Exited mem _ c1 w1 Hok (Nat.le_refl _) E)
      as (l & rest & Hl & Hstrs & Hout).
    assert (Hc : c1 <> EXIT_CODE_OK).
    { intros ->. unfold pagesRun in E.
      exact (tidy_false_not_OK _ _ _ _ (tidy_pageLoop _ _ _ _ _) E). }
    exists l, rest. split; [exact Hl|]. split; [contradiction|]. split; [exact Hstrs|].
    rewrite Hout. destruct c1; [contradiction|..]; rewrite app_nil_r; reflexivity.
Qed.

(** C7: whenever the decoder returns, with whatever code, standard output
    holds nothing when a check of the file header failed, and otherwise the
    opening text, one object for each of the records decoded so far, which are
    the leading ones among those that the offset tables of the pages point to
    (all of them when the code is [EXIT_CODE_OK]), and the closing text when
    the code is [EXIT_CODE_OK].  The object of the record at [cb] is
    [cookie_text] of the header found there, whose six string offsets are the
    little-endian words at [cb + 16], ..., [cb + 36] of the file: after
    version and flags it has one member for each of domain, name, path,
    value, comment and commentUrl, in that order.  The member of a field
    whose offset is zero is empty, so that its key does not appear at all
    (neither with [null] nor with an empty string); the member of a field
    whose offset is not zero is a comma, the key, a colon and the JSON string
    of the bytes found at that offset of the record. *)
Theorem C7_absent_fields_omitted :
  forall mem c w,
    decode mem = Exited c w ->
    exists l rest,
      cookiesOf mem = l ++ rest /\
      (c = EXIT_CODE_OK -> rest = []) /\
      stdout w =
        (if header_ok mem
         then opening ++
              objects_text true (map (fun cb => cookie_text mem cb (headerAt mem cb)) l) ++
              match c with EXIT_CODE_OK => closing | _ => [] end
         else []) /\
      forall cb,
        In cb l ->
        string_fields (headerAt mem cb) =
          [("domain"%string, get32Lo mem (cb + 16)); ("name"%string, get32Lo mem (cb + 20));
           ("path"%string, get32Lo mem (cb + 24)); ("value"%string, get32Lo mem (cb + 28));
           ("comment"%string, get32Lo mem (cb + 32));
           ("commentUrl"%string, get32Lo mem (cb + 36))] /\
        forall key off,
          In (key, off) (string_fields (headerAt mem cb)) ->
          (off = 0 -> field_text mem cb off key = []) /\
          (off <> 0 ->
           exists s,
             cstringAt mem (cb + off) = Some s /\
             field_text mem cb off key =
               bytes "," ++ quoted key ++ bytes ":" ++ json_string s).
Proof.
  intros mem c w H. destruct (header_ok mem) eqn:Hok.
  - destruct (decode_Exited_objects mem c w Hok H) as (l & rest & Hl & Hrest & Hstrs & Hout).
    exists l, rest. split; [exact Hl|]. split; [exact Hrest|]. split; [exact Hout|].
    intros cb Hcb. split; [reflexivity|]. intros key off Hin.
    rewrite Forall_forall in Hstrs. specialize (Hstrs cb Hcb key off Hin).
    unfold field_text. split.
    + intros ->. reflexivity.
    + intros Hne. destruct (Hstrs Hne) as [s Es]. exists s.
      destruct (Z.eqb_spec off 0); [contradiction|]. rewrite Es. auto.
  - destruct (decode_header_not_ok mem Hok) as (c1 & s & r & E & Hc & _).
    rewrite E in H. injection H as <- <-.
    exists [], (cookiesOf mem). split; [reflexivity|]. split; [contradiction|].
    split; [reflexivity|]. intros cb [].
Qed.

(** The scenario file, as an instance: its one record has a domain, a name
    and a value, and neither path, comment nor commentUrl. *)
Lemma C7_witness :
  exists l rest,
    cookiesOf scenario_file = l ++ rest /\
    (EXIT_CODE_OK = EXIT_CODE_OK -> rest = []) /\
    stdout (world_of (decode scenario_file)) =
      (if header_ok scenario_file
       then opening ++
            objects_text true
              (map (fun cb => cookie_text scenario_file cb (headerAt scenario_file cb)) l) ++
            closing
       else []) /\
    forall cb,
      In cb l ->
      string_fields (headerAt scenario_file cb) =
        [("domain"%string, get32Lo scenario_file (cb + 16));
         ("name"%string, get32Lo scenario_file (cb + 20));
         ("path"%string, get32Lo scenario_file (cb + 24));
         ("value"%string, get32Lo scenario_file (cb + 28));
         ("comment"%string, get32Lo scenario_file (cb + 32));
         ("commentUrl"%string, get32Lo scenario_file (cb + 36))] /\
      forall key off,
        In (key, off) (string_fields (headerAt scenario_file cb)) ->
        (off = 0 -> field_text scenario_file cb off key = []) /\
        (off <> 0 ->
         exists s,
           cstringAt scenario_file (cb + off) = Some s /\
           field_text scenario_file cb off key =
             bytes "," ++ quoted key ++ bytes ":" ++ json_string s).
Proof.
  apply (C7_absent_fields_omitted scenario_file EXIT_CODE_OK
           (world_of (decode scenario_file))).
  vm_compute. reflexivity.
Defined.

(** ** Changing a byte of a magic value *)

(** *** The pages before the changed byte *)

Lemma record_failure_andThen {A B : Type} (r : outcome A) (f : A -> world -> outcome B) :
  record_failure r -> record_failure (andThen r f).
Proof. destruct r; cbn; auto. contradiction. Qed.

Section ByteChangedLater.

Variables (mem mem' : list byte) (p : Z).
Hypothesis Hsame : same_except mem mem' p.

Lemma changed_in_bounds q n : in_bounds mem q n -> in_bounds mem' q n.
Proof. unfold in_bounds. rewrite (changed_length _ _ _ Hsame). auto. Qed.

Lemma changed_laneSum n : forall q,
  q + 4 * Z.of_nat n - 4 < p -> laneSum mem' q n = laneSum mem q n.
Proof.
  induction n as [|n IH]; intros q H; cbn [laneSum]; [reflexivity|].
  rewrite (changed_byteAt _ _ _ Hsame), IH by lia. reflexivity.
Qed.

(** A record whose place in the offset table lies before the changed byte:
    the table entry is read as before; the record itself may have changed. *)
Lemma changed_processCookie pb pageEnd pageIdx cookieIdx cob first w r w1 w' :
  in_bounds mem cob 4 -> cob + 4 <= p -> 0 <= pb -> stderr w' = [] ->
  run mem (processCookie (file_length mem) pb pageEnd pageIdx cookieIdx cob first) w =
    Done r w1 ->
  done_or_record_failure r
    (run mem' (processCookie (file_length mem') pb pageEnd pageIdx cookieIdx cob first) w').
Proof.
  intros Hcob Hp Hpb Herr H.
  pose proof (processCookie_Done _ _ _ _ _ _ _ _ _ _ Hcob Hpb H) as (-> & (Hlen & _) & _).
  rewrite run_processCookie by (exact Hpb || (apply changed_in_bounds; exact Hcob)).
  cbv zeta. rewrite (changed_length _ _ _ Hsame), (changed_get32Lo _ _ _ Hsame) by lia.
  destruct (Z.ltb_spec (file_length mem) (pb + get32Lo mem cob + 56)); [lia|].
  destruct (run mem' (checkCookie _ _ _ _ _ _) _) as [f w2|c w2|o w2] eqn:E;
    cbn [andThen].
  - left. exists w2. split.
    + apply checkCookie_Done in E. cbv zeta in E. destruct E as (-> & _). reflexivity.
    + rewrite (Done_stderr true _ _ _ _ _ (tidy_checkCookie _ _ _ _ _ _ _) E). exact Herr.
  - right. apply checkCookie_Exited_cause in E. destruct E as (_ & -> & what & Hdiag).
    split; [reflexivity|]. exists cookieIdx, pageIdx, what.
    rewrite Hdiag. cbn [log_reads stderr]. rewrite Herr. reflexivity.
  - right. exact I.
Qed.

Lemma changed_cookieLoop pb pageEnd pageIdx n : forall cookieIdx cob first w r w1 w',
  in_bounds mem cob (4 * Z.of_nat n) -> cob + 4 * Z.of_nat n <= p -> 0 <= pb ->
  stderr w' = [] ->
  run mem (cookieLoop (file_length mem) pb pageEnd pageIdx n cookieIdx cob first) w =
    Done r w1 ->
  done_or_record_failure r
    (run mem' (cookieLoop (file_length mem') pb pageEnd pageIdx n cookieIdx cob first) w').
Proof.
  induction n as [|n IH]; intros cookieIdx cob first w r w1 w' Hcob Hp Hpb Herr H;
    cbn [cookieLoop] in *.
  - cbn [run] in *. injection H as <- _. left. exists w'. auto.
  - rewrite run_bind in H. rewrite run_bind.
    assert (Hcob4 : in_bounds mem cob 4) by (unfold in_bounds in *; lia).
    destruct (run mem (processCookie _ _ _ _ _ _ _) w) as [[cob1 first1] w2| |] eqn:E;
      cbn [andThen] in H; try discriminate.
    destruct (changed_processCookie _ _ _ _ _ _ _ _ _ w' Hcob4 ltac:(lia) Hpb Herr E)
      as [(w2' & E' & Herr')|Hfail].
    + rewrite E'. cbn [andThen].
      pose proof (processCookie_Done _ _ _ _ _ _ _ _ _ _ Hcob4 Hpb E) as (Er & _).
      injection Er as -> ->.
      eapply IH; [unfold in_bounds in *; lia|lia|exact Hpb|exact Herr'|exact H].
    + right. apply record_failure_andThen, Hfail.
Qed.

(** A page that ends before the changed byte. *)
Lemma changed_processPage pageIdx i st w st1 w1 w' :
  (i < Z.to_nat (pageCountOf mem))%nat ->
  8 + pageCountOf mem * 4 <= file_length mem ->
  at_page mem i st -> pageStart mem (S i) <= p -> stderr w' = [] ->
  run mem (processPage (file_length mem) pageIdx st) w = Done st1 w1 ->
  done_or_record_failure st1 (run mem' (processPage (file_length mem') pageIdx st) w').
Proof.
  intros Hi Htab (Hpsb & Hpb & Hcs) Hp Herr H.
  pose proof (pageStart_ge mem i) as Hge. pose proof (pageCountOf_range mem) as Hpc.
  pose proof (pageSizeOf_range mem i) as Hsz.
  pose proof (get32Lo_range mem (pageStart mem i + 4)) as Hcc.
  cbn [pageStart] in Hp.
  rewrite run_processPage in H by (unfold in_bounds; rewrite ?Hpsb, ?Hpb; lia).
  rewrite run_processPage
    by (unfold in_bounds; rewrite ?(changed_length _ _ _ Hsame), ?Hpsb, ?Hpb; lia).
  cbv zeta in *. rewrite (changed_length _ _ _ Hsame). rewrite Hpsb, Hpb in *.
  rewrite (changed_get32Hi _ _ _ Hsame) by lia.
  fold (pageSizeOf mem i) in *.
  destruct (Z.ltb_spec (file_length mem) (pageStart mem i + pageSizeOf mem i)) as [H1|H1];
    [discriminate|].
  destruct (Z.ltb_spec (pageSizeOf mem i) 8) as [H2|H2]; [discriminate|].
  rewrite (changed_memcmp_same _ _ _ Hsame COOKIE_PAGE_TAG) by (cbn; lia).
  destruct (negb (memcmp_value mem (pageStart mem i) COOKIE_PAGE_TAG =? 0));
    [discriminate|].
  rewrite (changed_get32Lo _ _ _ Hsame) by lia.
  destruct (Z.ltb_spec (pageStart mem i + pageSizeOf mem i)
              (pageStart mem i + 8 + get32Lo mem (pageStart mem i + 4) * 4 + 4)) as [H4|H4];
    [discriminate|].
  rewrite (changed_memcmp_same _ _ _ Hsame COOKIE_PAGE_HEADER_END) by (cbn; lia).
  destruct (negb (memcmp_value mem _ COOKIE_PAGE_HEADER_END =? 0)); [discriminate|].
  destruct (run mem (cookieLoop _ _ _ _ _ _ _ _) _) as [r w5| |] eqn:E;
    cbn [andThen] in H; try discriminate.
  rewrite checksumLoop_fuel in H;
    [|lia|lia|exact H1|rewrite Hcs; apply wrap32_range].
  cbn [andThen] in H. injection H as <- _.
  assert (Hb : in_bounds mem (pageStart mem i + 8)
                 (4 * Z.of_nat (Z.to_nat (get32Lo mem (pageStart mem i + 4)))))
    by (unfold in_bounds; lia).
  assert (Hq : pageStart mem i + 8 +
               4 * Z.of_nat (Z.to_nat (get32Lo mem (pageStart mem i + 4))) <= p) by lia.
  assert (Hpb0 : 0 <= pageStart mem i) by lia.
  pose proof (fun w0 Herr0 =>
                changed_cookieLoop _ _ _ _ _ _ _ _ _ _ w0 Hb Hq Hpb0 Herr0 E) as Hloop.
  rewrite (changed_length _ _ _ Hsame) in Hloop.
  match goal with
  | |- done_or_record_failure _ (andThen (run mem' _ ?w0) _) =>
      destruct (Hloop w0 Herr) as [(w5' & E' & Herr')|Hfail]
  end.
  - rewrite E'. cbn [andThen].
    rewrite checksumLoop_fuel;
      [|lia|lia|rewrite (changed_length _ _ _ Hsame); exact H1
       |rewrite Hcs; apply wrap32_range].
    cbn [andThen]. left. eexists. split.
    + rewrite changed_laneSum; [reflexivity|].
      replace (pageStart mem i + pageSizeOf mem i - pageStart mem i)
        with (pageSizeOf mem i) by lia.
      unfold lanesOf. Z.div_mod_to_equations. lia.
    + cbn [log_reads stderr]. exact Herr'.
  - right. apply record_failure_andThen, Hfail.
Qed.

(** The pages before the changed byte: the page loop arrives in the same
    state, unless a record fails. *)
Lemma changed_pagesRun_before n : forall st w,
  header_ok mem = true -> (n <= Z.to_nat (pageCountOf mem))%nat ->
  pageStart mem n <= p ->
  pagesRun mem n = Done st w ->
  done_or_record_failure st (pagesRun mem' n).
Proof.
  induction n as [|n IH]; intros st w Hok Hn Hp H.
  - pose proof (pageCountOf_range mem). cbn [pageStart] in Hp.
    unfold pagesRun, state0, pageCountOf in *.
    rewrite (changed_get32Hi _ _ _ Hsame) by lia.
    cbn [pageLoop run] in *. injection H as <- _. left. eexists. split; reflexivity.
  - pose proof (pageStart_mono mem n (S n) ltac:(lia)) as Hmono.
    apply pagesRun_S_Done in H. destruct H as (st0 & w0 & H0 & Hpage).
    replace (S n) with (n + 1)%nat by lia. rewrite pagesRun_split.
    destruct (IH st0 w0 Hok ltac:(lia) ltac:(lia) H0) as [(w0' & E' & Herr')|Hfail].
    + rewrite E'. cbn [andThen].
      destruct (pagesRun_Done mem n st0 w0 Hok ltac:(lia) H0) as [Hat _].
      destruct (changed_processPage _ n _ _ _ _ w0' ltac:(lia) (header_ok_bounds mem Hok)
                  Hat Hp Herr' Hpage) as [(w1' & E1 & Herr1)|Hfail].
      * rewrite E1. cbn [andThen pageLoop run]. left. exists w1'. auto.
      * right. apply record_failure_andThen, Hfail.
    + right. apply record_failure_andThen, Hfail.
Qed.

End ByteChangedLater.

(** *** The outcome of the changed file *)


Lemma changed_pagesRun_cases mem p b' n st w :
  header_ok mem = true -> 0 <= p < file_length mem ->
  (n <= Z.to_nat (pageCountOf mem))%nat -> pageStart mem n <= p ->
  pagesRun mem n = Done st w ->
  (exists w', pagesRun (set_byte mem p b') n = Done st w') \/
  (In p (reads w) /\ record_failure (pagesRun (set_byte mem p b') n)).
Proof.
  intros Hok Hp Hn Hstart H.
  pose proof (same_except_set_byte mem p b' Hp) as Hsame.
  pose proof (pageStart_ge mem n) as Hge. pose proof (pageCountOf_range mem) as Hpc.
  destruct (in_dec Z.eq_dec p (reads w)) as [Hin|Hnot].
  - destruct (changed_pagesRun_before _ _ _ Hsame n st w Hok Hn Hstart H)
      as [(w' & E & _)|Hfail]; [left; eauto|right; auto].
  - left. exists w. rewrite (changed_pagesRun _ _ _ Hsame) by (rewrite ?H; exact Hnot || lia).
    exact H.
Qed.



(** In [overlap_file] the byte at offset 52, the third of the tag of the
    second page, is read as the first byte of the name offset of the record
    of the first page as well.  Changed from 1 to 2 it leaves that record
    acceptable, and the decoding fails at the tag. *)
Lemma overlap_file_tag_byte_52 :
  In 52 (reads_before overlap_file (PageTag 1)) /\
  exists w, decode (set_byte overlap_file 52 x02) = Exited EXIT_CODE_BAD_MAGIC w.
Proof.
  split; [vm_compute; auto 60|]. eexists. vm_compute. reflexivity.
Qed.
